(** * SupEmb: supervised cross-domain embedding (src/embed.py)

    A shallow embedding of the class [SupEmb] of [src/embed.py] and the
    properties its specification states.

    Scalars.  The program computes on numpy arrays of dtype float64, or
    int64 when [load_matrix] reads a file of integers.  The code is
    embedded once, over a class [Scalar] of the scalar operations it uses,
    and read at two instances:
    - [float], IEEE binary64 (Rocq's primitive floats): the reading in which
      the code runs, rounding, infinities and NaN included;
    - [R], the real numbers: exact arithmetic.  Nothing rounds or overflows
      there and [1 / 0] is not what numpy computes, so a property proved at
      [R] says so, excludes the runs that divide by zero where the quotient
      matters, and comes with the binary64 run that shows what rounding
      does to it.

    Arrays.  A 2-D array is a list of rows with its column count (so that a
    0 x c array has a shape) and its dtype; a 1-D array is a list.  An int64
    array holds integers; its entries are read in the scalar type, in which
    integers below 2^53 are exact, and integer wrap-around is not modelled.

    Effects.  A method returns in [M]: it raises, or returns a value, and
    in both cases leaves the warnings it emitted.  [logger.info] lines and
    the [timeit] decorator do not change any result and are left out.
    A method that sets attributes of [self] returns the new [self].

    Libraries.  numpy, sklearn and sparsesvd are modelled by what they do:
    shapes that do not fit raise ValueError, subtraction broadcasts, a
    division by zero warns and does not raise, storing a float in an int64
    array truncates it, sums run from the left (numpy fixes no order; over
    [R] the order does not matter), [normalize] refuses an array without
    rows, without columns or with an entry that is not finite and leaves a
    row of norm below 10 eps unscaled, [argsort] and [sparsesvd] are
    parameters of the methods that call them, and [sparsesvd] may raise. *)

From Stdlib Require Import List Arith ZArith Lia Bool Permutation Sorted.
From Stdlib Require Import Reals Lra.
From Stdlib Require Import Floats.
Import ListNotations.

Set Implicit Arguments.

(** ** Scalars *)

Class Scalar (T : Type) := {
  s0 : T;
  s1 : T;
  sadd : T -> T -> T;
  ssub : T -> T -> T;
  smul : T -> T -> T;
  sdiv : T -> T -> T;
  sopp : T -> T;
  ssqrt : T -> T;
  sabs : T -> T;
  sofnat : nat -> T;
  seqb : T -> T -> bool;
  sleb : T -> T -> bool;
  sltb : T -> T -> bool;
  sfinite : T -> bool;  (* numpy.isfinite *)
  strunc : T -> T;      (* the value an int64 cell holds after [cell = x] *)
  seps : T              (* numpy.finfo(numpy.float64).eps, 2^-52 *)
}.

Definition Reqb (x y : R) : bool := if Req_dec_T x y then true else false.
Definition Rleb (x y : R) : bool := if Rle_dec x y then true else false.
Definition Rltb (x y : R) : bool := if Rlt_dec x y then true else false.

(** Truncation toward zero. *)
Definition Rtrunc (x : R) : R :=
  if Rle_dec 0 x then IZR (Int_part x) else (- IZR (Int_part (- x)))%R.

#[export] Instance RScalar : Scalar R := {|
  s0 := 0%R; s1 := 1%R;
  sadd := Rplus; ssub := Rminus; smul := Rmult; sdiv := Rdiv;
  sopp := Ropp; ssqrt := R_sqrt.sqrt; sabs := Rabs; sofnat := INR;
  seqb := Reqb; sleb := Rleb; sltb := Rltb;
  sfinite := fun _ => true; strunc := Rtrunc;
  seps := (/ 4503599627370496)%R
|}.

Definition float_of_nat (n : nat) : float :=
  PrimFloat.of_uint63 (Uint63.of_Z (Z.of_nat n)).

(** Truncation toward zero in binary64.  Below 2^52 adding and taking away
    2^52 rounds to the nearest integer, which is one too many when it went
    up; from 2^52 on every float is an integer.  A zero result is +0, the
    float of the integer 0.  numpy leaves the cast of a NaN or of an
    infinity to int64 unspecified; they are left as they are. *)
Definition float_trunc (x : float) : float :=
  let a := PrimFloat.abs x in
  if PrimFloat.ltb a 0x1p52%float then
    let r := PrimFloat.sub (PrimFloat.add a 0x1p52%float) 0x1p52%float in
    let t := if PrimFloat.ltb a r then PrimFloat.sub r 1%float else r in
    if PrimFloat.eqb t 0%float then 0%float
    else if PrimFloat.ltb x 0%float then PrimFloat.opp t else t
  else x.

#[export] Instance FScalar : Scalar float := {|
  s0 := PrimFloat.zero; s1 := PrimFloat.one;
  sadd := PrimFloat.add; ssub := PrimFloat.sub; smul := PrimFloat.mul;
  sdiv := PrimFloat.div; sopp := PrimFloat.opp; ssqrt := PrimFloat.sqrt;
  sabs := PrimFloat.abs; sofnat := float_of_nat;
  seqb := PrimFloat.eqb; sleb := PrimFloat.leb; sltb := PrimFloat.ltb;
  sfinite := PrimFloat.is_finite; strunc := float_trunc;
  seps := 0x1p-52%float
|}.

(** ** The effect monad: exceptions and emitted warnings *)

Inductive exn : Type :=
  | ValueError       (* numpy, sklearn, sparsesvd: an input is refused *)
  | AssertionError   (* a failed [assert] *)
  | AttributeError.  (* an attribute read before it was set *)

(** Of the warnings a run can leave, two are recorded: the line that
    perturbate logs, and numpy's RuntimeWarning for the division by zero in
    [1.0 / s].  Once an infinity or a NaN is around numpy can leave other
    RuntimeWarnings (overflow, invalid value); they are not recorded, and
    no property speaks of their absence. *)
Inductive event : Type :=
  | LogWarning (perturbations : nat)  (* logging.warning("Perturbations = %d") *)
  | DivideByZero.                     (* numpy RuntimeWarning: divide by zero *)

Definition M (A : Type) : Type := (exn + A) * list event.

Definition ret {A} (a : A) : M A := (inr a, []).
Definition raise {A} (e : exn) : M A := (inl e, []).
Definition warn (w : event) : M unit := (inr tt, [w]).
Definition bind {A B} (m : M A) (f : A -> M B) : M B :=
  match m with
  | (inl e, l) => (inl e, l)
  | (inr a, l) => let (r, l') := f a in (r, l ++ l')
  end.

Notation "x <- c1 ;; c2" := (bind c1 (fun x => c2))
  (at level 61, c1 at next level, right associativity).
Notation "c1 ;;; c2" := (bind c1 (fun _ => c2))
  (at level 61, right associativity).

Definition returns {A} (m : M A) (a : A) : Prop := fst m = inr a.
Definition raises {A} (m : M A) (e : exn) : Prop := fst m = inl e.
Definition warnings {A} (m : M A) : list event := snd m.

(** ** Arrays *)

(** The two dtypes that [load_matrix] produces, and numpy.result_type on
    them: an operation on two int64 arrays gives an int64 array, any other
    a float64 one. *)
Inductive dtype : Type := float64 | int64.

Definition result_type (a b : dtype) : dtype :=
  match a, b with
  | int64, int64 => int64
  | _, _ => float64
  end.

Record ndarray (T : Type) : Type := mk_array {
  ncols : nat;
  rows : list (list T);
  dtype_of : dtype
}.

Arguments mk_array {T} _ _ _.

(** A float64 array. *)
Abbreviation mk_ndarray c rs := (mk_array c rs float64).

(** The same entries under another dtype. *)
Definition with_dtype {T} (dt : dtype) (A : ndarray T) : ndarray T :=
  mk_array (ncols A) (rows A) dt.

Section Arrays.
Context {T : Type} `{Scalar T}.

Definition shape0 (A : ndarray T) : nat := length (rows A).
Definition shape1 (A : ndarray T) : nat := ncols A.
Definition shape (A : ndarray T) : nat * nat := (shape0 A, shape1 A).

(** Every row has the array's column count. *)
Definition wf (A : ndarray T) : Prop :=
  Forall (fun r => length r = ncols A) (rows A).

(** [A[i,j]] *)
Definition get (A : ndarray T) (i j : nat) : T :=
  nth j (nth i (rows A) []) s0.

(** The value that [cell = v] stores in a cell of an array of dtype [dt]. *)
Definition cast (dt : dtype) (v : T) : T :=
  match dt with
  | float64 => v
  | int64 => strunc v
  end.

(** The r x c float64 array whose entry (i,j) is [f i j]. *)
Definition tabulate (r c : nat) (f : nat -> nat -> T) : ndarray T :=
  mk_ndarray c (map (fun i => map (f i) (seq 0 c)) (seq 0 r)).

(** [A[i,j] = v], in place, on a float64 array (W2 and W3, which
    numpy.zeros makes with dtype=float): v is stored as it is. *)
Fixpoint set_nth {X} (l : list X) (n : nat) (v : X) : list X :=
  match l, n with
  | [], _ => []
  | _ :: t, O => v :: t
  | h :: t, S n' => h :: set_nth t n' v
  end.

Definition set (A : ndarray T) (i j : nat) (v : T) : ndarray T :=
  mk_array (ncols A)
    (set_nth (rows A) i (set_nth (nth i (rows A) []) j v)) (dtype_of A).

(** Sum of a 1-D array, accumulated from the left. *)
Definition ssum (l : list T) : T := fold_left sadd l s0.

(** numpy.zeros((r, c), dtype=float), numpy.eye(n, dtype=float),
    numpy.ones(n) *)
Definition zeros (r c : nat) : ndarray T := tabulate r c (fun _ _ => s0).
Definition eye (n : nat) : ndarray T :=
  tabulate n n (fun i j => if Nat.eqb i j then s1 else s0).
Definition ones (n : nat) : list T := repeat s1 n.

(** numpy.concatenate((A, B), axis=0): B below A. *)
Definition concatenate0 (A B : ndarray T) : M (ndarray T) :=
  if Nat.eqb (shape1 A) (shape1 B)
  then ret (mk_array (ncols A) (rows A ++ rows B)
              (result_type (dtype_of A) (dtype_of B)))
  else raise ValueError.

(** numpy.concatenate((A, B), axis=1): B to the right of A. *)
Definition concatenate1 (A B : ndarray T) : M (ndarray T) :=
  if Nat.eqb (shape0 A) (shape0 B)
  then ret (with_dtype (result_type (dtype_of A) (dtype_of B))
              (tabulate (shape0 A) (shape1 A + shape1 B)
                 (fun i j => if Nat.ltb j (shape1 A) then get A i j
                             else get B i (j - shape1 A))))
  else raise ValueError.

(** A.T *)
Definition transpose (A : ndarray T) : ndarray T :=
  with_dtype (dtype_of A)
    (tabulate (shape1 A) (shape0 A) (fun i j => get A j i)).

(** numpy.dot(A, B) *)
Definition dot (A B : ndarray T) : M (ndarray T) :=
  if Nat.eqb (shape1 A) (shape0 B)
  then ret (with_dtype (result_type (dtype_of A) (dtype_of B))
              (tabulate (shape0 A) (shape1 B)
                 (fun i j => ssum (map (fun k => smul (get A i k) (get B k j))
                                       (seq 0 (shape1 A))))))
  else raise ValueError.

(** Broadcasting of one axis: equal lengths, or one of them is 1. *)
Definition broadcast (a b : nat) : option nat :=
  if Nat.eqb a b then Some a
  else if Nat.eqb a 1 then Some b
  else if Nat.eqb b 1 then Some a
  else None.

Definition bget (A : ndarray T) (i j : nat) : T :=
  get A (if Nat.eqb (shape0 A) 1 then 0 else i)
        (if Nat.eqb (shape1 A) 1 then 0 else j).

(** [A - B], elementwise with numpy's broadcasting. *)
Definition subtract (A B : ndarray T) : M (ndarray T) :=
  match broadcast (shape0 A) (shape0 B), broadcast (shape1 A) (shape1 B) with
  | Some r, Some c =>
      ret (with_dtype (result_type (dtype_of A) (dtype_of B))
             (tabulate r c (fun i j => ssub (bget A i j) (bget B i j))))
  | _, _ => raise ValueError
  end.

(** [x * A] for a Python float x: a float64 array. *)
Definition scale (x : T) (A : ndarray T) : ndarray T :=
  tabulate (shape0 A) (shape1 A) (fun i j => smul x (get A i j)).

(** numpy.diag(s) for a 1-D s, as a float64 array. *)
Definition diag (s : list T) : ndarray T :=
  tabulate (length s) (length s)
    (fun i j => if Nat.eqb i j then nth i s s0 else s0).

(** numpy.sum(W, axis=1): the row totals, of the dtype of W. *)
Definition sum_axis1 (W : ndarray T) : list T :=
  map (fun i => ssum (map (get W i) (seq 0 (shape1 W)))) (seq 0 (shape0 W)).

(** numpy.mean(s): a float, whatever the dtype of s. *)
Definition mean (s : list T) : T := sdiv (ssum s) (sofnat (length s)).

(** numpy.count_nonzero(s) *)
Definition count_nonzero (s : list T) : nat :=
  length (filter (fun x => negb (seqb x s0)) s).

(** numpy.where(s == 0): the indices of the zero entries. *)
Definition where_zero (s : list T) : list nat :=
  filter (fun i => seqb (nth i s s0) s0) (seq 0 (length s)).

End Arrays.

(** ** Python control and indexing *)

(** [for i in range(0, n): body] *)
Definition for_range {St} (n : nat) (body : nat -> St -> St) (s : St) : St :=
  fold_left (fun s i => body i s) (seq 0 n) s.

(** [l[start:]] for a Python int [start]: a negative start counts from the
    end, and a start outside the list is clipped to it. *)
Definition slice_from {X} (start : Z) (l : list X) : list X :=
  let n := Z.of_nat (length l) in
  let s := if (start <? 0)%Z then Z.max 0 (start + n) else Z.min start n in
  skipn (Z.to_nat s) l.

(** [j in a] for a 1-D array of row ids *)
Definition py_in (j : nat) (a : list nat) : bool := existsb (Nat.eqb j) a.

(** [assert(c)] *)
Definition py_assert (c : bool) : M unit :=
  if c then ret tt else raise AssertionError.

(** ** class SupEmb *)

(** The attributes of a SupEmb object.  [A_], [B_] and [M_] are self.A,
    self.B and self.M; k2, k3 and k3_bar are Python ints. *)
Record SupEmb (T : Type) : Type := mk_SupEmb {
  Ua : ndarray T; Ub : ndarray T; A_ : ndarray T; B_ : ndarray T;
  XlA_pos : ndarray T; XlA_neg : ndarray T; XuA : ndarray T; XuB : ndarray T;
  M_ : nat; d : nat; h : nat;
  w1 : T; w2 : T; w3 : T; lambda_1 : T; lambda_2 : T;
  k2 : Z; k3 : Z; k3_bar : Z; dims : nat;
  (* attributes that get_W2 sets *)
  XlA : option (ndarray T);
  pos_n : option nat; neg_n : option nat;
  Y : option (list T)
}.

Section Methods.
Context {T : Type} `{Scalar T}.

(** numpy.argsort on a 1-D array with the default sort: the indices that
    put the array in ascending order.  Which of two equal entries comes
    first is not fixed by numpy; the embedding takes the sort as given. *)
Variable argsort : list T -> list nat.

(** sparsesvd(scipy.sparse.csc_matrix(Q), k), of the sparsesvd package:
    returns (ut, s, vt), or raises. *)
Variable sparsesvd : ndarray T -> nat -> M (ndarray T * list T * ndarray T).

(** SupEmb.__init__ *)
Definition init (Ua Ub A B XlA_pos XlA_neg XuA XuB : ndarray T)
  : M (SupEmb T) :=
  py_assert (Nat.eqb (shape0 Ua) (shape0 Ub)) ;;;
  let M0 := shape0 Ua in
  py_assert (Nat.eqb (shape1 Ub) (shape1 B)) ;;;
  py_assert (Nat.eqb (shape1 Ua) (shape1 A)) ;;;
  py_assert (Nat.eqb (shape1 XlA_pos) (shape1 XlA_neg)) ;;;
  py_assert (Nat.eqb (shape0 Ua + shape0 A) (shape1 XuA)) ;;;
  py_assert (Nat.eqb (shape0 Ub + shape0 B) (shape1 XuB)) ;;;
  ret (mk_SupEmb Ua Ub A B XlA_pos XlA_neg XuA XuB
         M0 (shape1 Ua) (shape1 Ub)
         s1 s1 s1 s1 s1 5%Z 5%Z 5%Z 500
         None None None None).

(** SupEmb.get_W1 *)
Definition get_W1 (M0 : nat) : M (ndarray T) :=
  let O := zeros M0 M0 in
  let I := eye M0 in
  top <- concatenate1 O I ;;
  bottom <- concatenate1 I O ;;
  W1 <- concatenate0 top bottom ;;
  ret W1.

(** sklearn.preprocessing.normalize(A, norm='l2', copy=True).  Its input
    check raises ValueError on an array with no row, with no column or
    with an entry that is not finite.  Then each row is divided by its L2
    norm, a norm below 10 eps being replaced by 1; the result is a float64
    array. *)
Definition check_array (A : ndarray T) : M unit :=
  if Nat.eqb (shape0 A) 0 || Nat.eqb (shape1 A) 0
     || negb (forallb (forallb sfinite) (rows A))
  then raise ValueError else ret tt.

Definition row_norm (A : ndarray T) (i : nat) : T :=
  let n := ssqrt (ssum (map (fun j => smul (get A i j) (get A i j))
                            (seq 0 (shape1 A)))) in
  if sltb n (smul (sofnat 10) seps) then s1 else n.

Definition scaled_rows (A : ndarray T) : ndarray T :=
  tabulate (shape0 A) (shape1 A) (fun i j => sdiv (get A i j) (row_norm A i)).

Definition normalize (A : ndarray T) : M (ndarray T) :=
  check_array A ;;;
  ret (scaled_rows A).

(** SupEmb.get_kNNs *)
Definition get_kNNs (A : ndarray T) (k : Z)
  : M (ndarray T * list (list nat)) :=
  normA <- normalize A ;;
  Sim <- dot normA (transpose normA) ;;
  let N := map (fun i => argsort (map (get Sim i) (seq 0 (shape1 Sim))))
               (seq 0 (shape0 Sim)) in
  let neighbours :=
    for_range (shape0 Sim)
      (fun i nb => nb ++ [slice_from (- k) (nth i N [])]) [] in
  ret (Sim, neighbours).

(** SupEmb.get_W2.  The attributes are set before get_kNNs is called; the
    object is returned with the result. *)
Definition get_W2 (self : SupEmb T) : M (ndarray T * SupEmb T) :=
  XlA0 <- concatenate0 (XlA_pos self) (XlA_neg self) ;;
  let pos := shape0 (XlA_pos self) in
  let neg := shape0 (XlA_neg self) in
  let n := pos + neg in
  let Y0 := ones pos ++ map (smul (sopp s1)) (ones neg) in
  let self' :=
    mk_SupEmb (Ua self) (Ub self) (A_ self) (B_ self) (XlA_pos self)
      (XlA_neg self) (XuA self) (XuB self) (M_ self) (d self) (h self)
      (w1 self) (w2 self) (w3 self) (lambda_1 self) (lambda_2 self)
      (k2 self) (k3 self) (k3_bar self) (dims self)
      (Some XlA0) (Some pos) (Some neg) (Some Y0) in
  Sn <- get_kNNs XlA0 (k2 self) ;;
  let '(Sim, neighbours) := Sn in
  let W2 :=
    for_range n (fun i W =>
      for_range n (fun j W =>
        if py_in j (nth i neighbours []) && py_in i (nth j neighbours [])
        then
          if seqb (nth i Y0 s0) (nth j Y0 s0)
          then set W i j (smul (sopp (lambda_2 self)) (get Sim i j))
          else set W i j (get Sim i j)
        else W) W) (zeros n n) in
  ret (W2, self').

(** SupEmb.get_W3 *)
Definition get_W3 (X : ndarray T) (k : Z) : M (ndarray T) :=
  Sn <- get_kNNs X k ;;
  let '(Sim, neighbours) := Sn in
  let n := shape0 X in
  let W3 :=
    for_range n (fun i W =>
      for_range n (fun j W => set W i j (get Sim i j)) W) (zeros n n) in
  ret W3.

(** SupEmb.get_Laplacian.  numpy.diag(s) has the dtype of s, which is that
    of W. *)
Definition get_Laplacian (W : ndarray T) : M (ndarray T) :=
  let s := sum_axis1 W in
  let D := with_dtype (dtype_of W) (diag s) in
  L <- subtract W D ;;
  ret L.

(** SupEmb.perturbate, on a 1-D array s of dtype [dt].
    [numpy.where(s == 0)] is a 1-tuple holding the array of the zero
    positions; the loop runs over the tuple and each pass assigns [v] at
    all positions of its array, where an int64 array keeps the integer
    part of [v]; the message carries the length of the tuple. *)
Definition perturbate (dt : dtype) (s : list T) : M (list T) :=
  let v := mean s in
  let zeros_ := [where_zero s] in
  let s' := fold_left
              (fun s i => fold_left (fun s p => set_nth s p (cast dt v)) i s)
              zeros_ s in
  warn (LogWarning (length zeros_)) ;;;
  ret s'.

(** [1.0 / s] on a 1-D array: numpy warns, and does not raise, when an
    entry of s is zero. *)
Definition reciprocal (s : list T) : M (list T) :=
  (if existsb (fun x => seqb x s0) s then warn DivideByZero else ret tt) ;;;
  ret (map (sdiv s1) s).

(** SupEmb.get_Dinv *)
Definition get_Dinv (W : ndarray T) : M (ndarray T) :=
  let s := sum_axis1 W in
  s <- (if Nat.ltb 0 (count_nonzero s) then perturbate (dtype_of W) s
        else ret s) ;;
  r <- reciprocal s ;;
  ret (diag r).

(** Reading an attribute that get_W2 sets. *)
Definition attr {X} (a : option X) : M X :=
  match a with Some x => ret x | None => raise AttributeError end.

(** SupEmb.get_U1 *)
Definition get_U1 (self : SupEmb T) : M (ndarray T) :=
  let Oh := zeros (M_ self) (h self) in
  top <- concatenate1 (Ua self) Oh ;;
  let Od := zeros (M_ self) (d self) in
  bottom <- concatenate1 Od (Ub self) ;;
  U1 <- concatenate0 top bottom ;;
  ret U1.

(** SupEmb.get_embedding *)
Definition get_embedding (self : SupEmb T) : M (ndarray T * SupEmb T) :=
  (* Rule 1 *)
  W1 <- get_W1 (M_ self) ;;
  L1 <- get_Laplacian W1 ;;
  U1 <- get_U1 self ;;
  U1tL1 <- dot (transpose U1) L1 ;;
  Qright <- dot U1tL1 U1 ;;
  (* Rule 2 *)
  W2s <- get_W2 self ;;
  let '(W2, self) := W2s in
  L2 <- get_Laplacian W2 ;;
  XlA0 <- attr (XlA self) ;;
  D2 <- get_Dinv XlA0 ;;
  totA <- concatenate0 (Ua self) (A_ self) ;;
  D2X <- dot D2 XlA0 ;;
  part1 <- dot D2X totA ;;
  p1L2 <- dot (transpose part1) L2 ;;
  F2 <- dot p1L2 part1 ;;
  (* Rule 3 *)
  W3 <- get_W3 (XuA self) (k3 self) ;;
  L3 <- get_Laplacian W3 ;;
  D3 <- get_Dinv (XuA self) ;;
  D3X <- dot D3 (XuA self) ;;
  part2 <- dot D3X totA ;;
  p2L3 <- dot (transpose part2) L3 ;;
  F3 <- dot p2L3 part2 ;;
  W3_bar <- get_W3 (XuB self) (k3_bar self) ;;
  L3_bar <- get_Laplacian W3_bar ;;
  D3_bar <- get_Dinv (XuB self) ;;
  totB <- concatenate0 (Ub self) (B_ self) ;;
  D3bX <- dot D3_bar (XuB self) ;;
  part3 <- dot D3bX totB ;;
  p3L3 <- dot (transpose part3) L3_bar ;;
  F3_bar <- dot p3L3 part3 ;;
  (* Q *)
  Q11 <- subtract (scale (w2 self) F2) (scale (w3 self) F3) ;;
  let Q12 := zeros (d self) (h self) in
  let Q22 := scale (smul (sopp (w3 self)) (lambda_2 self)) F3_bar in
  Qtop <- concatenate1 Q11 Q12 ;;
  Qbottom <- concatenate1 (transpose Q12) Q22 ;;
  Qleft <- concatenate0 Qtop Qbottom ;;
  Q <- subtract Qleft Qright ;;
  ret (Q, self).

(** [u[:, a:b]] *)
Definition slice_cols (u : ndarray T) (a b : nat) : ndarray T :=
  let a' := Nat.min a (shape1 u) in
  let b' := Nat.min b (shape1 u) in
  with_dtype (dtype_of u)
    (tabulate (shape0 u) (b' - a') (fun i j => get u i (a' + j))).

(** SupEmb.get_projection *)
Definition get_projection (self : SupEmb T) (Q : ndarray T)
  : M (ndarray T * ndarray T) :=
  usv <- sparsesvd Q (dims self) ;;
  let '(u, s, v) := usv in
  let Pa := slice_cols u 0 (d self) in
  let Pb := slice_cols u (d self) (shape1 u) in
  ret (Pa, Pb).

(** SupEmb.project_instances *)
Definition project_instances (X U A P : ndarray T) : M (ndarray T) :=
  D <- get_Dinv X ;;
  Y <- dot (transpose X) D ;;
  left <- dot U (transpose P) ;;
  right <- dot A (transpose P) ;;
  Z <- concatenate1 (transpose left) (transpose right) ;;
  Z <- dot Z Y ;;
  ret (transpose Z).
End Methods.

(** A concrete argsort: insertion of the indices from the right, an index
    going before the first one whose entry is not smaller.  It is stable,
    as numpy's sort is on short arrays. *)
Fixpoint insert_by (le : nat -> nat -> bool) (x : nat) (l : list nat)
  : list nat :=
  match l with
  | [] => [x]
  | y :: t => if le x y then x :: l else y :: insert_by le x t
  end.

Definition argsort_ins {T} `{Scalar T} (a : list T) : list nat :=
  fold_right (insert_by (fun i j => sleb (nth i a s0) (nth j a s0))) []
    (seq 0 (length a)).

(** * The vocabulary of the properties

    What the methods return, entry by entry, and the predicates the
    properties are stated with. *)

Section Vocabulary.
Context {T : Type} `{Scalar T}.
Variable argsort : list T -> list nat.
Variable sparsesvd : ndarray T -> nat -> M (ndarray T * list T * ndarray T).

(** The six shape invariants of the eight input arrays. *)
Definition shape_invariants (Ua Ub A B XlA_pos XlA_neg XuA XuB : ndarray T)
  : Prop :=
  shape0 Ua = shape0 Ub /\
  shape1 Ub = shape1 B /\
  shape1 Ua = shape1 A /\
  shape1 XlA_pos = shape1 XlA_neg /\
  shape1 XuA = shape0 Ua + shape0 A /\
  shape1 XuB = shape0 Ub + shape0 B.

(** Entry (i,j) of the block array [[O, I], [I, O]] with M x M blocks. *)
Definition W1_entry (M0 i j : nat) : T :=
  if Nat.eqb j (M0 + i) || Nat.eqb i (M0 + j) then s1 else s0.

(** One pass of the loop body: entry (i,j) is assigned, or left alone. *)
Definition assign (g : nat -> nat -> option T) (i j : nat) (W : ndarray T)
  : ndarray T :=
  match g i j with Some v => set W i j v | None => W end.

Definition fill (g : nat -> nat -> option T) (n m : nat) (W : ndarray T)
  : ndarray T :=
  for_range n (fun i W => for_range m (fun j W => assign g i j W) W) W.

Definition sized (n m : nat) (W : ndarray T) : Prop :=
  wf W /\ shape0 W = n /\ shape1 W = m.

(** The arrays that normalize accepts: at least one row, at least one
    column, every entry finite. *)
Definition accepted (A : ndarray T) : Prop :=
  0 < shape0 A /\ 0 < shape1 A /\ forallb (forallb sfinite) (rows A) = true.

(** The similarity array S of get_kNNs: the products of the normalised
    rows. *)
Definition similarity (A : ndarray T) : ndarray T :=
  let normA := scaled_rows A in
  tabulate (shape0 A) (shape0 A)
    (fun i j => ssum (map (fun k => smul (get normA i k)
                                         (get (transpose normA) k j))
                          (seq 0 (shape1 A)))).

(** The neighbour table of get_kNNs: for row i, the last k entries
    ([-k:]) of the argsort of row i of S. *)
Definition neighbours_of (A : ndarray T) (k : Z) : list (list nat) :=
  map (fun i => slice_from (- k)
                  (argsort (map (get (similarity A) i) (seq 0 (shape0 A)))))
      (seq 0 (shape0 A)).

(** The array that perturbate returns. *)
Definition perturbed (dt : dtype) (s : list T) : list T :=
  map (fun i => if seqb (nth i s s0) s0 then cast dt (mean s) else nth i s s0)
      (seq 0 (length s)).

(** The row totals that get_Dinv inverts: perturbed when some total is
    nonzero (the test the code makes), as they are otherwise. *)
Definition Dinv_sums (W : ndarray T) : list T :=
  let s := sum_axis1 W in
  if Nat.ltb 0 (count_nonzero s) then perturbed (dtype_of W) s else s.

Definition Dinv_log (W : ndarray T) : list event :=
  (if Nat.ltb 0 (count_nonzero (sum_axis1 W)) then [LogWarning 1] else []) ++
  (if existsb (fun x => seqb x s0) (Dinv_sums W) then [DivideByZero] else []).

(** C5 as the specification words it: get_projection returns Pa of shape
    (d, dims) and Pb of shape (h, dims). *)
Definition projection_shapes_as_stated (self : SupEmb T) (Q : ndarray T)
  : Prop :=
  exists Pa Pb : ndarray T,
    returns (get_projection sparsesvd self Q) (Pa, Pb) /\
    shape Pa = (d self, dims self) /\
    shape Pb = (h self, dims self).

(** Entry (i,j) of the Laplacian of a square array, and the Laplacian as
    an array. *)
Definition Laplacian_entry (W : ndarray T) (i j : nat) : T :=
  ssub (get W i j) (if Nat.eqb i j then nth i (sum_axis1 W) s0 else s0).

Definition Laplacian (W : ndarray T) : ndarray T :=
  with_dtype (dtype_of W)
    (tabulate (shape0 W) (shape0 W) (Laplacian_entry W)).

(** The product of two arrays whose inner dimensions agree. *)
Definition matmul (A B : ndarray T) : ndarray T :=
  with_dtype (result_type (dtype_of A) (dtype_of B))
    (tabulate (shape0 A) (shape1 B)
       (fun i j => ssum (map (fun k => smul (get A i k) (get B k j))
                             (seq 0 (shape1 A))))).

(** The difference of two arrays of one shape. *)
Definition difference (A B : ndarray T) : ndarray T :=
  with_dtype (result_type (dtype_of A) (dtype_of B))
    (tabulate (shape0 A) (shape1 A)
       (fun i j => ssub (get A i j) (get B i j))).

(** B to the right of A, B below A. *)
Definition hstack (A B : ndarray T) : ndarray T :=
  with_dtype (result_type (dtype_of A) (dtype_of B))
    (tabulate (shape0 A) (shape1 A + shape1 B)
       (fun i j => if Nat.ltb j (shape1 A) then get A i j
                   else get B i (j - shape1 A))).

Definition vstack (A B : ndarray T) : ndarray T :=
  mk_array (ncols A) (rows A ++ rows B)
    (result_type (dtype_of A) (dtype_of B)).

End Vocabulary.

(** numpy.count_nonzero on a 2-D array *)
Definition count_nonzero2 {T} `{Scalar T} (W : ndarray T) : nat :=
  list_sum (map count_nonzero (rows W)).

(** C6 as the specification words it: for k <= n-1 each neighbour set has
    exactly k entries, and for k >= n the call returns with sets of n-1
    entries. *)
Definition neighbour_count_as_stated {T} `{Scalar T}
    (argsort : list T -> list nat) (X : ndarray T) (k : Z) : Prop :=
  ((k <= Z.of_nat (shape0 X) - 1)%Z ->
     exists S0 nb, get_kNNs argsort X k = ret (S0, nb) /\
       forall i, i < shape0 X -> Z.of_nat (length (nth i nb [])) = k) /\
  ((Z.of_nat (shape0 X) <= k)%Z ->
     exists S0 nb, get_kNNs argsort X k = ret (S0, nb) /\
       forall i, i < shape0 X -> length (nth i nb []) = shape0 X - 1).

(** |Q - Q.T| < tol elementwise, on an n x n array. *)
Definition within_tolerance {T} `{Scalar T} (tol : T) (n : nat)
    (Q : ndarray T) : bool :=
  forallb (fun i =>
    forallb (fun j =>
      sltb (sabs (ssub (get Q i j) (get (transpose Q) i j))) tol)
      (seq 0 n))
    (seq 0 n).

(** The object [self] after assignments to self.w1, self.lambda_1, self.k3,
    self.k3_bar and self.dims. *)
Definition with_parameters {T} (self : SupEmb T) (w1' lambda_1' : T)
    (k3' k3_bar' : Z) (dims' : nat) : SupEmb T :=
  mk_SupEmb (Ua self) (Ub self) (A_ self) (B_ self) (XlA_pos self)
    (XlA_neg self) (XuA self) (XuB self) (M_ self) (d self) (h self)
    w1' (w2 self) (w3 self) lambda_1' (lambda_2 self)
    (k2 self) k3' k3_bar' dims'
    (XlA self) (pos_n self) (neg_n self) (Y self).

(** The row that Rule 1 links with row i: i + M above the middle, i - M
    below. *)
Definition partner (M0 i : nat) : nat :=
  if Nat.ltb i M0 then M0 + i else i - M0.

Section RealVocabulary.
Open Scope R_scope.
Variable argsort : list R -> list nat.

(** What the loop body of get_W2 assigns to entry (i,j). *)
Definition W2_assigned (lam : R) (pos : nat) (S0 : ndarray R)
    (nb : list (list nat)) (i j : nat) : option R :=
  if py_in j (nth i nb []) && py_in i (nth j nb [])
  then Some (if Bool.eqb (Nat.ltb i pos) (Nat.ltb j pos)
             then - lam * get S0 i j else get S0 i j)
  else None.

(** Entry k of row i after normalisation. *)
Definition unit_row (A : ndarray R) (i k : nat) : R :=
  get A i k / row_norm A i.

(** The squared length of row i, and its length. *)
Definition sumsq (A : ndarray R) (i : nat) : R :=
  ssum (map (fun j => get A i j * get A i j) (seq 0 (shape1 A))).

Definition norm (A : ndarray R) (i : nat) : R := R_sqrt.sqrt (sumsq A i).

(** 10 eps, the length under which normalize leaves a row unscaled. *)
Definition ten_eps : R := 10 * / 4503599627370496.

(** Row i as the specification of normalize has it: divided by its length,
    or left as it is when the length is below 10 eps. *)
Definition direction (A : ndarray R) (i k : nat) : R :=
  if Rlt_dec (norm A i) ten_eps then get A i k else get A i k / norm A i.

(** The cosine of the angle between rows i and j: their inner product
    over the product of their lengths. *)
Definition cosine (A : ndarray R) (i j : nat) : R :=
  ssum (map (fun k => get A i k * get A j k) (seq 0 (shape1 A))) /
  (norm A i * norm A j).

(** [N] lists indices by ascending value in [a]. *)
Definition ascending (a : list R) (N : list nat) : Prop :=
  StronglySorted (fun p q => nth p a 0 <= nth q a 0) N.

(** What numpy.argsort guarantees, whatever it does with equal entries. *)
Definition argsort_spec (argsort : list R -> list nat) : Prop :=
  forall a, Permutation (argsort a) (seq 0 (length a)) /\
            ascending a (argsort a).

(** The number of indices other than i whose value ties with that of i. *)
Definition tied (v : nat -> R) (i n : nat) : nat :=
  length (filter (fun j => negb (Nat.eqb j i) && Reqb (v j) (v i)) (seq 0 n)).

(** The rows other than j that are at least as similar to a row as row j
    is, and the rows that are more similar, counted in the row [v] of S. *)
Definition rivals (v : nat -> R) (j n : nat) : nat :=
  length (filter (fun q => negb (Nat.eqb q j) && Rleb (v j) (v q)) (seq 0 n)).


(** Row j is one of the k rows most similar to row i, however ties are
    broken: fewer than k other rows are at least as similar. *)
Definition nearest (S0 : ndarray R) (n : nat) (k : Z) (i j : nat) : Prop :=
  (Z.of_nat (rivals (get S0 i) j n) < k)%Z.


(** The similarity of rows i and j as the specification has it: the inner
    product of the two rows as normalize leaves them. *)
Definition row_similarity (A : ndarray R) (i j : nat) : R :=
  ssum (map (fun k => direction A i k * direction A j k)
            (seq 0 (shape1 A))).

Definition symmetric (n : nat) (W : ndarray R) : Prop :=
  forall i j, (i < n)%nat -> (j < n)%nat -> get W i j = get W j i.

(** The array get_Dinv returns. *)
Definition Dinv (W : ndarray R) : ndarray R :=
  diag (map (sdiv s1) (Dinv_sums W)).

(** part.T * L * part for part = D * X * tot, the form of F2, F3, F3_bar. *)
Definition quadratic_form (D X tot L : ndarray R) : ndarray R :=
  let part := matmul (matmul D X) tot in
  matmul (matmul (transpose part) L) part.

Definition U1_of (self : SupEmb R) : ndarray R :=
  vstack (hstack (Ua self) (zeros (M_ self) (h self)))
         (hstack (zeros (M_ self) (d self)) (Ub self)).

Definition XlA_of (self : SupEmb R) : ndarray R :=
  vstack (XlA_pos self) (XlA_neg self).

Definition W2_of (self : SupEmb R) : ndarray R :=
  let n := (shape0 (XlA_pos self) + shape0 (XlA_neg self))%nat in
  fill (W2_assigned (lambda_2 self) (shape0 (XlA_pos self))
          (similarity (XlA_of self))
          (neighbours_of argsort (XlA_of self) (k2 self)))
       n n (zeros n n).

(** The array Q that get_embedding assembles. *)
Definition Q_of (self : SupEmb R) : ndarray R :=
  let W1 := tabulate (2 * M_ self) (2 * M_ self) (W1_entry (M_ self)) in
  let U1 := U1_of self in
  let Qright := matmul (matmul (transpose U1) (Laplacian W1)) U1 in
  let totA := vstack (Ua self) (A_ self) in
  let totB := vstack (Ub self) (B_ self) in
  let F2 := quadratic_form (Dinv (XlA_of self)) (XlA_of self) totA
              (Laplacian (W2_of self)) in
  let F3 := quadratic_form (Dinv (XuA self)) (XuA self) totA
              (Laplacian (similarity (XuA self))) in
  let F3_bar := quadratic_form (Dinv (XuB self)) (XuB self) totB
              (Laplacian (similarity (XuB self))) in
  let Q11 := difference (scale (w2 self) F2) (scale (w3 self) F3) in
  let Q12 := zeros (d self) (h self) in
  let Q22 := scale (- w3 self * lambda_2 self) F3_bar in
  let Qleft := vstack (hstack Q11 Q12) (hstack (transpose Q12) Q22) in
  difference Qleft Qright.

(** The three arrays that get_embedding hands to normalize (the stacked
    labelled rows, XuA and XuB) have a row and a column. *)
Definition instances_present (self : SupEmb R) : Prop :=
  (0 < shape0 (XlA_pos self) + shape0 (XlA_neg self))%nat /\
  (0 < shape1 (XlA_pos self))%nat /\
  (0 < shape0 (XuA self))%nat /\ (0 < shape1 (XuA self))%nat /\
  (0 < shape0 (XuB self))%nat /\ (0 < shape1 (XuB self))%nat.

(** The shapes get_embedding needs: the attributes the constructor sets,
    its six invariants, and two conditions that it does not check: the
    labelled rows have as many columns as [Ua; A] has rows, and the three
    arrays of instances are not empty. *)
Definition embedding_shapes (self : SupEmb R) : Prop :=
  M_ self = shape0 (Ua self) /\
  d self = shape1 (Ua self) /\
  h self = shape1 (Ub self) /\
  shape_invariants (Ua self) (Ub self) (A_ self) (B_ self)
    (XlA_pos self) (XlA_neg self) (XuA self) (XuB self) /\
  shape1 (XlA_pos self) = (shape0 (Ua self) + shape0 (A_ self))%nat /\
  instances_present self.

(** Some row total is zero and the mean of the row totals is zero. *)
Definition zero_total_zero_mean (W : ndarray R) : Prop :=
  exists i, (i < shape0 W)%nat /\ nth i (sum_axis1 W) 0 = 0 /\
            cast (dtype_of W) (mean (sum_axis1 W)) = 0.

Definition nonzero_total (W : ndarray R) : Prop :=
  exists i, (i < shape0 W)%nat /\ nth i (sum_axis1 W) 0 <> 0.

End RealVocabulary.


(** C8 as the specification words it, on binary64 arrays: get_Laplacian
    returns and each row of the result sums to zero. *)
Definition rows_sum_to_zero_as_stated (W : ndarray float) : Prop :=
  exists L : ndarray float,
    returns (get_Laplacian W) L /\
    forall i, i < shape0 W -> seqb (nth i (sum_axis1 L) s0) s0 = true.


(** C10 as the specification words it, on binary64 arrays: a labelled
    row with fewer than k2 other rows tied at S[i,i] is in its own
    neighbour set, and W2[i,i] = -lambda_2 * S[i,i]. *)
Definition self_loops_as_stated (self : SupEmb float) : Prop :=
  let n := shape0 (XlA_pos self) + shape0 (XlA_neg self) in
  forall (W2 : ndarray float) (self' : SupEmb float)
         (XlA0 S0 : ndarray float) (nb : list (list nat)),
    concatenate0 (XlA_pos self) (XlA_neg self) = ret XlA0 ->
    returns (get_kNNs argsort_ins XlA0 (k2 self)) (S0, nb) ->
    returns (get_W2 argsort_ins self) (W2, self') ->
    forall i, i < n ->
      (Z.of_nat (length (filter
                   (fun j => negb (Nat.eqb j i) &&
                             seqb (get S0 i j) (get S0 i i))
                   (seq 0 n))) < k2 self)%Z ->
      py_in i (nth i nb []) = true /\
      seqb (get W2 i i) (smul (sopp (lambda_2 self)) (get S0 i i)) = true.

(** * Instances *)


(** A binary64 array with the row totals (2^-1074, 0): their mean is
    below the smallest positive number and rounds to 0. *)
Definition W_tiny : ndarray float :=
  mk_ndarray 1 [[0x1p-1074%float]; [0%float]].



(** An int64 array of counts over the reals with the row totals (1, 0, 0). *)
Definition W_counts_exact : ndarray R :=
  mk_array 3 [[1%R; 0%R; 0%R]; [0%R; 0%R; 0%R]; [0%R; 0%R; 0%R]] int64.

(** A square binary64 array whose first row total, 2^53 + 1, is not a
    float. *)
Definition W_big : ndarray float :=
  mk_ndarray 2 [[0x1p53%float; 1%float]; [1%float; 1%float]].

Definition W_example : ndarray R :=
  mk_ndarray 2 [[1%R; 2%R]; [3%R; 4%R]].

(** Two equal rows. *)
Definition X_two : ndarray float := mk_ndarray 1 [[1%float]; [1%float]].

(** An array without rows, over two features. *)
Definition X_empty : ndarray float := mk_ndarray 2 [].

(** Three rows over two features. *)
Definition X_three : ndarray float :=
  mk_ndarray 2 [[1%float; 0%float]; [1%float; 1%float]; [0%float; 2%float]].

(** A small instance over the reals: M = 1, d = h = 1, two positive and one
    negative labelled row over two features. *)
Definition self_example : SupEmb R :=
  mk_SupEmb
    (mk_ndarray 1 [[1%R]]) (mk_ndarray 1 [[1%R]])
    (mk_ndarray 1 [[2%R]]) (mk_ndarray 1 [[3%R]])
    (mk_ndarray 2 [[1%R; 0%R]; [1%R; 1%R]]) (mk_ndarray 2 [[0%R; 1%R]])
    (mk_ndarray 2 [[1%R; 2%R]]) (mk_ndarray 2 [[2%R; 1%R]])
    1 1 1 1%R 1%R 1%R 1%R 1%R 5%Z 5%Z 5%Z 500 None None None None.

(** The same with three labelled rows of length 1, the first orthogonal
    to the other two, and k2 = 1. *)
Definition self_labelled : SupEmb R :=
  mk_SupEmb
    (mk_ndarray 1 [[1%R]]) (mk_ndarray 1 [[1%R]])
    (mk_ndarray 1 [[2%R]]) (mk_ndarray 1 [[3%R]])
    (mk_ndarray 2 [[1%R; 0%R]; [0%R; 1%R]]) (mk_ndarray 2 [[0%R; 1%R]])
    (mk_ndarray 2 [[1%R; 2%R]]) (mk_ndarray 2 [[2%R; 1%R]])
    1 1 1 1%R 1%R 1%R 1%R 1%R 1%Z 5%Z 5%Z 500 None None None None.

(** An instance with d = 2, h = 1 and dims = 1, and the symmetric
    Q = diag(3, 2, 1). *)
Definition self_proj : SupEmb R :=
  mk_SupEmb
    (mk_ndarray 2 [[1%R; 0%R]]) (mk_ndarray 1 [[1%R]])
    (mk_ndarray 2 [[0%R; 1%R]]) (mk_ndarray 1 [[1%R]])
    (mk_ndarray 2 [[1%R; 0%R]]) (mk_ndarray 2 [[0%R; 1%R]])
    (mk_ndarray 2 [[1%R; 2%R]]) (mk_ndarray 2 [[2%R; 1%R]])
    1 2 1 1%R 1%R 1%R 1%R 1%R 5%Z 5%Z 5%Z 1 None None None None.

Definition Q_diag : ndarray R :=
  mk_ndarray 3 [[3%R; 0%R; 0%R]; [0%R; 2%R; 0%R]; [0%R; 0%R; 1%R]].

(** A function to put in the place of sparsesvd where a property is tried
    on an input: for a diagonal array with a decreasing positive diagonal
    and k factors asked, the first k unit vectors and the first k diagonal
    entries, which are its k largest singular triples. *)
Definition svd_diagonal (Q : ndarray R) (k : nat)
  : M (ndarray R * list R * ndarray R) :=
  let e := tabulate k (shape0 Q)
             (fun i j => if Nat.eqb i j then 1%R else 0%R) in
  ret (e, map (fun i => get Q i i) (seq 0 k), e).

(** An input the constructor accepts, with M = 1, d = h = 1, whose two
    labelled rows are zero. *)
Definition one_by_one (x : float) : ndarray float := mk_ndarray 1 [[x]].

Definition zero_labelled : ndarray float := mk_ndarray 2 [[0%float; 0%float]].

Definition XuA_f : ndarray float :=
  mk_ndarray 2 [[1%float; 2%float]; [3%float; 1%float]].

Definition XuB_f : ndarray float :=
  mk_ndarray 2 [[2%float; 1%float]; [1%float; 5%float]].

(** The object the constructor returns for these arrays. *)
Definition self_zero_labelled : SupEmb float :=
  mk_SupEmb (one_by_one 1) (one_by_one 1) (one_by_one 2) (one_by_one 3)
    zero_labelled zero_labelled XuA_f XuB_f
    1 1 1 1%float 1%float 1%float 1%float 1%float 5%Z 5%Z 5%Z 500
    None None None None.

(** A run on labelled rows that are not zero: d = h = 2, and Q passes the
    symmetry check. *)
Definition self_regular : SupEmb float :=
  mk_SupEmb
    (mk_ndarray 2 [[1%float; 2%float]]) (mk_ndarray 2 [[1%float; 3%float]])
    (mk_ndarray 2 [[2%float; 0.5%float]]) (mk_ndarray 2 [[3%float; 0.25%float]])
    (mk_ndarray 2 [[1%float; 0%float]; [1%float; 1%float]])
    (mk_ndarray 2 [[0%float; 1%float]; [0.25%float; 0.75%float]])
    (mk_ndarray 2 [[1%float; 2%float]; [3%float; 1%float]; [0.5%float; 1%float]])
    (mk_ndarray 2 [[2%float; 1%float]; [1%float; 5%float]; [0.75%float; 0.5%float]])
    1 2 2 1%float 1%float 1%float 1%float 1%float 5%Z 5%Z 5%Z 500
    None None None None.

(** The same with the entries of Ua, Ub, A and B multiplied by 2^20. *)
Definition self_scaled : SupEmb float :=
  mk_SupEmb
    (mk_ndarray 2 [[1048576%float; 2097152%float]])
    (mk_ndarray 2 [[1048576%float; 3145728%float]])
    (mk_ndarray 2 [[2097152%float; 524288%float]])
    (mk_ndarray 2 [[3145728%float; 262144%float]])
    (mk_ndarray 2 [[1%float; 0%float]; [1%float; 1%float]])
    (mk_ndarray 2 [[0%float; 1%float]; [0.25%float; 0.75%float]])
    (mk_ndarray 2 [[1%float; 2%float]; [3%float; 1%float]; [0.5%float; 1%float]])
    (mk_ndarray 2 [[2%float; 1%float]; [1%float; 5%float]; [0.75%float; 0.5%float]])
    1 2 2 1%float 1%float 1%float 1%float 1%float 5%Z 5%Z 5%Z 500
    None None None None.

(** Two labelled rows, both (1, 0), one positive and one negative. *)
Definition self_two_labels : SupEmb float :=
  mk_SupEmb (one_by_one 1) (one_by_one 1) (one_by_one 2) (one_by_one 3)
    (mk_ndarray 2 [[1%float; 0%float]]) (mk_ndarray 2 [[1%float; 0%float]])
    XuA_f XuB_f
    1 1 1 1%float 1%float 1%float 1%float 1%float 5%Z 5%Z 5%Z 500
    None None None None.

(** The labelled rows (1, 1) and (3, 3), one positive and one negative,
    with k2 = 1. *)
Definition self_rounding : SupEmb float :=
  mk_SupEmb (one_by_one 1) (one_by_one 1) (one_by_one 2) (one_by_one 3)
    (mk_ndarray 2 [[1%float; 1%float]]) (mk_ndarray 2 [[3%float; 3%float]])
    XuA_f XuB_f
    1 1 1 1%float 1%float 1%float 1%float 1%float 1%Z 5%Z 5%Z 500
    None None None None.

(** An input the constructor accepts although its labelled rows have three
    columns while [Ua; A] has two rows. *)
Definition self_wide_labels : SupEmb R :=
  mk_SupEmb
    (mk_ndarray 1 [[1%R]]) (mk_ndarray 1 [[1%R]])
    (mk_ndarray 1 [[2%R]]) (mk_ndarray 1 [[3%R]])
    (mk_ndarray 3 [[1%R; 0%R; 1%R]]) (mk_ndarray 3 [[0%R; 1%R; 1%R]])
    (mk_ndarray 2 [[1%R; 2%R]]) (mk_ndarray 2 [[2%R; 1%R]])
    1 1 1 1%R 1%R 1%R 1%R 1%R 5%Z 5%Z 5%Z 500 None None None None.

(** * Properties *)

(** ** Arrays: shapes and entries *)

Section ArrayFacts.
Context {T : Type} `{Scalar T}.

Lemma nth_map_seq {X} (g : nat -> X) (n i : nat) (dflt : X) :
  i < n -> nth i (map g (seq 0 n)) dflt = g i.
Proof.
  intros Hi.
  rewrite (nth_indep _ dflt (g 0)) by (rewrite length_map, length_seq; exact Hi).
  rewrite map_nth, seq_nth by exact Hi. reflexivity.
Qed.

Lemma shape0_tabulate r c (f : nat -> nat -> T) : shape0 (tabulate r c f) = r.
Proof. unfold shape0, tabulate; simpl. now rewrite length_map, length_seq. Qed.

Lemma shape1_tabulate r c (f : nat -> nat -> T) : shape1 (tabulate r c f) = c.
Proof. reflexivity. Qed.

Lemma get_tabulate r c (f : nat -> nat -> T) i j :
  i < r -> j < c -> get (tabulate r c f) i j = f i j.
Proof.
  intros Hi Hj. unfold get, tabulate; simpl.
  rewrite nth_map_seq by exact Hi. now rewrite nth_map_seq.
Qed.

Lemma wf_tabulate r c (f : nat -> nat -> T) : wf (tabulate r c f).
Proof.
  unfold wf, tabulate; simpl. apply Forall_forall. intros x Hx.
  apply in_map_iff in Hx. destruct Hx as [i [<- _]].
  now rewrite length_map, length_seq.
Qed.

Lemma dtype_tabulate r c (f : nat -> nat -> T) :
  dtype_of (tabulate r c f) = float64.
Proof. reflexivity. Qed.

Lemma with_dtype_tabulate r c (f : nat -> nat -> T) :
  with_dtype float64 (tabulate r c f) = tabulate r c f.
Proof. reflexivity. Qed.

Lemma shape0_with_dtype dt (A : ndarray T) : shape0 (with_dtype dt A) = shape0 A.
Proof. reflexivity. Qed.

Lemma shape1_with_dtype dt (A : ndarray T) : shape1 (with_dtype dt A) = shape1 A.
Proof. reflexivity. Qed.

Lemma get_with_dtype dt (A : ndarray T) i j : get (with_dtype dt A) i j = get A i j.
Proof. reflexivity. Qed.

Lemma wf_with_dtype dt (A : ndarray T) : wf A -> wf (with_dtype dt A).
Proof. intros Hwf. exact Hwf. Qed.

Lemma dtype_with_dtype dt (A : ndarray T) : dtype_of (with_dtype dt A) = dt.
Proof. reflexivity. Qed.

Lemma result_type_float_l dt : result_type float64 dt = float64.
Proof. reflexivity. Qed.

Lemma result_type_float_r dt : result_type dt float64 = float64.
Proof. now destruct dt. Qed.

Lemma result_type_idem dt : result_type dt dt = dt.
Proof. now destruct dt. Qed.

Lemma length_set_nth {X} (l : list X) n v : length (set_nth l n v) = length l.
Proof. revert n; induction l; intros [|n]; simpl; auto. Qed.

Lemma nth_set_nth {X} (l : list X) n m v dflt :
  nth m (set_nth l n v) dflt =
  if Nat.eqb m n && Nat.ltb n (length l) then v else nth m l dflt.
Proof.
  revert n m; induction l as [|a l IH]; intros [|n] [|m]; simpl; auto;
    try (now destruct (Nat.eqb m n)).
Qed.

Lemma shape0_set (A : ndarray T) i j v : shape0 (set A i j v) = shape0 A.
Proof. unfold shape0, set; simpl. apply length_set_nth. Qed.

Lemma shape1_set (A : ndarray T) i j v : shape1 (set A i j v) = shape1 A.
Proof. reflexivity. Qed.

Lemma get_set (A : ndarray T) i j v a b :
  wf A -> i < shape0 A -> j < shape1 A ->
  get (set A i j v) a b = if Nat.eqb a i && Nat.eqb b j then v else get A a b.
Proof.
  intros Hwf Hi Hj. unfold get, set; simpl.
  rewrite nth_set_nth.
  assert (Hlen : length (nth i (rows A) []) = ncols A).
  { unfold wf in Hwf. rewrite Forall_forall in Hwf. apply Hwf.
    apply nth_In. exact Hi. }
  destruct (Nat.eqb_spec a i) as [->|Hne]; simpl.
  - apply Nat.ltb_lt in Hi. unfold shape0 in Hi. rewrite Hi.
    rewrite nth_set_nth, Hlen.
    apply Nat.ltb_lt in Hj. unfold shape1 in Hj. rewrite Hj.
    now rewrite andb_true_r.
  - reflexivity.
Qed.

Lemma wf_set (A : ndarray T) i j v : wf A -> wf (set A i j v).
Proof.
  unfold wf, set; simpl. intros Hwf.
  apply Forall_forall. intros x Hx.
  apply In_nth with (d := []) in Hx. destruct Hx as [m [Hm <-]].
  rewrite length_set_nth in Hm. rewrite nth_set_nth.
  rewrite Forall_forall in Hwf.
  destruct (Nat.eqb m i && Nat.ltb i (length (rows A))) eqn:E.
  - rewrite length_set_nth. apply andb_prop in E. destruct E as [_ E].
    apply Nat.ltb_lt in E. apply Hwf. now apply nth_In.
  - apply Hwf. now apply nth_In.
Qed.
End ArrayFacts.

(** ** Construction: the shape invariants *)

Section Construction.
Context {T : Type} `{Scalar T}.

Lemma init_cases (Ua Ub A B XlA_pos XlA_neg XuA XuB : ndarray T) :
  (shape_invariants Ua Ub A B XlA_pos XlA_neg XuA XuB /\
   init Ua Ub A B XlA_pos XlA_neg XuA XuB =
     ret (mk_SupEmb Ua Ub A B XlA_pos XlA_neg XuA XuB
            (shape0 Ua) (shape1 Ua) (shape1 Ub)
            s1 s1 s1 s1 s1 5%Z 5%Z 5%Z 500 None None None None)) \/
  (~ shape_invariants Ua Ub A B XlA_pos XlA_neg XuA XuB /\
   init Ua Ub A B XlA_pos XlA_neg XuA XuB = raise AssertionError).
Proof.
  unfold shape_invariants, init, py_assert.
  destruct (Nat.eqb_spec (shape0 Ua) (shape0 Ub));
    [|right; split; [tauto | reflexivity]].
  destruct (Nat.eqb_spec (shape1 Ub) (shape1 B));
    [|right; split; [tauto | reflexivity]].
  destruct (Nat.eqb_spec (shape1 Ua) (shape1 A));
    [|right; split; [tauto | reflexivity]].
  destruct (Nat.eqb_spec (shape1 XlA_pos) (shape1 XlA_neg));
    [|right; split; [tauto | reflexivity]].
  destruct (Nat.eqb_spec (shape0 Ua + shape0 A) (shape1 XuA));
    [|right; split; [intros (_ & _ & _ & _ & E & _); congruence | reflexivity]].
  destruct (Nat.eqb_spec (shape0 Ub + shape0 B) (shape1 XuB));
    [|right; split; [intros (_ & _ & _ & _ & _ & E); congruence | reflexivity]].
  left. split; [repeat split; congruence | reflexivity].
Qed.

(** C7. Constructing a SupEmb fails, with an AssertionError and before
    anything is computed (no warning has been emitted, no attribute of
    the embedding run is set), exactly when one of the six shape
    invariants is violated; when all hold the constructor returns the
    object with the default parameters. *)
Theorem init_fails_iff_invariant_violated
    (Ua Ub A B XlA_pos XlA_neg XuA XuB : ndarray T) :
  ((exists e, raises (init Ua Ub A B XlA_pos XlA_neg XuA XuB) e) <->
     ~ shape_invariants Ua Ub A B XlA_pos XlA_neg XuA XuB) /\
  (forall e, raises (init Ua Ub A B XlA_pos XlA_neg XuA XuB) e ->
     e = AssertionError) /\
  warnings (init Ua Ub A B XlA_pos XlA_neg XuA XuB) = [] /\
  (shape_invariants Ua Ub A B XlA_pos XlA_neg XuA XuB ->
     exists self, returns (init Ua Ub A B XlA_pos XlA_neg XuA XuB) self /\
       XlA self = None /\ Y self = None /\
       M_ self = shape0 Ua /\ d self = shape1 Ua /\ h self = shape1 Ub).
Proof.
  destruct (init_cases Ua Ub A B XlA_pos XlA_neg XuA XuB) as [[Hi E]|[Hn E]];
    rewrite E; unfold raises, returns, warnings, ret, raise; simpl.
  - repeat split.
    + intros [e He]. discriminate.
    + intros Hc. contradiction.
    + intros e He. discriminate.
    + intros _. eexists. repeat split.
  - repeat split.
    + intros _. exact Hn.
    + intros _. now exists AssertionError.
    + intros e He. congruence.
    + intros Hc. contradiction.
Qed.
End Construction.

(** ** Arrays: equality from entries *)

Section ArrayExt.
Context {T : Type} `{Scalar T}.

Lemma map_seq_ext {X} (f g : nat -> X) (a n : nat) :
  (forall i, a <= i < a + n -> f i = g i) ->
  map f (seq a n) = map g (seq a n).
Proof.
  intros E. apply map_ext_in. intros i Hi. apply in_seq in Hi. now apply E.
Qed.

Lemma tabulate_ext r c (f g : nat -> nat -> T) :
  (forall i j, i < r -> j < c -> f i j = g i j) ->
  tabulate r c f = tabulate r c g.
Proof.
  intros E. unfold tabulate. f_equal.
  apply map_seq_ext. intros i Hi. apply map_seq_ext. intros j Hj.
  apply E; lia.
Qed.

Lemma row_tabulate r c (f : nat -> nat -> T) i :
  i < r -> nth i (rows (tabulate r c f)) [] = map (f i) (seq 0 c).
Proof. intros Hi. unfold tabulate; simpl. now rewrite nth_map_seq. Qed.

Lemma list_eq_map_nth {X} (l : list X) (dflt : X) :
  l = map (fun i => nth i l dflt) (seq 0 (length l)).
Proof.
  apply nth_ext with (d := dflt) (d' := dflt).
  - now rewrite length_map, length_seq.
  - intros n Hn. now rewrite nth_map_seq.
Qed.

(** A well-formed array is the table of its entries. *)
Lemma tabulate_get (A : ndarray T) :
  wf A -> A = with_dtype (dtype_of A) (tabulate (shape0 A) (shape1 A) (get A)).
Proof.
  intros Hwf. destruct A as [c rs dt].
  unfold with_dtype, tabulate, shape0, shape1, get, wf in *.
  simpl in *. f_equal.
  rewrite (list_eq_map_nth rs []) at 1.
  apply map_seq_ext. intros i Hi. simpl in Hi.
  rewrite Forall_forall in Hwf.
  assert (Hl : length (nth i rs []) = c) by (apply Hwf, nth_In; lia).
  rewrite (list_eq_map_nth (nth i rs []) s0) at 1. now rewrite Hl.
Qed.

Lemma ndarray_ext (A B : ndarray T) :
  wf A -> wf B -> shape A = shape B -> dtype_of A = dtype_of B ->
  (forall i j, i < shape0 A -> j < shape1 A -> get A i j = get B i j) ->
  A = B.
Proof.
  intros HA HB Hs Hd E. unfold shape in Hs. injection Hs as H0 H1.
  rewrite (tabulate_get HA), (tabulate_get HB), <- H0, <- H1, Hd.
  f_equal. now apply tabulate_ext.
Qed.

Lemma transpose_tabulate n (f : nat -> nat -> T) :
  (forall i j, i < n -> j < n -> f i j = f j i) ->
  transpose (tabulate n n f) = tabulate n n f.
Proof.
  intros Hs. unfold transpose. rewrite shape0_tabulate, shape1_tabulate.
  apply tabulate_ext. intros i j Hi Hj. rewrite get_tabulate by assumption.
  now apply Hs.
Qed.
End ArrayExt.

(** ** Rule 1: get_W1 *)

Section RuleOne.
Context {T : Type} `{Scalar T}.

Lemma seq_shift_add a n : seq a n = map (fun i => a + i) (seq 0 n).
Proof.
  revert a; induction n as [|n IH]; intros a; simpl; [reflexivity|].
  rewrite Nat.add_0_r. f_equal. rewrite (IH (S a)), <- seq_shift, map_map.
  apply map_ext. intros i. lia.
Qed.

Lemma stack_tabulate r1 r2 c (f g : nat -> nat -> T) :
  mk_array c (rows (tabulate r1 c f) ++ rows (tabulate r2 c g)) float64 =
  tabulate (r1 + r2) c (fun i j => if Nat.ltb i r1 then f i j else g (i - r1) j).
Proof.
  unfold tabulate; cbn [ncols rows]. f_equal.
  rewrite (seq_app r1 r2 0), map_app. f_equal.
  - apply map_seq_ext. intros i Hi.
    destruct (Nat.ltb_spec i r1); [reflexivity | lia].
  - simpl. rewrite (seq_shift_add r1 r2), map_map.
    apply map_seq_ext. intros i Hi.
    destruct (Nat.ltb_spec (r1 + i) r1); [lia|].
    now replace (r1 + i - r1) with i by lia.
Qed.

Lemma get_W1_table (M0 : nat) :
  get_W1 M0 = ret (tabulate (2 * M0) (2 * M0) (W1_entry M0)).
Proof.
  unfold get_W1, concatenate1, concatenate0, zeros, eye.
  rewrite !shape0_tabulate, !shape1_tabulate, Nat.eqb_refl.
  rewrite !dtype_tabulate. cbn [result_type]. rewrite !with_dtype_tabulate.
  cbn [bind ret].
  rewrite !shape1_tabulate, Nat.eqb_refl. cbn [bind ret app].
  rewrite !dtype_tabulate. cbn [result_type].
  unfold ret. f_equal.
  change (ncols (tabulate M0 (M0 + M0) ?f)) with (M0 + M0).
  rewrite stack_tabulate.
  replace (2 * M0) with (M0 + M0) by lia. f_equal.
  apply tabulate_ext. intros i j Hi Hj. unfold W1_entry.
  destruct (Nat.ltb_spec i M0), (Nat.ltb_spec j M0);
    rewrite get_tabulate by lia;
    repeat match goal with
           | |- context [Nat.eqb ?a ?b] => destruct (Nat.eqb_spec a b)
           end; simpl; try reflexivity; lia.
Qed.
End RuleOne.

Section Counting.
Lemma filter_nil {X} (P : X -> bool) (l : list X) :
  (forall x, In x l -> P x = false) -> filter P l = [].
Proof.
  induction l as [|a l IH]; intros E; simpl; [reflexivity|].
  rewrite (E a) by now left. apply IH. intros x Hx. apply E. now right.
Qed.

(** A row with exactly one entry that passes the test. *)
Lemma count_single {X} (P : X -> bool) (g : nat -> X) (n p : nat) :
  p < n -> P (g p) = true ->
  (forall j, j < n -> j <> p -> P (g j) = false) ->
  length (filter P (map g (seq 0 n))) = 1.
Proof.
  intros Hp Ht Hf.
  replace n with (p + S (n - S p)) by lia.
  rewrite seq_app, map_app, filter_app. simpl. rewrite Ht.
  rewrite !filter_nil; [reflexivity| |].
  - intros x Hx. apply in_map_iff in Hx. destruct Hx as [j [<- Hj]].
    apply in_seq in Hj. apply Hf; lia.
  - intros x Hx. apply in_map_iff in Hx. destruct Hx as [j [<- Hj]].
    apply in_seq in Hj. apply Hf; lia.
Qed.

Lemma list_sum_const {X} (f : X -> nat) (l : list X) (c : nat) :
  (forall x, In x l -> f x = c) -> list_sum (map f l) = c * length l.
Proof.
  induction l as [|a l IH]; intros E; simpl; [lia|].
  rewrite (E a) by now left. rewrite IH; [lia|].
  intros x Hx. apply E. now right.
Qed.
End Counting.

Lemma Reqb_true (x y : R) : Reqb x y = true <-> x = y.
Proof. unfold Reqb. destruct (Req_dec_T x y); split; congruence. Qed.

Lemma Reqb_false (x y : R) : Reqb x y = false <-> x <> y.
Proof. unfold Reqb. destruct (Req_dec_T x y); split; congruence. Qed.

Lemma Reqb_refl (x : R) : Reqb x x = true.
Proof. now apply Reqb_true. Qed.

Lemma Reqb_1_0 : Reqb 1 0 = false.
Proof. apply Reqb_false. lra. Qed.

(** C9. For every M, get_W1(M) returns a 2M x 2M array that equals its
    transpose, has the block form [[O, I], [I, O]] with M x M blocks, and
    has exactly 2M nonzero entries, each equal to 1. *)
Theorem get_W1_block_form (M0 : nat) :
  exists W1 : ndarray R,
    get_W1 M0 = ret W1 /\
    shape W1 = (2 * M0, 2 * M0) /\
    wf W1 /\
    transpose W1 = W1 /\
    (forall i j, i < M0 -> j < M0 ->
       get W1 i j = 0%R /\
       get W1 i (M0 + j) = get (eye M0) i j /\
       get W1 (M0 + i) j = get (eye M0) i j /\
       get W1 (M0 + i) (M0 + j) = 0%R) /\
    count_nonzero2 W1 = 2 * M0 /\
    (forall i j, i < 2 * M0 -> j < 2 * M0 ->
       get W1 i j <> 0%R -> get W1 i j = 1%R).
Proof.
  exists (tabulate (2 * M0) (2 * M0) (W1_entry M0)).
  split; [apply get_W1_table|].
  split; [unfold shape; now rewrite shape0_tabulate, shape1_tabulate|].
  split; [apply wf_tabulate|].
  split.
  { apply transpose_tabulate. intros i j _ _. unfold W1_entry.
    now rewrite orb_comm. }
  split.
  { intros i j Hi Hj. unfold eye.
    rewrite !get_tabulate by lia. unfold W1_entry.
    repeat match goal with
           | |- context [Nat.eqb ?a ?b] => destruct (Nat.eqb_spec a b)
           end; simpl; repeat split; try reflexivity; lia. }
  split.
  { unfold count_nonzero2, tabulate; cbn [rows].
    rewrite list_sum_const with (c := 1).
    - rewrite length_map, length_seq. lia.
    - intros r Hr. apply in_map_iff in Hr. destruct Hr as [i [<- Hi]].
      apply in_seq in Hi. unfold count_nonzero.
      apply count_single with (p := if Nat.ltb i M0 then M0 + i else i - M0).
      + destruct (Nat.ltb_spec i M0); lia.
      + unfold W1_entry.
        destruct (Nat.ltb_spec i M0).
        * rewrite Nat.eqb_refl. simpl. now rewrite Reqb_1_0.
        * replace (Nat.eqb i (M0 + (i - M0))) with true
            by (symmetry; apply Nat.eqb_eq; lia).
          rewrite orb_true_r. simpl. now rewrite Reqb_1_0.
      + intros j Hj Hne. unfold W1_entry.
        destruct (Nat.ltb_spec i M0);
          destruct (Nat.eqb_spec j (M0 + i)), (Nat.eqb_spec i (M0 + j));
          simpl; try lia; now rewrite Reqb_refl. }
  intros i j Hi Hj. rewrite get_tabulate by assumption. unfold W1_entry.
  destruct (_ || _); simpl; intros Hn; [reflexivity | now contradiction Hn].
Qed.

(** ** Sums of reals *)

Section RealSums.
Open Scope R_scope.

Lemma ssum_R_acc (l : list R) (a : R) :
  fold_left Rplus l a = a + fold_left Rplus l 0.
Proof.
  revert a; induction l as [|x l IH]; intros a; simpl; [lra|].
  rewrite (IH (a + x)), (IH (0 + x)). lra.
Qed.

Lemma ssum_nil : @ssum R _ [] = 0.
Proof. reflexivity. Qed.

Lemma ssum_cons (x : R) (l : list R) : ssum (x :: l) = x + ssum l.
Proof. unfold ssum; simpl. rewrite ssum_R_acc. lra. Qed.

Lemma ssum_app (l1 l2 : list R) : ssum (l1 ++ l2) = ssum l1 + ssum l2.
Proof.
  induction l1 as [|x l1 IH]; simpl.
  - rewrite ssum_nil. lra.
  - rewrite !ssum_cons, IH. lra.
Qed.

Lemma ssum_map_sub {X} (f g : X -> R) (l : list X) :
  ssum (map (fun k => f k - g k) l) = ssum (map f l) - ssum (map g l).
Proof.
  induction l as [|x l IH]; simpl.
  - rewrite ssum_nil. lra.
  - rewrite !ssum_cons, IH. lra.
Qed.

Lemma ssum_map_add {X} (f g : X -> R) (l : list X) :
  ssum (map (fun k => f k + g k) l) = ssum (map f l) + ssum (map g l).
Proof.
  induction l as [|x l IH]; simpl.
  - rewrite ssum_nil. lra.
  - rewrite !ssum_cons, IH. lra.
Qed.

Lemma ssum_map_mul_l {X} (c : R) (f : X -> R) (l : list X) :
  ssum (map (fun k => c * f k) l) = c * ssum (map f l).
Proof.
  induction l as [|x l IH]; simpl.
  - rewrite ssum_nil. lra.
  - rewrite !ssum_cons, IH. lra.
Qed.

Lemma ssum_map_mul_r {X} (c : R) (f : X -> R) (l : list X) :
  ssum (map (fun k => f k * c) l) = ssum (map f l) * c.
Proof.
  induction l as [|x l IH]; simpl.
  - rewrite ssum_nil. lra.
  - rewrite !ssum_cons, IH. lra.
Qed.

Lemma ssum_map_zero {X} (f : X -> R) (l : list X) :
  (forall x, In x l -> f x = 0) -> ssum (map f l) = 0.
Proof.
  induction l as [|x l IH]; intros E; simpl; [apply ssum_nil|].
  rewrite ssum_cons, (E x) by now left.
  rewrite IH; [lra|]. intros y Hy. apply E. now right.
Qed.

Lemma ssum_map_ext {X} (f g : X -> R) (l : list X) :
  (forall x, In x l -> f x = g x) -> ssum (map f l) = ssum (map g l).
Proof. intros E. f_equal. now apply map_ext_in. Qed.

(** A sum with one nonzero term. *)
Lemma ssum_delta (c : R) (p n : nat) :
  (p < n)%nat ->
  ssum (map (fun j => if Nat.eqb p j then c else 0) (seq 0 n)) = c.
Proof.
  intros Hp. replace n with (p + S (n - S p))%nat by lia.
  rewrite seq_app, map_app, ssum_app. simpl.
  rewrite ssum_cons, Nat.eqb_refl.
  rewrite !ssum_map_zero; [lra| |].
  - intros j Hj. apply in_seq in Hj.
    destruct (Nat.eqb_spec p j); [lia | reflexivity].
  - intros j Hj. apply in_seq in Hj.
    destruct (Nat.eqb_spec p j); [lia | reflexivity].
Qed.

(** Exchange of two finite sums. *)
Lemma ssum_exchange {X Y} (f : X -> Y -> R) (l1 : list X) (l2 : list Y) :
  ssum (map (fun i => ssum (map (f i) l2)) l1) =
  ssum (map (fun j => ssum (map (fun i => f i j) l1)) l2).
Proof.
  induction l1 as [|x l1 IH]; simpl.
  - rewrite ssum_nil. symmetry. now apply ssum_map_zero.
  - rewrite ssum_cons, IH.
    rewrite <- ssum_map_add. apply ssum_map_ext. intros j _.
    now rewrite ssum_cons.
Qed.
End RealSums.

(** ** The Laplacian *)

Section Laplacian.
Open Scope R_scope.

Lemma length_sum_axis1 {T} `{Scalar T} (W : ndarray T) :
  length (sum_axis1 W) = shape0 W.
Proof. unfold sum_axis1. now rewrite length_map, length_seq. Qed.

Lemma nth_sum_axis1 {T} `{Scalar T} (W : ndarray T) i :
  (i < shape0 W)%nat ->
  nth i (sum_axis1 W) s0 = ssum (map (get W i) (seq 0 (shape1 W))).
Proof. intros Hi. unfold sum_axis1. now rewrite nth_map_seq. Qed.

Lemma broadcast_refl n : broadcast n n = Some n.
Proof. unfold broadcast. now rewrite Nat.eqb_refl. Qed.

Lemma bget_get {T} `{Scalar T} (A : ndarray T) i j :
  (i < shape0 A)%nat -> (j < shape1 A)%nat -> bget A i j = get A i j.
Proof.
  intros Hi Hj. unfold bget.
  destruct (Nat.eqb_spec (shape0 A) 1), (Nat.eqb_spec (shape1 A) 1);
    f_equal; lia.
Qed.

Lemma get_Laplacian_table {T} `{Scalar T} (W : ndarray T) :
  shape0 W = shape1 W ->
  get_Laplacian W = ret (Laplacian W).
Proof.
  intros Hsq. unfold get_Laplacian, subtract, diag, Laplacian.
  rewrite shape0_with_dtype, shape1_with_dtype.
  rewrite shape0_tabulate, shape1_tabulate, length_sum_axis1, <- Hsq.
  rewrite broadcast_refl. cbn [bind ret]. unfold ret. f_equal. f_equal.
  rewrite dtype_with_dtype, result_type_idem. f_equal.
  apply tabulate_ext. intros i j Hi Hj. unfold Laplacian_entry.
  rewrite !bget_get;
    rewrite ?shape0_with_dtype, ?shape1_with_dtype,
            ?shape0_tabulate, ?shape1_tabulate; try lia.
  rewrite get_with_dtype, get_tabulate by assumption. reflexivity.
Qed.

Lemma shape0_Laplacian {T} `{Scalar T} (W : ndarray T) :
  shape0 (Laplacian W) = shape0 W.
Proof. unfold Laplacian. now rewrite shape0_with_dtype, shape0_tabulate. Qed.

Lemma shape1_Laplacian {T} `{Scalar T} (W : ndarray T) :
  shape1 (Laplacian W) = shape0 W.
Proof. reflexivity. Qed.

Lemma get_Laplacian_entry {T} `{Scalar T} (W : ndarray T) i j :
  (i < shape0 W)%nat -> (j < shape0 W)%nat ->
  get (Laplacian W) i j = Laplacian_entry W i j.
Proof.
  intros Hi Hj. unfold Laplacian.
  now rewrite get_with_dtype, get_tabulate.
Qed.

Lemma wf_Laplacian {T} `{Scalar T} (W : ndarray T) : wf (Laplacian W).
Proof. unfold Laplacian. apply wf_with_dtype, wf_tabulate. Qed.

(** C8, as the code has it.  For every square W, of either dtype and in
    either arithmetic, get_Laplacian(W) returns W - diag(rowsum(W)), an
    array of the shape of W: L[i,j] = W[i,j] - D[i,j], where D[i,i] is the
    row total as numpy.sum gives it and D[i,j] = 0 elsewhere.  In exact
    arithmetic each row of L sums to zero. *)
Theorem get_Laplacian_rows_sum_to_zero :
  (forall (T : Type) (HS : Scalar T) (W : ndarray T),
     shape0 W = shape1 W ->
     exists L : ndarray T,
       get_Laplacian W = ret L /\
       subtract W (with_dtype (dtype_of W) (diag (sum_axis1 W))) = ret L /\
       shape L = shape W /\
       forall i j, (i < shape0 W)%nat -> (j < shape1 W)%nat ->
         get L i j = ssub (get W i j) (get (diag (sum_axis1 W)) i j)) /\
  (forall W : ndarray R,
     shape0 W = shape1 W ->
     exists L : ndarray R,
       get_Laplacian W = ret L /\
       forall i, (i < shape0 W)%nat -> nth i (sum_axis1 L) 0 = 0).
Proof.
  split.
  - intros T HS W Hsq. exists (Laplacian W).
    assert (E := get_Laplacian_table W Hsq).
    split; [exact E|].
    split.
    { unfold get_Laplacian in E.
      destruct (subtract W (with_dtype (dtype_of W) (diag (sum_axis1 W))))
        as [[e|L] l]; cbn in E; [discriminate|].
      unfold ret in *. injection E as E1 E2. rewrite app_nil_r in E2.
      now subst. }
    split.
    { unfold shape. now rewrite shape0_Laplacian, shape1_Laplacian, Hsq. }
    intros i j Hi Hj. rewrite get_Laplacian_entry by lia.
    unfold diag. rewrite length_sum_axis1.
    rewrite get_tabulate by lia. reflexivity.
  - intros W Hsq. exists (Laplacian W).
    split; [exact (get_Laplacian_table W Hsq)|].
    intros i Hi.
    change 0 with (@s0 R _) at 1.
    rewrite nth_sum_axis1 by (now rewrite shape0_Laplacian).
    rewrite shape1_Laplacian.
    rewrite ssum_map_ext with (g := fun j =>
      get W i j - (if Nat.eqb i j then nth i (sum_axis1 W) 0 else 0)).
    + rewrite ssum_map_sub, ssum_delta by assumption.
      change 0 with (@s0 R _). rewrite nth_sum_axis1 by assumption.
      rewrite <- Hsq. cbn. lra.
    + intros j Hj. apply in_seq in Hj.
      now rewrite get_Laplacian_entry by lia.
Qed.

Lemma get_Laplacian_rows_sum_to_zero_witness :
  exists L : ndarray R,
    get_Laplacian W_example = ret L /\
    forall i, (i < shape0 W_example)%nat -> nth i (sum_axis1 L) 0 = 0.
Proof.
  exact (proj2 get_Laplacian_rows_sum_to_zero W_example eq_refl).
Defined.

(** In binary64 the row (2^53, 1) has the total 2^53, and the row of the
    Laplacian, (0, 1), sums to 1. *)
Lemma get_Laplacian_rows_sum_to_zero_counterexample :
  shape0 W_big = shape1 W_big /\ ~ rows_sum_to_zero_as_stated W_big.
Proof.
  split; [reflexivity|].
  intros (L & E & Hz). unfold returns in E. vm_compute in E.
  injection E as <-. specialize (Hz 0%nat). vm_compute in Hz.
  assert (Hf : false = true) by (apply Hz; lia). discriminate.
Qed.
End Laplacian.

(** ** The two nested loops that fill a weight array *)

Section Loops.
Context {T : Type} `{Scalar T}.

Lemma sized_zeros n m : sized n m (zeros n m).
Proof.
  unfold sized, zeros. split; [apply wf_tabulate|].
  now rewrite shape0_tabulate, shape1_tabulate.
Qed.

Lemma sized_assign (g : nat -> nat -> option T) n m i j (W : ndarray T) :
  sized n m W -> sized n m (assign g i j W).
Proof.
  intros (Hwf & H0 & H1). unfold assign. destruct (g i j); [|now repeat split].
  repeat split; [now apply wf_set | now rewrite shape0_set | now rewrite shape1_set].
Qed.

Lemma get_assign (g : nat -> nat -> option T) n m i j (W : ndarray T) a b :
  sized n m W -> i < n -> j < m ->
  get (assign g i j W) a b =
  if Nat.eqb a i && Nat.eqb b j
  then match g i j with Some v => v | None => get W a b end
  else get W a b.
Proof.
  intros (Hwf & H0 & H1) Hi Hj. unfold assign. destruct (g i j).
  - apply get_set; [assumption | lia | lia].
  - now destruct (_ && _).
Qed.

Lemma inner_loop (g : nat -> nat -> option T) n m i (l : list nat)
    (W : ndarray T) :
  sized n m W -> i < n -> (forall j, In j l -> j < m) ->
  let W' := fold_left (fun W j => assign g i j W) l W in
  sized n m W' /\
  forall a b, get W' a b =
    if Nat.eqb a i && existsb (Nat.eqb b) l
    then match g i b with Some v => v | None => get W a b end
    else get W a b.
Proof.
  revert W. induction l as [|j l IH]; intros W HW Hi Hl; simpl.
  - split; [assumption|]. intros a b. now rewrite andb_false_r.
  - destruct (IH (assign g i j W)) as [Hs Hg].
    + now apply sized_assign.
    + assumption.
    + intros j' Hj'. apply Hl. now right.
    + split; [exact Hs|]. intros a b. rewrite Hg.
      rewrite (@get_assign g n m i j W a b) by (auto; apply Hl; now left).
      destruct (Nat.eqb_spec a i) as [->|]; simpl; [|reflexivity].
      destruct (Nat.eqb_spec b j) as [->|]; simpl.
      * destruct (existsb _ l); now destruct (g i j).
      * reflexivity.
Qed.

Lemma existsb_seq b n : existsb (Nat.eqb b) (seq 0 n) = Nat.ltb b n.
Proof.
  destruct (Nat.ltb_spec b n) as [Hb|Hb].
  - apply existsb_exists. exists b. split; [apply in_seq; lia | apply Nat.eqb_refl].
  - destruct (existsb _ _) eqn:E; [|reflexivity].
    apply existsb_exists in E. destruct E as [x [Hx E]].
    apply in_seq in Hx. apply Nat.eqb_eq in E. lia.
Qed.

Lemma outer_loop (g : nat -> nat -> option T) n m (l : list nat)
    (W : ndarray T) :
  sized n m W -> (forall i, In i l -> i < n) ->
  let W' := fold_left
              (fun W i => for_range m (fun j W => assign g i j W) W) l W in
  sized n m W' /\
  forall a b, get W' a b =
    if existsb (Nat.eqb a) l && Nat.ltb b m
    then match g a b with Some v => v | None => get W a b end
    else get W a b.
Proof.
  revert W. induction l as [|i l IH]; intros W HW Hl; simpl.
  - split; [assumption | reflexivity].
  - unfold for_range at 2.
    destruct (@inner_loop g n m i (seq 0 m) W) as [Hs Hg]; auto.
    { apply Hl. now left. }
    { intros j Hj. apply in_seq in Hj. lia. }
    destruct (IH (fold_left (fun W j => assign g i j W) (seq 0 m) W)) as [Hs' Hg'];
      auto.
    { intros i' Hi'. apply Hl. now right. }
    split; [exact Hs'|]. intros a b. rewrite Hg', !Hg, existsb_seq.
    destruct (Nat.eqb_spec a i) as [->|]; simpl.
    + destruct (Nat.ltb b m); simpl.
      * rewrite andb_true_r. destruct (existsb _ l); now destruct (g i b).
      * now rewrite andb_false_r.
    + reflexivity.
Qed.

(** After the loops, entry (a,b) holds what the body assigned to it, and
    the initial value where the body assigned nothing. *)
Lemma get_fill (g : nat -> nat -> option T) n m (W : ndarray T) a b :
  sized n m W -> a < n -> b < m ->
  get (fill g n m W) a b =
  match g a b with Some v => v | None => get W a b end.
Proof.
  intros HW Ha Hb. unfold fill, for_range at 1.
  destruct (@outer_loop g n m (seq 0 n) W) as [_ Hg]; auto.
  { intros i Hi. apply in_seq in Hi. lia. }
  rewrite Hg, existsb_seq.
  apply Nat.ltb_lt in Ha, Hb. now rewrite Ha, Hb.
Qed.

Lemma sized_fill (g : nat -> nat -> option T) n m (W : ndarray T) :
  sized n m W -> sized n m (fill g n m W).
Proof.
  intros HW. unfold fill, for_range at 1.
  destruct (@outer_loop g n m (seq 0 n) W) as [Hs _]; auto.
  intros i Hi. apply in_seq in Hi. lia.
Qed.
End Loops.

(** ** The kNN engine: what get_kNNs returns *)

Section KNN.
Context {T : Type} `{Scalar T}.
Variable argsort : list T -> list nat.

Lemma for_range_append {X} (f : nat -> X) (n : nat) :
  for_range n (fun i nb => nb ++ [f i]) [] = map f (seq 0 n).
Proof.
  unfold for_range.
  assert (G : forall l acc,
             fold_left (fun s i => s ++ [f i]) l acc = acc ++ map f l).
  { induction l as [|a l IH]; intros acc; simpl.
    - now rewrite app_nil_r.
    - rewrite IH, <- app_assoc. reflexivity. }
  apply G.
Qed.

Lemma for_range_ext {St} (f g : nat -> St -> St) (n : nat) (s : St) :
  (forall i s, i < n -> f i s = g i s) -> for_range n f s = for_range n g s.
Proof.
  intros E. unfold for_range.
  assert (G : forall l s, (forall i, In i l -> i < n) ->
             fold_left (fun s i => f i s) l s = fold_left (fun s i => g i s) l s).
  { induction l as [|a l IH]; intros s' Hl; simpl; [reflexivity|].
    rewrite E by (apply Hl; now left). apply IH. intros i Hi. apply Hl. now right. }
  apply G. intros i Hi. apply in_seq in Hi. lia.
Qed.

Lemma check_array_accepted (A : ndarray T) :
  accepted A -> check_array A = ret tt.
Proof.
  intros (H0 & H1 & Hf). unfold check_array. rewrite Hf.
  destruct (Nat.eqb_spec (shape0 A) 0); [lia|].
  destruct (Nat.eqb_spec (shape1 A) 0); [lia|]. reflexivity.
Qed.

Lemma check_array_refused (A : ndarray T) :
  ~ accepted A -> check_array A = raise ValueError.
Proof.
  intros Hn. unfold check_array.
  destruct (Nat.eqb_spec (shape0 A) 0); [reflexivity|].
  destruct (Nat.eqb_spec (shape1 A) 0); [reflexivity|].
  destruct (forallb (forallb sfinite) (rows A)) eqn:Hf; [|reflexivity].
  exfalso. apply Hn. repeat split; [lia | lia | exact Hf].
Qed.

Lemma accepted_dec (A : ndarray T) : accepted A \/ ~ accepted A.
Proof.
  unfold accepted.
  destruct (Nat.eq_dec (shape0 A) 0); [right; lia|].
  destruct (Nat.eq_dec (shape1 A) 0); [right; lia|].
  destruct (forallb (forallb sfinite) (rows A)).
  - left. repeat split; lia.
  - right. intros (_ & _ & E). discriminate.
Qed.

Lemma normalize_accepted (A : ndarray T) :
  accepted A -> normalize A = ret (scaled_rows A).
Proof.
  intros HA. unfold normalize. now rewrite check_array_accepted.
Qed.

Lemma normalize_refused (A : ndarray T) :
  ~ accepted A -> normalize A = raise ValueError.
Proof.
  intros HA. unfold normalize. now rewrite check_array_refused.
Qed.

Lemma dot_scaled_rows (A : ndarray T) :
  dot (scaled_rows A) (transpose (scaled_rows A)) = ret (similarity A).
Proof.
  unfold similarity, dot, scaled_rows, transpose.
  rewrite shape0_with_dtype, shape1_with_dtype.
  rewrite !shape0_tabulate, !shape1_tabulate, Nat.eqb_refl.
  reflexivity.
Qed.

Lemma shape_similarity (A : ndarray T) :
  shape0 (similarity A) = shape0 A /\ shape1 (similarity A) = shape0 A.
Proof.
  unfold similarity. now rewrite shape0_tabulate, shape1_tabulate.
Qed.

Lemma get_kNNs_eq (A : ndarray T) (k : Z) :
  accepted A ->
  get_kNNs argsort A k = ret (similarity A, neighbours_of argsort A k).
Proof.
  intros HA. unfold get_kNNs. rewrite normalize_accepted by assumption.
  cbn [bind ret]. rewrite dot_scaled_rows. cbn [bind ret].
  destruct (shape_similarity A) as [-> ->].
  rewrite for_range_ext with
    (g := fun i nb => nb ++ [slice_from (- k)
            (argsort (map (get (similarity A) i) (seq 0 (shape0 A))))]).
  - rewrite for_range_append. reflexivity.
  - intros i s Hi. now rewrite nth_map_seq.
Qed.

Lemma get_kNNs_refused (A : ndarray T) (k : Z) :
  ~ accepted A -> get_kNNs argsort A k = raise ValueError.
Proof.
  intros HA. unfold get_kNNs. now rewrite normalize_refused.
Qed.

Lemma sized_similarity (A : ndarray T) :
  sized (shape0 A) (shape0 A) (similarity A).
Proof.
  unfold sized, similarity. split; [apply wf_tabulate|].
  now rewrite shape0_tabulate, shape1_tabulate.
Qed.

Lemma length_neighbours_of (A : ndarray T) (k : Z) :
  length (neighbours_of argsort A k) = shape0 A.
Proof. unfold neighbours_of. now rewrite length_map, length_seq. Qed.

Lemma nth_neighbours_of (A : ndarray T) (k : Z) (i : nat) :
  i < shape0 A ->
  nth i (neighbours_of argsort A k) [] =
  slice_from (- k) (argsort (map (get (similarity A) i) (seq 0 (shape0 A)))).
Proof. intros Hi. unfold neighbours_of. now rewrite nth_map_seq. Qed.

(** ** Rule 3: get_W3 *)

Lemma dtype_fill (g : nat -> nat -> option T) n m (W : ndarray T) :
  dtype_of (fill g n m W) = dtype_of W.
Proof.
  unfold fill, for_range.
  assert (Hin : forall i l W0,
            dtype_of (fold_left (fun W1 j => assign g i j W1) l W0) =
            dtype_of W0).
  { intros i l. induction l as [|a l IH]; intros W0; simpl; [reflexivity|].
    rewrite IH. unfold assign. now destruct (g i a). }
  generalize (seq 0 n). intros l. revert W.
  induction l as [|a l IH]; intros W; simpl; [reflexivity|].
  rewrite IH. apply Hin.
Qed.

Lemma get_W3_eq (X : ndarray T) (k : Z) :
  accepted X -> get_W3 argsort X k = ret (similarity X).
Proof.
  intros HX. unfold get_W3. rewrite get_kNNs_eq by assumption.
  cbn [bind ret]. unfold ret. f_equal. f_equal.
  pose (g := fun i j : nat => Some (get (similarity X) i j)).
  change (fill g (shape0 X) (shape0 X) (zeros (shape0 X) (shape0 X)) = similarity X).
  destruct (sized_similarity X) as (Hwf & H0 & H1).
  destruct (sized_fill g (sized_zeros (shape0 X) (shape0 X))) as (Fwf & F0 & F1).
  apply ndarray_ext;
    [assumption | assumption | unfold shape; congruence
    | now rewrite dtype_fill |].
  intros i j Hi Hj. rewrite F0 in Hi. rewrite F1 in Hj.
  now rewrite (get_fill g (sized_zeros _ _) Hi Hj).
Qed.

Lemma get_W3_refused (X : ndarray T) (k : Z) :
  ~ accepted X -> get_W3 argsort X k = raise ValueError.
Proof.
  intros HX. unfold get_W3. now rewrite get_kNNs_refused.
Qed.
End KNN.

(** ** Python slices and the insertion argsort *)

Section Slices.
Lemma length_slice_from_last {X} (l : list X) (k : Z) :
  (1 <= k <= Z.of_nat (length l))%Z ->
  length (slice_from (- k) l) = Z.to_nat k.
Proof.
  intros Hk. unfold slice_from.
  destruct (Z.ltb_spec (- k) 0); [|lia].
  rewrite length_skipn. lia.
Qed.

Lemma slice_from_all {X} (l : list X) (k : Z) :
  (Z.of_nat (length l) <= k)%Z -> slice_from (- k) l = l.
Proof.
  intros Hk. unfold slice_from.
  destruct (Z.ltb_spec (- k) 0).
  - replace (Z.to_nat (Z.max 0 (- k + Z.of_nat (length l)))) with 0 by lia.
    reflexivity.
  - replace (Z.to_nat (Z.min (- k) (Z.of_nat (length l)))) with 0 by lia.
    reflexivity.
Qed.

(** [l[-0:]] is the whole list. *)
Lemma slice_from_zero {X} (l : list X) : slice_from (- 0) l = l.
Proof.
  unfold slice_from. simpl.
  replace (Z.to_nat (Z.min 0 (Z.of_nat (length l)))) with 0 by lia.
  reflexivity.
Qed.

Lemma insert_by_perm le x l : Permutation (insert_by le x l) (x :: l).
Proof.
  induction l as [|y t IH]; simpl; [reflexivity|].
  destruct (le x y); [reflexivity|].
  rewrite IH. apply perm_swap.
Qed.

Lemma argsort_ins_perm {T} `{Scalar T} (a : list T) :
  Permutation (argsort_ins a) (seq 0 (length a)).
Proof.
  unfold argsort_ins. induction (seq 0 (length a)) as [|x l IH]; simpl.
  - reflexivity.
  - rewrite insert_by_perm. now constructor.
Qed.
End Slices.

(** ** The kNN engine: sizes of the neighbour sets *)

Section KNNSize.
Context {T : Type} `{Scalar T}.
Variable argsort : list T -> list nat.
Hypothesis argsort_perm :
  forall a, Permutation (argsort a) (seq 0 (length a)).

Lemma length_argsort a : length (argsort a) = length a.
Proof. rewrite (Permutation_length (argsort_perm a)). apply length_seq. Qed.

(** C6, as the code has it.  get_kNNs raises a ValueError (from
    normalize) on an array without rows, without columns or with an entry
    that is not finite.  On every other array, of n rows, the call returns
    with one neighbour set per row; for 1 <= k <= n-1 each set has exactly
    k entries; for k >= n each set has n entries: all the rows, the row
    itself among them. *)
Theorem get_kNNs_neighbour_count (X : ndarray T) (k : Z) :
  (~ accepted X -> get_kNNs argsort X k = raise ValueError) /\
  (accepted X ->
   exists (S0 : ndarray T) (nb : list (list nat)),
     get_kNNs argsort X k = ret (S0, nb) /\
     length nb = shape0 X /\
     forall i, i < shape0 X ->
       ((1 <= k <= Z.of_nat (shape0 X) - 1)%Z ->
          length (nth i nb []) = Z.to_nat k) /\
       ((Z.of_nat (shape0 X) <= k)%Z ->
          length (nth i nb []) = shape0 X /\
          Permutation (nth i nb []) (seq 0 (shape0 X)) /\
          In i (nth i nb []))).
Proof.
  split; [apply get_kNNs_refused|]. intros HX.
  exists (similarity X), (neighbours_of argsort X k).
  split; [now apply get_kNNs_eq|].
  split; [apply length_neighbours_of|].
  intros i Hi. rewrite nth_neighbours_of by assumption.
  set (row := map (get (similarity X) i) (seq 0 (shape0 X))).
  assert (Hrow : length row = shape0 X)
    by (unfold row; now rewrite length_map, length_seq).
  split.
  - intros Hk. apply length_slice_from_last. rewrite length_argsort, Hrow. lia.
  - intros Hk. rewrite slice_from_all by (rewrite length_argsort, Hrow; lia).
    split; [now rewrite length_argsort|].
    assert (P := argsort_perm row). rewrite Hrow in P.
    split; [exact P|].
    apply (Permutation_in i (Permutation_sym P)). apply in_seq. lia.
Qed.
End KNNSize.

Lemma get_kNNs_X_two_2 :
  get_kNNs argsort_ins X_two 2 =
  ret (mk_ndarray 2 [[1%float; 1%float]; [1%float; 1%float]], [[0; 1]; [0; 1]]).
Proof. vm_compute. reflexivity. Qed.

Lemma get_kNNs_X_two_0 :
  get_kNNs argsort_ins X_two 0 =
  ret (mk_ndarray 2 [[1%float; 1%float]; [1%float; 1%float]], [[0; 1]; [0; 1]]).
Proof. vm_compute. reflexivity. Qed.

Lemma get_kNNs_X_empty_0 :
  get_kNNs argsort_ins X_empty 0 = raise ValueError.
Proof. vm_compute. reflexivity. Qed.

(** On two rows, k = 2 gives neighbour sets of 2 entries (not n-1 = 1), and
    k = 0 gives neighbour sets of 2 entries (not 0).  On an array without
    rows the call with k = 0 >= n does not succeed. *)
Lemma get_kNNs_neighbour_count_counterexample :
  ~ neighbour_count_as_stated argsort_ins X_two 2 /\
  ~ neighbour_count_as_stated argsort_ins X_two 0 /\
  ~ neighbour_count_as_stated argsort_ins X_empty 0.
Proof.
  split; [|split].
  - intros [_ Hge]. destruct Hge as (S0 & nb & E & Hn); [cbv; congruence|].
    rewrite get_kNNs_X_two_2 in E. injection E as <- <-.
    assert (H0 : 0 < shape0 X_two) by (cbv; lia).
    specialize (Hn 0 H0). cbv in Hn. discriminate Hn.
  - intros [Hle _]. destruct Hle as (S0 & nb & E & Hn); [cbv; congruence|].
    rewrite get_kNNs_X_two_0 in E. injection E as <- <-.
    assert (H0 : 0 < shape0 X_two) by (cbv; lia).
    specialize (Hn 0 H0). cbv in Hn. discriminate Hn.
  - intros [_ Hge]. destruct Hge as (S0 & nb & E & _); [cbv; congruence|].
    rewrite get_kNNs_X_empty_0 in E. discriminate E.
Qed.

Lemma accepted_X_three : accepted X_three.
Proof. repeat split; cbv; lia. Qed.

Lemma get_kNNs_neighbour_count_witness :
  accepted X_three /\
  exists (S0 : ndarray float) (nb : list (list nat)),
    get_kNNs argsort_ins X_three 2 = ret (S0, nb) /\
    length nb = shape0 X_three /\
    forall i, i < shape0 X_three ->
      ((1 <= 2 <= Z.of_nat (shape0 X_three) - 1)%Z ->
         length (nth i nb []) = Z.to_nat 2) /\
      ((Z.of_nat (shape0 X_three) <= 2)%Z ->
         length (nth i nb []) = shape0 X_three /\
         Permutation (nth i nb []) (seq 0 (shape0 X_three)) /\
         In i (nth i nb [])).
Proof.
  split; [exact accepted_X_three|].
  exact (proj2 (get_kNNs_neighbour_count argsort_ins
                  (fun a => argsort_ins_perm a) X_three 2)
               accepted_X_three).
Defined.

(** ** Rule 2: get_W2 *)

Section RuleTwo.
Variable argsort : list R -> list nat.
Open Scope R_scope.

(** The labels Y: +1 on the positive rows, -1 on the negative rows. *)
Lemma nth_labels (pos neg i : nat) :
  (i < pos + neg)%nat ->
  nth i (ones pos ++ map (smul (sopp s1)) (ones neg)) 0 =
  if Nat.ltb i pos then 1 else -1.
Proof.
  intros Hi. unfold ones. destruct (Nat.ltb_spec i pos).
  - rewrite app_nth1 by (now rewrite repeat_length).
    now rewrite nth_repeat_lt.
  - rewrite app_nth2 by (rewrite repeat_length; lia).
    rewrite repeat_length, map_repeat, nth_repeat_lt by lia.
    simpl. lra.
Qed.

Lemma same_label_eqb (pos i j : nat) :
  Reqb (if Nat.ltb i pos then 1 else -1) (if Nat.ltb j pos then 1 else -1) =
  Bool.eqb (Nat.ltb i pos) (Nat.ltb j pos).
Proof.
  destruct (Nat.ltb i pos), (Nat.ltb j pos); simpl;
    try apply Reqb_refl; apply Reqb_false; lra.
Qed.

Lemma get_W2_eq (self : SupEmb R) :
  shape1 (XlA_pos self) = shape1 (XlA_neg self) ->
  accepted (XlA_of self) ->
  let pos := shape0 (XlA_pos self) in
  let neg := shape0 (XlA_neg self) in
  let XlA0 := XlA_of self in
  exists self',
    get_W2 argsort self =
      ret (fill (W2_assigned (lambda_2 self) pos (similarity XlA0)
                   (neighbours_of argsort XlA0 (k2 self)))
             (pos + neg) (pos + neg) (zeros (pos + neg) (pos + neg)), self') /\
    XlA self' = Some XlA0 /\
    Ua self' = Ua self /\ Ub self' = Ub self /\ A_ self' = A_ self /\
    B_ self' = B_ self /\ XuA self' = XuA self /\ XuB self' = XuB self /\
    M_ self' = M_ self /\ d self' = d self /\ h self' = h self /\
    w2 self' = w2 self /\ w3 self' = w3 self /\
    lambda_2 self' = lambda_2 self /\
    k3 self' = k3 self /\ k3_bar self' = k3_bar self.
Proof.
  intros Hc HA pos neg XlA0. unfold get_W2, concatenate0.
  apply Nat.eqb_eq in Hc. rewrite Hc. cbn [bind ret].
  change (mk_array (ncols (XlA_pos self))
            (rows (XlA_pos self) ++ rows (XlA_neg self))
            (result_type (dtype_of (XlA_pos self)) (dtype_of (XlA_neg self))))
    with XlA0.
  rewrite get_kNNs_eq by exact HA. cbn [bind ret]. fold pos neg.
  eexists. split.
  { unfold ret. f_equal. f_equal. apply (f_equal2 pair); [|reflexivity].
    unfold fill.
    apply for_range_ext. intros i W Hi.
    apply for_range_ext. intros j W' Hj.
    unfold assign, W2_assigned.
    destruct (py_in j _ && py_in i _); [|reflexivity].
    rewrite !nth_labels by assumption.
    change (@seqb R _) with Reqb. rewrite same_label_eqb.
    now destruct (Bool.eqb _ _). }
  repeat split.
Qed.
End RuleTwo.

(** ** The inverse degree array: perturbate and get_Dinv *)

Section Perturbation.
Context {T : Type} `{Scalar T}.

Lemma assign_all (v : T) (ps : list nat) (s : list T) :
  let s' := fold_left (fun s p => set_nth s p v) ps s in
  length s' = length s /\
  forall i dflt, nth i s' dflt =
    if existsb (Nat.eqb i) ps && Nat.ltb i (length s) then v else nth i s dflt.
Proof.
  revert s. induction ps as [|p ps IH]; intros s; simpl.
  - split; reflexivity.
  - destruct (IH (set_nth s p v)) as [Hl Hn]. rewrite length_set_nth in *.
    split; [exact Hl|]. intros i dflt. rewrite Hn, nth_set_nth.
    destruct (Nat.eqb_spec i p) as [->|]; simpl; [|reflexivity].
    destruct (Nat.ltb p (length s)); [|now rewrite andb_false_r].
    now rewrite andb_true_r; destruct (existsb _ ps).
Qed.

Lemma existsb_where_zero (s : list T) (i : nat) :
  existsb (Nat.eqb i) (where_zero s) =
  Nat.ltb i (length s) && seqb (nth i s s0) s0.
Proof.
  unfold where_zero.
  destruct (existsb _ _) eqn:E.
  - apply existsb_exists in E. destruct E as [x [Hx E]].
    apply Nat.eqb_eq in E. subst x. apply filter_In in Hx.
    destruct Hx as [Hx Hz]. apply in_seq in Hx.
    symmetry. apply andb_true_intro. split; [apply Nat.ltb_lt; lia | exact Hz].
  - symmetry. apply not_true_is_false. intros C.
    apply andb_prop in C. destruct C as [Hl Hz]. apply Nat.ltb_lt in Hl.
    assert (E' : existsb (Nat.eqb i)
              (filter (fun i => seqb (nth i s s0) s0) (seq 0 (length s))) = true).
    { apply existsb_exists. exists i. split; [|apply Nat.eqb_refl].
      apply filter_In. split; [apply in_seq; lia | exact Hz]. }
    congruence.
Qed.

Lemma perturbate_eq (dt : dtype) (s : list T) :
  perturbate dt s = (inr (perturbed dt s), [LogWarning 1]).
Proof.
  unfold perturbate, warn, bind, ret. cbn [fold_left length app].
  f_equal. f_equal.
  destruct (assign_all (cast dt (mean s)) (where_zero s) s) as [Hl Hn].
  apply nth_ext with (d := s0) (d' := s0).
  - unfold perturbed. now rewrite Hl, length_map, length_seq.
  - intros i Hi. rewrite Hl in Hi. unfold perturbed.
    rewrite nth_map_seq by assumption.
    rewrite Hn, existsb_where_zero.
    apply Nat.ltb_lt in Hi. rewrite Hi. simpl.
    now rewrite andb_true_r.
Qed.

Lemma count_nonzero_zero (s : list T) :
  Nat.ltb 0 (count_nonzero s) = false ->
  forall i, i < length s -> seqb (nth i s s0) s0 = true.
Proof.
  unfold count_nonzero. intros Hc i Hi.
  apply Nat.ltb_ge in Hc.
  destruct (seqb (nth i s s0) s0) eqn:E; [reflexivity|].
  assert (Hin : In (nth i s s0) (filter (fun x => negb (seqb x s0)) s)).
  { apply filter_In. split; [now apply nth_In | now rewrite E]. }
  destruct (filter _ s); [contradiction | simpl in Hc; lia].
Qed.

Lemma count_nonzero_pos (s : list T) :
  Nat.ltb 0 (count_nonzero s) = true ->
  exists i, i < length s /\ seqb (nth i s s0) s0 = false.
Proof.
  unfold count_nonzero. intros Hc. apply Nat.ltb_lt in Hc.
  destruct (filter _ s) as [|x l] eqn:E; [simpl in Hc; lia|].
  assert (Hin : In x (filter (fun x => negb (seqb x s0)) s))
    by (rewrite E; now left).
  apply filter_In in Hin. destruct Hin as [Hin Hx].
  apply In_nth with (d := s0) in Hin. destruct Hin as [i [Hi <-]].
  exists i. split; [assumption|]. now apply negb_true_iff.
Qed.
End Perturbation.

Section InverseDegrees.
Context {T : Type} `{Scalar T}.

Lemma get_Dinv_eq (W : ndarray T) :
  get_Dinv W = (inr (diag (map (sdiv s1) (Dinv_sums W))), Dinv_log W).
Proof.
  unfold get_Dinv, Dinv_log, Dinv_sums, reciprocal.
  destruct (Nat.ltb 0 (count_nonzero (sum_axis1 W))).
  - rewrite perturbate_eq. cbn [bind].
    destruct (existsb _ (perturbed _ _)); reflexivity.
  - cbn [bind ret].
    destruct (existsb _ (sum_axis1 W)); reflexivity.
Qed.

Lemma length_Dinv_sums (W : ndarray T) : length (Dinv_sums W) = shape0 W.
Proof.
  unfold Dinv_sums, perturbed.
  destruct (Nat.ltb 0 _); rewrite ?length_map, ?length_seq;
    apply length_sum_axis1.
Qed.
End InverseDegrees.

Section InverseDegreesR.
Open Scope R_scope.

Lemma mean_all_zero (s : list R) :
  (forall i, (i < length s)%nat -> nth i s 0 = 0) -> mean s = 0.
Proof.
  intros Hz. unfold mean.
  assert (E : ssum s = 0).
  { rewrite (list_eq_map_nth s 0). apply ssum_map_zero.
    intros i Hi. apply in_seq in Hi. apply Hz. lia. }
  rewrite E. cbn. unfold Rdiv. lra.
Qed.


Lemma nth_perturbed {T} `{Scalar T} (dt : dtype) (s : list T) (i : nat) :
  (i < length s)%nat ->
  nth i (perturbed dt s) s0 =
  if seqb (nth i s s0) s0 then cast dt (mean s) else nth i s s0.
Proof. intros Hi. unfold perturbed. now rewrite nth_map_seq. Qed.

(** The zero totals that get_Dinv inverts, whatever the scalar type. *)
Lemma Dinv_sums_zero {T} `{Scalar T} (W : ndarray T) :
  existsb (fun x => seqb x s0) (Dinv_sums W) = true <->
  exists i, (i < shape0 W)%nat /\
    seqb (nth i (sum_axis1 W) s0) s0 = true /\
    (count_nonzero (sum_axis1 W) = 0%nat \/
     seqb (cast (dtype_of W) (mean (sum_axis1 W))) s0 = true).
Proof.
  assert (Hs := length_sum_axis1 W).
  unfold Dinv_sums. destruct (Nat.ltb 0 (count_nonzero (sum_axis1 W))) eqn:C.
  - apply Nat.ltb_lt in C. split.
    + intros E. apply existsb_exists in E. destruct E as (x & Hx & Hz).
      apply In_nth with (d := s0) in Hx. destruct Hx as (i & Hi & <-).
      unfold perturbed in Hi. rewrite length_map, length_seq, Hs in Hi.
      rewrite nth_perturbed in Hz by lia.
      exists i. split; [exact Hi|].
      destruct (seqb (nth i (sum_axis1 W) s0) s0) eqn:Z.
      * split; [reflexivity | now right].
      * congruence.
    + intros (i & Hi & Hz & [C0 | Hm]); [lia|].
      apply existsb_exists. exists (nth i (perturbed (dtype_of W) (sum_axis1 W)) s0).
      split.
      * apply nth_In. unfold perturbed. now rewrite length_map, length_seq, Hs.
      * rewrite nth_perturbed by lia. now rewrite Hz.
  - apply Nat.ltb_ge in C. split.
    + intros E. apply existsb_exists in E. destruct E as (x & Hx & Hz).
      apply In_nth with (d := s0) in Hx. destruct Hx as (i & Hi & <-).
      exists i. rewrite Hs in Hi. repeat split; [exact Hi | exact Hz |].
      left. lia.
    + intros (i & Hi & Hz & _). apply existsb_exists.
      exists (nth i (sum_axis1 W) s0). split; [|exact Hz].
      apply nth_In. lia.
Qed.



End InverseDegreesR.

(** ** Cosine similarity over the reals *)

Section Cosine.
Open Scope R_scope.
Local Abbreviation sqrt := R_sqrt.sqrt.

Lemma ssum_map_le {X} (f g : X -> R) (l : list X) :
  (forall x, In x l -> f x <= g x) -> ssum (map f l) <= ssum (map g l).
Proof.
  induction l as [|x l IH]; intros E; simpl.
  - rewrite ssum_nil. lra.
  - rewrite !ssum_cons.
    assert (f x <= g x) by (apply E; now left).
    assert (ssum (map f l) <= ssum (map g l))
      by (apply IH; intros y Hy; apply E; now right).
    lra.
Qed.

Lemma ssum_map_nonneg {X} (f : X -> R) (l : list X) :
  (forall x, In x l -> 0 <= f x) -> 0 <= ssum (map f l).
Proof.
  intros E. rewrite <- (@ssum_map_zero X (fun _ => 0) l) by reflexivity.
  now apply ssum_map_le.
Qed.

Lemma ssum_nonneg_zero {X} (f : X -> R) (l : list X) :
  (forall x, In x l -> 0 <= f x) -> ssum (map f l) = 0 ->
  forall x, In x l -> f x = 0.
Proof.
  induction l as [|a l IH]; intros Hn Hs x Hx; [contradiction|].
  simpl in Hs. rewrite ssum_cons in Hs.
  assert (0 <= f a) by (apply Hn; now left).
  assert (0 <= ssum (map f l))
    by (apply ssum_map_nonneg; intros y Hy; apply Hn; now right).
  destruct Hx as [<-|Hx]; [lra|].
  apply IH; [intros y Hy; apply Hn; now right | lra | assumption].
Qed.

Lemma Rleb_true (x y : R) : Rleb x y = true <-> x <= y.
Proof. unfold Rleb. destruct (Rle_dec x y); split; congruence. Qed.

Lemma Rleb_false (x y : R) : Rleb x y = false <-> y < x.
Proof.
  unfold Rleb. destruct (Rle_dec x y); split; try congruence; intros; lra.
Qed.

Lemma finite_R (A : ndarray R) : forallb (forallb sfinite) (rows A) = true.
Proof.
  apply forallb_forall. intros r _. apply forallb_forall. reflexivity.
Qed.

Lemma accepted_R (A : ndarray R) :
  (0 < shape0 A)%nat -> (0 < shape1 A)%nat -> accepted A.
Proof. intros H0 H1. repeat split; try assumption. apply finite_R. Qed.

Lemma Rltb_true (x y : R) : Rltb x y = true <-> x < y.
Proof. unfold Rltb. destruct (Rlt_dec x y); split; congruence. Qed.

Lemma Rltb_false (x y : R) : Rltb x y = false <-> y <= x.
Proof.
  unfold Rltb. destruct (Rlt_dec x y); split; try congruence; lra.
Qed.

Lemma ten_eps_eq : smul (sofnat 10) seps = ten_eps.
Proof. unfold ten_eps. cbn. lra. Qed.

Lemma ten_eps_bounds : 0 < ten_eps < 1.
Proof. unfold ten_eps. lra. Qed.

Lemma row_norm_eq (A : ndarray R) (i : nat) :
  row_norm A i = if Rltb (norm A i) ten_eps then 1 else norm A i.
Proof. unfold row_norm. rewrite ten_eps_eq. reflexivity. Qed.

Lemma sumsq_nonneg (A : ndarray R) (i : nat) : 0 <= sumsq A i.
Proof. apply ssum_map_nonneg. intros j _. nra. Qed.

Lemma norm_nonneg (A : ndarray R) (i : nat) : 0 <= norm A i.
Proof. apply sqrt_pos. Qed.

Lemma norm_sqr (A : ndarray R) (i : nat) : norm A i * norm A i = sumsq A i.
Proof. apply sqrt_sqrt, sumsq_nonneg. Qed.

(** A row as normalize leaves it. *)
Lemma unit_row_direction (A : ndarray R) (i k : nat) :
  unit_row A i k = direction A i k.
Proof.
  unfold unit_row, direction. rewrite row_norm_eq. unfold Rltb.
  destruct (Rlt_dec (norm A i) ten_eps); [|reflexivity].
  cbn. field.
Qed.

Lemma similarity_entry (A : ndarray R) (i j : nat) :
  (i < shape0 A)%nat -> (j < shape0 A)%nat ->
  get (similarity A) i j =
  ssum (map (fun k => unit_row A i k * unit_row A j k) (seq 0 (shape1 A))).
Proof.
  intros Hi Hj. unfold similarity. rewrite get_tabulate by assumption.
  apply ssum_map_ext. intros k Hk. apply in_seq in Hk.
  unfold transpose, scaled_rows.
  rewrite get_with_dtype, !shape0_tabulate, !shape1_tabulate.
  rewrite !get_tabulate by lia. reflexivity.
Qed.

(** A row that normalize scaled has squared length 1; a row it left
    unscaled keeps its squared length. *)
Lemma unit_row_sumsq (A : ndarray R) (i : nat) :
  ssum (map (fun k => unit_row A i k * unit_row A i k) (seq 0 (shape1 A))) =
  if Rltb (norm A i) ten_eps then sumsq A i else 1.
Proof.
  unfold unit_row. rewrite row_norm_eq.
  destruct (Rltb (norm A i) ten_eps) eqn:E.
  - apply ssum_map_ext. intros k _. field.
  - apply Rltb_false in E. assert (B := ten_eps_bounds).
    assert (Hn : norm A i <> 0) by lra.
    rewrite ssum_map_ext with
      (g := fun k => (get A i k * get A i k) * / sumsq A i).
    + rewrite ssum_map_mul_r. fold (sumsq A i).
      apply Rinv_r. rewrite <- norm_sqr. nra.
    + intros k _. rewrite <- norm_sqr. now field.
Qed.

Lemma unit_row_sumsq_le1 (A : ndarray R) (i : nat) :
  ssum (map (fun k => unit_row A i k * unit_row A i k) (seq 0 (shape1 A))) <= 1.
Proof.
  rewrite unit_row_sumsq. destruct (Rltb _ _) eqn:E; [|lra].
  apply Rltb_true in E. assert (B := ten_eps_bounds).
  assert (N := norm_nonneg A i). rewrite <- norm_sqr. nra.
Qed.

(** Cauchy-Schwarz in the form needed: 2 <x,y> <= |x|^2 + |y|^2. *)
Lemma inner_le_squares {X} (f g : X -> R) (l : list X) :
  2 * ssum (map (fun k => f k * g k) l) <=
  ssum (map (fun k => f k * f k) l) + ssum (map (fun k => g k * g k) l).
Proof.
  rewrite <- ssum_map_mul_l, <- ssum_map_add.
  apply ssum_map_le. intros k _. cbv beta.
  generalize (f k) (g k). intros x y.
  assert (0 <= (x - y) * (x - y)) by apply Rle_0_sqr.
  lra.
Qed.

Lemma inner_ge_squares {X} (f g : X -> R) (l : list X) :
  - (ssum (map (fun k => f k * f k) l) + ssum (map (fun k => g k * g k) l)) <=
  2 * ssum (map (fun k => f k * g k) l).
Proof.
  assert (C := inner_le_squares f (fun k => - g k) l).
  rewrite (@ssum_map_ext X (fun k => f k * - g k)
             (fun k => -1 * (f k * g k))) in C by (intros; ring).
  rewrite ssum_map_mul_l in C.
  rewrite (@ssum_map_ext X (fun k => - g k * - g k)
             (fun k => g k * g k)) in C by (intros; ring).
  lra.
Qed.

(** S[i,i] = 1 on a row that normalize scales. *)
Lemma similarity_diag (A : ndarray R) (i : nat) :
  (i < shape0 A)%nat -> ten_eps <= norm A i -> get (similarity A) i i = 1.
Proof.
  intros Hi Hn. rewrite similarity_entry, unit_row_sumsq by assumption.
  apply Rltb_false in Hn. now rewrite Hn.
Qed.

(** S[i,i] = |x|^2 on a row that normalize leaves unscaled. *)
Lemma similarity_diag_unscaled (A : ndarray R) (i : nat) :
  (i < shape0 A)%nat -> norm A i < ten_eps ->
  get (similarity A) i i = sumsq A i.
Proof.
  intros Hi Hn. rewrite similarity_entry, unit_row_sumsq by assumption.
  apply Rltb_true in Hn. now rewrite Hn.
Qed.

(** No entry of the row of S of a scaled row exceeds its diagonal entry. *)
Lemma similarity_diag_max (A : ndarray R) (i j : nat) :
  (i < shape0 A)%nat -> (j < shape0 A)%nat -> ten_eps <= norm A i ->
  get (similarity A) i j <= get (similarity A) i i.
Proof.
  intros Hi Hj Hn. rewrite similarity_diag by assumption.
  rewrite similarity_entry by assumption.
  assert (C := inner_le_squares (unit_row A i) (unit_row A j)
                 (seq 0 (shape1 A))).
  assert (U := unit_row_sumsq_le1 A i).
  assert (V := unit_row_sumsq_le1 A j). lra.
Qed.

(** Every entry of S lies in [-1, 1]. *)
Lemma similarity_range (A : ndarray R) (i j : nat) :
  (i < shape0 A)%nat -> (j < shape0 A)%nat ->
  -1 <= get (similarity A) i j <= 1.
Proof.
  intros Hi Hj. rewrite similarity_entry by assumption.
  assert (C := inner_le_squares (unit_row A i) (unit_row A j)
                 (seq 0 (shape1 A))).
  assert (G := inner_ge_squares (unit_row A i) (unit_row A j)
                 (seq 0 (shape1 A))).
  assert (U := unit_row_sumsq_le1 A i).
  assert (V := unit_row_sumsq_le1 A j). lra.
Qed.

(** A zero row has similarity 0 with every row. *)
Lemma similarity_zero_row (A : ndarray R) (i j : nat) :
  (i < shape0 A)%nat -> (j < shape0 A)%nat ->
  (forall k, (k < shape1 A)%nat -> get A i k = 0) ->
  get (similarity A) i j = 0.
Proof.
  intros Hi Hj Hz. rewrite similarity_entry by assumption.
  apply ssum_map_zero. intros k Hk. apply in_seq in Hk.
  unfold unit_row. rewrite (Hz k) by lia. unfold Rdiv. lra.
Qed.

(** S in the words of the rows: the inner product of the two rows as
    normalize leaves them, the cosine when both are scaled. *)
Lemma similarity_direction (A : ndarray R) (i j : nat) :
  (i < shape0 A)%nat -> (j < shape0 A)%nat ->
  get (similarity A) i j =
  ssum (map (fun k => direction A i k * direction A j k)
            (seq 0 (shape1 A))).
Proof.
  intros Hi Hj. rewrite similarity_entry by assumption.
  apply ssum_map_ext. intros k _. now rewrite !unit_row_direction.
Qed.

Lemma similarity_row_similarity (A : ndarray R) (i j : nat) :
  (i < shape0 A)%nat -> (j < shape0 A)%nat ->
  get (similarity A) i j = row_similarity A i j.
Proof. apply similarity_direction. Qed.

Lemma similarity_cosine (A : ndarray R) (i j : nat) :
  (i < shape0 A)%nat -> (j < shape0 A)%nat ->
  ten_eps <= norm A i -> ten_eps <= norm A j ->
  get (similarity A) i j = cosine A i j.
Proof.
  intros Hi Hj Ni Nj. rewrite similarity_direction by assumption.
  assert (B := ten_eps_bounds). unfold cosine, direction.
  destruct (Rlt_dec (norm A i) ten_eps); [lra|].
  destruct (Rlt_dec (norm A j) ten_eps); [lra|].
  rewrite ssum_map_ext with
    (g := fun k => (get A i k * get A j k) * / (norm A i * norm A j)).
  - now rewrite ssum_map_mul_r.
  - intros k _. field. split; lra.
Qed.
End Cosine.

(** ** Sorted index lists and the row's own index *)

Section SelfNeighbour.
Open Scope R_scope.

Lemma StronglySorted_app_le {X} (Rel : X -> X -> Prop) (l1 l2 : list X) :
  StronglySorted Rel (l1 ++ l2) ->
  forall x y, In x l1 -> In y l2 -> Rel x y.
Proof.
  induction l1 as [|a l1 IH]; intros Hs x y Hx Hy; [contradiction|].
  simpl in Hs. inversion Hs as [|? ? Hs' Hall]; subst.
  destruct Hx as [<-|Hx].
  - rewrite Forall_forall in Hall. apply Hall. apply in_or_app. now right.
  - now apply IH.
Qed.

Lemma NoDup_app_disjoint {X} (l1 l2 : list X) :
  NoDup (l1 ++ l2) -> forall x, In x l1 -> In x l2 -> False.
Proof.
  induction l1 as [|a l1 IH]; intros Hn x H1 H2; [contradiction|].
  simpl in Hn. inversion Hn as [|? ? Hnot Hn']; subst.
  destruct H1 as [<-|H1].
  - apply Hnot. apply in_or_app. now right.
  - now apply (IH Hn' x).
Qed.

Lemma NoDup_app_r {X} (l1 l2 : list X) : NoDup (l1 ++ l2) -> NoDup l2.
Proof.
  induction l1 as [|a l1 IH]; intros Hn; [exact Hn|].
  simpl in Hn. inversion Hn; subst. now apply IH.
Qed.

(** In an ascending permutation of 0..n-1 the index of a maximal value is
    among the last m, unless m other indices tie with it. *)
Lemma maximal_in_tail (a : list R) (N : list nat) (i n m : nat) :
  Permutation N (seq 0 n) -> ascending a N -> (i < n)%nat ->
  (forall q, (q < n)%nat -> nth q a 0 <= nth i a 0) ->
  (tied (fun q => nth q a 0%R) i n < length (skipn m N))%nat ->
  In i (skipn m N).
Proof.
  intros HP Hasc Hi Hmax Htied.
  assert (HN : NoDup N)
    by (apply (Permutation_NoDup (Permutation_sym HP)), seq_NoDup).
  assert (Hin : In i N)
    by (apply (Permutation_in i (Permutation_sym HP)), in_seq; lia).
  rewrite <- (firstn_skipn m N) in Hin, HN, Hasc.
  apply in_app_or in Hin. destruct Hin as [Hf|Hs]; [|exact Hs].
  exfalso. unfold tied in Htied.
  assert (Hle : (length (skipn m N) <=
            length (filter (fun j => negb (Nat.eqb j i) &&
                                     Reqb (nth j a 0%R) (nth i a 0%R)) (seq 0 n)))%nat).
  { apply NoDup_incl_length; [now apply NoDup_app_r in HN|].
    intros q Hq. apply filter_In.
    assert (Hqn : (q < n)%nat).
    { assert (In q N).
      { rewrite <- (firstn_skipn m N). apply in_or_app. now right. }
      apply (Permutation_in q HP) in H. apply in_seq in H. lia. }
    split; [apply in_seq; lia|].
    apply andb_true_intro. split.
    - apply negb_true_iff. apply Nat.eqb_neq. intros ->.
      eapply NoDup_app_disjoint; [exact HN | exact Hf | exact Hq].
    - apply Reqb_true.
      assert (nth i a 0 <= nth q a 0)
        by (apply (StronglySorted_app_le (firstn m N) (skipn m N) Hasc);
            assumption).
      assert (nth q a 0 <= nth i a 0) by now apply Hmax.
      lra. }
  lia.
Qed.

Lemma In_skipn {X} (m : nat) (l : list X) (x : X) :
  In x (skipn m l) -> In x l.
Proof.
  intros Hx. rewrite <- (firstn_skipn m l). apply in_or_app. now right.
Qed.


(** An index with fewer rivals than the tail has entries is in the tail. *)
Lemma rivals_tail (a : list R) (N : list nat) (j n m : nat) :
  Permutation N (seq 0 n) -> ascending a N -> (j < n)%nat ->
  (rivals (fun q => nth q a 0%R) j n < length (skipn m N))%nat ->
  In j (skipn m N).
Proof.
  intros HP Hasc Hj Hr.
  assert (HN : NoDup N)
    by (apply (Permutation_NoDup (Permutation_sym HP)), seq_NoDup).
  assert (Hin : In j N)
    by (apply (Permutation_in j (Permutation_sym HP)), in_seq; lia).
  rewrite <- (firstn_skipn m N) in Hin, HN, Hasc.
  apply in_app_or in Hin. destruct Hin as [Hf|Hs]; [|exact Hs].
  exfalso. unfold rivals in Hr.
  assert (Hle : (length (skipn m N) <=
            length (filter (fun q => negb (Nat.eqb q j) &&
                                     Rleb (nth j a 0%R) (nth q a 0%R))
                           (seq 0 n)))%nat).
  { apply NoDup_incl_length; [now apply NoDup_app_r in HN|].
    intros q Hq. apply filter_In.
    assert (Hqn : (q < n)%nat).
    { assert (In q N).
      { rewrite <- (firstn_skipn m N). apply in_or_app. now right. }
      apply (Permutation_in q HP) in H. apply in_seq in H. lia. }
    split; [apply in_seq; lia|].
    apply andb_true_intro. split.
    - apply negb_true_iff. apply Nat.eqb_neq. intros ->.
      eapply NoDup_app_disjoint; [exact HN | exact Hf | exact Hq].
    - apply Rleb_true.
      apply (StronglySorted_app_le (firstn m N) (skipn m N) Hasc);
        assumption. }
  lia.
Qed.

Lemma slice_from_last {X} (l : list X) (k : Z) :
  (1 <= k)%Z ->
  slice_from (- k) l = skipn (length l - Z.to_nat k) l /\
  length (slice_from (- k) l) = Nat.min (Z.to_nat k) (length l).
Proof.
  intros Hk. unfold slice_from.
  destruct (Z.ltb_spec (- k) 0); [|lia].
  replace (Z.to_nat (Z.max 0 (- k + Z.of_nat (length l))))
    with (length l - Z.to_nat k)%nat by lia.
  split; [reflexivity|]. rewrite length_skipn. lia.
Qed.
End SelfNeighbour.

Section SelfLoops.
Open Scope R_scope.
Local Abbreviation sqrt := R_sqrt.sqrt.
Variable argsort : list R -> list nat.
Hypothesis argsort_ok : argsort_spec argsort.

Lemma py_in_In (j : nat) (l : list nat) : py_in j l = true <-> In j l.
Proof.
  unfold py_in. rewrite existsb_exists. split.
  - intros [x [Hx E]]. apply Nat.eqb_eq in E. now subst.
  - intros Hj. exists j. split; [assumption | apply Nat.eqb_refl].
Qed.

Lemma tied_ext (v w : nat -> R) (i n : nat) :
  (i < n)%nat -> (forall q, (q < n)%nat -> v q = w q) -> tied v i n = tied w i n.
Proof.
  intros Hi E. unfold tied. f_equal. apply filter_ext_in.
  intros q Hq. apply in_seq in Hq. now rewrite !E by lia.
Qed.

Lemma rivals_ext (v w : nat -> R) (j n : nat) :
  (j < n)%nat -> (forall q, (q < n)%nat -> v q = w q) ->
  rivals v j n = rivals w j n.
Proof.
  intros Hj E. unfold rivals. f_equal. apply filter_ext_in.
  intros q Hq. apply in_seq in Hq. now rewrite !E by lia.
Qed.


(** With a maximal value at i, the rivals of i are the rows tied with it. *)
Lemma rivals_maximal (v : nat -> R) (i n : nat) :
  (forall q, (q < n)%nat -> v q <= v i) -> rivals v i n = tied v i n.
Proof.
  intros Hmax. unfold rivals, tied. f_equal. apply filter_ext_in.
  intros q Hq. apply in_seq in Hq. f_equal.
  assert (Hq' : v q <= v i) by (apply Hmax; lia).
  destruct (Reqb (v q) (v i)) eqn:E.
  - apply Reqb_true in E. apply Rleb_true. lra.
  - apply Reqb_false in E. apply Rleb_false. lra.
Qed.

(** The neighbour set of row i, for k >= 1, holds every row that is one of
    the k most similar however ties are broken, and no row that is not. *)
Lemma neighbours_nearest (A : ndarray R) (k : Z) (i j : nat) :
  (1 <= k)%Z -> (i < shape0 A)%nat -> (j < shape0 A)%nat ->
  nearest (similarity A) (shape0 A) k i j ->
  In j (nth i (neighbours_of argsort A k) []).
Proof.
  intros Hk Hi Hj Hr. unfold nearest in Hr.
  rewrite nth_neighbours_of by assumption.
  set (row := map (get (similarity A) i) (seq 0 (shape0 A))).
  assert (Hrow : length row = shape0 A)
    by (unfold row; now rewrite length_map, length_seq).
  assert (Hnth : forall q, (q < shape0 A)%nat ->
             nth q row 0 = get (similarity A) i q)
    by (intros q Hq; unfold row; now rewrite nth_map_seq).
  destruct (argsort_ok row) as [HP Hasc]. rewrite Hrow in HP.
  assert (HlenN : length (argsort row) = shape0 A)
    by (rewrite (Permutation_length HP); apply length_seq).
  destruct (slice_from_last (argsort row) Hk) as [-> Hl].
  destruct (Z_le_gt_dec (Z.of_nat (shape0 A)) k) as [Hbig|Hsmall].
  - replace (length (argsort row) - Z.to_nat k)%nat with 0%nat by lia.
    simpl. apply (Permutation_in j (Permutation_sym HP)), in_seq. lia.
  - apply rivals_tail with (a := row) (n := shape0 A); try assumption.
    rewrite (@rivals_ext _ (get (similarity A) i) j (shape0 A) Hj Hnth).
    rewrite length_skipn. lia.
Qed.


(** A row is among its own k nearest neighbours when k >= 1, normalize
    scales it and fewer than k other rows tie with it at S[i,i]. *)
Lemma get_kNNs_self (A : ndarray R) (k : Z) (i : nat) :
  (1 <= k)%Z -> (i < shape0 A)%nat -> ten_eps <= norm A i ->
  (Z.of_nat (tied (row_similarity A i) i (shape0 A)) < k)%Z ->
  In i (nth i (neighbours_of argsort A k) []).
Proof.
  intros Hk Hi Hn Ht. apply neighbours_nearest; try assumption.
  unfold nearest. rewrite rivals_maximal.
  - rewrite (@tied_ext _ (row_similarity A i) i (shape0 A) Hi); [exact Ht|].
    intros q Hq. now apply similarity_row_similarity.
  - intros q Hq. now apply similarity_diag_max.
Qed.

(** C10, as the code has it, in exact arithmetic.  With k >= 1, a row that
    normalize scales (its length is at least 10 eps) and that fewer than k
    other rows tie with at S[i,i] is in its own neighbour set: S[i,i] = 1
    is the largest entry of its row of S.  In get_W2 (k = k2) the row is
    then its own mutual neighbour, with its own label, and the diagonal
    entry is W2[i,i] = -lambda_2 * S[i,i] = -lambda_2, not 0. *)
Theorem get_W2_self_loops :
  (forall (A : ndarray R) (k : Z) (i : nat),
     accepted A -> (1 <= k)%Z -> (i < shape0 A)%nat ->
     ten_eps <= norm A i ->
     (Z.of_nat (tied (row_similarity A i) i (shape0 A)) < k)%Z ->
     exists S0 nb,
       get_kNNs argsort A k = ret (S0, nb) /\
       (forall j, (j < shape0 A)%nat ->
          get S0 i j = row_similarity A i j /\ get S0 i j <= get S0 i i) /\
       get S0 i i = 1 /\
       In i (nth i nb [])) /\
  (forall (self : SupEmb R) (i : nat),
     shape1 (XlA_pos self) = shape1 (XlA_neg self) ->
     accepted (XlA_of self) ->
     (1 <= k2 self)%Z ->
     let n := (shape0 (XlA_pos self) + shape0 (XlA_neg self))%nat in
     (i < n)%nat ->
     ten_eps <= norm (XlA_of self) i ->
     (Z.of_nat (tied (row_similarity (XlA_of self) i) i n) < k2 self)%Z ->
     exists (W2 : ndarray R) (self' : SupEmb R) (S0 : ndarray R)
            (nb : list (list nat)),
       get_kNNs argsort (XlA_of self) (k2 self) = ret (S0, nb) /\
       get_W2 argsort self = ret (W2, self') /\
       In i (nth i nb []) /\
       get S0 i i = 1 /\
       get W2 i i = - lambda_2 self * get S0 i i /\
       get W2 i i = - lambda_2 self).
Proof.
  split.
  - intros A k i HA Hk Hi Hn Ht.
    exists (similarity A), (neighbours_of argsort A k).
    split; [now apply get_kNNs_eq|].
    split.
    { intros j Hj. split; [now apply similarity_row_similarity|].
      now apply similarity_diag_max. }
    split; [now apply similarity_diag | now apply get_kNNs_self].
  - intros self i Hc HA Hk n Hi Hnorm Ht.
    destruct (@get_W2_eq argsort self Hc HA) as (self' & E & _).
    set (XlA0 := XlA_of self) in *.
    set (g := W2_assigned (lambda_2 self) (shape0 (XlA_pos self))
                (similarity XlA0) (neighbours_of argsort XlA0 (k2 self))) in *.
    assert (Hn : shape0 XlA0 = n)
      by (unfold XlA0, XlA_of, vstack, shape0; cbn [rows];
          now rewrite length_app).
    exists (fill g n n (zeros n n)), self', (similarity XlA0),
      (neighbours_of argsort XlA0 (k2 self)).
    split; [now apply get_kNNs_eq|].
    split; [exact E|].
    assert (Hself : In i (nth i (neighbours_of argsort XlA0 (k2 self)) [])).
    { apply get_kNNs_self; rewrite ?Hn; assumption. }
    assert (HW : get (fill g n n (zeros n n)) i i =
                 - lambda_2 self * get (similarity XlA0) i i).
    { rewrite (get_fill g (sized_zeros n n) Hi Hi).
      unfold g, W2_assigned.
      apply py_in_In in Hself. rewrite Hself. simpl.
      now rewrite eqb_reflx. }
    assert (Hd : get (similarity XlA0) i i = 1)
      by (apply similarity_diag; [rewrite Hn; exact Hi | exact Hnorm]).
    split; [exact Hself|].
    split; [exact Hd|].
    split; [exact HW|]. rewrite HW, Hd. lra.
Qed.

End SelfLoops.

(** ** The insertion argsort meets the argsort specification *)

Section InsertionArgsort.
Open Scope R_scope.


Lemma insert_by_ascending (a : list R) (x : nat) (l : list nat) :
  ascending a l ->
  ascending a (insert_by (fun i j => Rleb (nth i a 0) (nth j a 0)) x l).
Proof.
  unfold ascending. induction l as [|y t IH]; intros Hs; simpl.
  - constructor; constructor.
  - inversion Hs as [|? ? Hs' Hall]; subst.
    destruct (Rleb (nth x a 0) (nth y a 0)) eqn:E.
    + apply Rleb_true in E. constructor; [exact Hs|].
      constructor; [exact E|].
      rewrite Forall_forall in *. intros z Hz. specialize (Hall z Hz). lra.
    + apply Rleb_false in E. constructor; [now apply IH|].
      apply (Permutation_Forall
               (Permutation_sym (insert_by_perm _ x t))).
      constructor; [lra | exact Hall].
Qed.

Lemma argsort_ins_spec : argsort_spec (@argsort_ins R _).
Proof.
  intros a. split; [apply argsort_ins_perm|].
  unfold argsort_ins.
  induction (seq 0 (length a)) as [|x l IH]; simpl.
  - constructor.
  - apply (insert_by_ascending x IH).
Qed.

Lemma tied_le (v : nat -> R) (i n : nat) : (tied v i n <= n)%nat.
Proof.
  unfold tied.
  etransitivity; [apply filter_length_le | now rewrite length_seq].
Qed.
End InsertionArgsort.

(** The labelled rows of [self_labelled]: three rows of length 1, the
    first orthogonal to the other two. *)
Lemma labelled_accepted : accepted (XlA_of self_labelled).
Proof. apply accepted_R; cbv; lia. Qed.

Lemma labelled_norm (i : nat) :
  i < 3 -> norm (XlA_of self_labelled) i = 1%R.
Proof.
  intros Hi. unfold norm, sumsq.
  destruct i as [|[|[|i]]]; try lia; cbn;
    match goal with
    | |- R_sqrt.sqrt ?x = _ => replace x with 1%R by lra
    end; apply sqrt_1.
Qed.

Lemma labelled_direction (i k : nat) :
  i < 3 ->
  direction (XlA_of self_labelled) i k = get (XlA_of self_labelled) i k.
Proof.
  intros Hi. unfold direction. rewrite labelled_norm by assumption.
  destruct (Rlt_dec 1 ten_eps); [reflexivity | unfold Rdiv; lra].
Qed.

Lemma labelled_row_similarity (i j : nat) :
  i < 3 -> j < 3 ->
  row_similarity (XlA_of self_labelled) i j =
  ssum (map (fun k => get (XlA_of self_labelled) i k *
                      get (XlA_of self_labelled) j k)%R (seq 0 2)).
Proof.
  intros Hi Hj. unfold row_similarity.
  apply ssum_map_ext. intros k _. now rewrite !labelled_direction.
Qed.

Lemma labelled_tied :
  tied (row_similarity (XlA_of self_labelled) 0) 0 3 = 0.
Proof.
  unfold tied. cbn [seq filter Nat.eqb negb andb].
  rewrite !labelled_row_similarity by lia. cbn.
  rewrite !(proj2 (Reqb_false _ _)) by lra. reflexivity.
Qed.

Lemma get_W2_self_loops_witness :
  exists (W2 : ndarray R) (self' : SupEmb R) (S0 : ndarray R)
         (nb : list (list nat)),
    get_kNNs argsort_ins (XlA_of self_labelled) 1 = ret (S0, nb) /\
    get_W2 argsort_ins self_labelled = ret (W2, self') /\
    In 0 (nth 0 nb []) /\
    get S0 0 0 = 1%R /\
    get W2 0 0 = (- lambda_2 self_labelled * get S0 0 0)%R /\
    get W2 0 0 = (- lambda_2 self_labelled)%R.
Proof.
  refine (proj2 (get_W2_self_loops argsort_ins_spec) self_labelled 0
            eq_refl labelled_accepted _ _ _ _).
  - cbv. congruence.
  - cbv. lia.
  - rewrite labelled_norm by lia. unfold ten_eps. lra.
  - change (shape0 (XlA_pos self_labelled) + shape0 (XlA_neg self_labelled))
      with 3.
    rewrite labelled_tied. reflexivity.
Defined.


(** The rows (1, 1) and (3, 3) in binary64, with k2 = 1: S[0,0] comes out
    below S[0,1] = 1, so row 0 is not its own neighbour although no row
    ties with it, and W2[0,0] is 0. *)
Lemma get_W2_self_loops_counterexample :
  ~ self_loops_as_stated self_rounding.
Proof.
  intros Hs.
  assert (EC : concatenate0 (XlA_pos self_rounding) (XlA_neg self_rounding) =
               ret (mk_ndarray 2 [[1; 1]; [3; 3]]%float)) by reflexivity.
  eassert (EK : get_kNNs argsort_ins (mk_ndarray 2 [[1; 1]; [3; 3]]%float)
                  (k2 self_rounding) = ret (_, _))
    by (vm_compute; reflexivity).
  eassert (EW : get_W2 argsort_ins self_rounding = ret (_, _))
    by (vm_compute; reflexivity).
  specialize (Hs _ _ _ _ _ EC (f_equal fst EK) (f_equal fst EW) 0).
  destruct Hs as [Hf _];
    [cbv; lia | vm_compute; reflexivity |].
  vm_compute in Hf. discriminate.
Qed.

(** C3.  On every array that normalize accepts, whatever k is,
    get_W3(X, k) returns the full n x n similarity array S that get_kNNs
    computes for X: every entry W3[i,j] is S[i,j], neighbour or not, and
    the result does not depend on k.  On any other array it raises the
    ValueError of normalize.  In exact arithmetic S[i,j] is the inner
    product of rows i and j as normalize leaves them, which is the cosine
    of the two rows when both have length at least 10 eps. *)
Theorem get_W3_is_full_similarity :
  (forall (T : Type) (HS : Scalar T) (argsort : list T -> list nat)
          (X : ndarray T) (k : Z),
     (~ accepted X -> get_W3 argsort X k = raise ValueError) /\
     (accepted X ->
      exists (S0 W3 : ndarray T) (nb : list (list nat)),
        get_kNNs argsort X k = ret (S0, nb) /\
        get_W3 argsort X k = ret W3 /\
        shape W3 = (shape0 X, shape0 X) /\
        (forall i j, i < shape0 X -> j < shape0 X ->
           get W3 i j = get S0 i j) /\
        W3 = S0 /\
        (forall k' : Z, get_W3 argsort X k' = get_W3 argsort X k))) /\
  (forall (argsort : list R -> list nat) (X : ndarray R) (k : Z),
     accepted X ->
     exists W3 : ndarray R,
       get_W3 argsort X k = ret W3 /\
       forall i j, i < shape0 X -> j < shape0 X ->
         get W3 i j = row_similarity X i j /\
         ((ten_eps <= norm X i)%R -> (ten_eps <= norm X j)%R ->
          get W3 i j = cosine X i j)).
Proof.
  split.
  - intros T HS argsort X k. split; [apply get_W3_refused|]. intros HX.
    exists (similarity X), (similarity X), (neighbours_of argsort X k).
    split; [now apply get_kNNs_eq|].
    split; [now apply get_W3_eq|].
    split.
    { destruct (sized_similarity X) as (_ & H0 & H1). unfold shape.
      congruence. }
    split; [reflexivity|].
    split; [reflexivity|].
    intros k'. now rewrite !get_W3_eq.
  - intros argsort X k HX. exists (similarity X).
    split; [now apply get_W3_eq|].
    intros i j Hi Hj.
    split; [now apply similarity_row_similarity|].
    intros Ni Nj. now apply similarity_cosine.
Qed.

Lemma get_W3_is_full_similarity_witness :
  exists W3 : ndarray R,
    get_W3 argsort_ins (XlA_of self_labelled) 1 = ret W3 /\
    forall i j, i < shape0 (XlA_of self_labelled) ->
                j < shape0 (XlA_of self_labelled) ->
      get W3 i j = row_similarity (XlA_of self_labelled) i j /\
      ((ten_eps <= norm (XlA_of self_labelled) i)%R ->
       (ten_eps <= norm (XlA_of self_labelled) j)%R ->
       get W3 i j = cosine (XlA_of self_labelled) i j).
Proof.
  exact (proj2 get_W3_is_full_similarity argsort_ins
           (XlA_of self_labelled) 1%Z labelled_accepted).
Defined.

(** ** The projector: get_projection *)

Section Projector.
Context {T : Type} `{Scalar T}.
Variable sparsesvd : ndarray T -> nat -> M (ndarray T * list T * ndarray T).

Lemma shape_slice_cols (u : ndarray T) (a b : nat) :
  shape (slice_cols u a b) =
  (shape0 u, Nat.min b (shape1 u) - Nat.min a (shape1 u)).
Proof.
  unfold shape, slice_cols.
  now rewrite shape0_with_dtype, shape1_with_dtype,
              shape0_tabulate, shape1_tabulate.
Qed.

Lemma get_slice_cols (u : ndarray T) (a b i j : nat) :
  i < shape0 u -> a <= b -> b <= shape1 u -> j < b - a ->
  get (slice_cols u a b) i j = get u i (a + j).
Proof.
  intros Hi Hab Hb Hj. unfold slice_cols.
  rewrite !Nat.min_l by lia. now rewrite get_with_dtype, get_tabulate.
Qed.

Lemma get_projection_returns (self : SupEmb T) (Q : ndarray T)
    (ut : ndarray T) (s : list T) (vt : ndarray T) :
  returns (sparsesvd Q (dims self)) (ut, s, vt) ->
  returns (get_projection sparsesvd self Q)
    (slice_cols ut 0 (d self), slice_cols ut (d self) (shape1 ut)).
Proof.
  unfold returns, get_projection. intros E.
  destruct (sparsesvd Q (dims self)) as [[e|usv] l]; cbn [fst] in E;
    [discriminate|].
  injection E as ->. reflexivity.
Qed.

Lemma get_projection_raises (self : SupEmb T) (Q : ndarray T) (e : exn) :
  raises (sparsesvd Q (dims self)) e <->
  raises (get_projection sparsesvd self Q) e.
Proof.
  unfold raises, get_projection.
  destruct (sparsesvd Q (dims self)) as [[e'|[[ut s] vt]] l];
    simpl; split; intros E;
    first [discriminate E | injection E as ->; reflexivity].
Qed.

(** C5, as the code has it.  get_projection(Q) raises what sparsesvd
    raises and returns when sparsesvd returns.  With (ut, s, vt) the triple
    returned, ut holding one left singular vector of d + h entries per
    row: Pa = ut[:, :d] has shape (r, d) and Pb = ut[:, d:] has shape
    (r, h), r being the number of rows of ut. *)
Theorem get_projection_shapes (self : SupEmb T) (Q : ndarray T) :
  (forall e, raises (sparsesvd Q (dims self)) e <->
             raises (get_projection sparsesvd self Q) e) /\
  (forall (ut : ndarray T) (s : list T) (vt : ndarray T),
     returns (sparsesvd Q (dims self)) (ut, s, vt) ->
     shape1 ut = d self + h self ->
     exists Pa Pb : ndarray T,
       returns (get_projection sparsesvd self Q) (Pa, Pb) /\
       shape Pa = (shape0 ut, d self) /\
       shape Pb = (shape0 ut, h self) /\
       (forall i j, i < shape0 ut -> j < d self ->
          get Pa i j = get ut i j) /\
       (forall i j, i < shape0 ut -> j < h self ->
          get Pb i j = get ut i (d self + j))).
Proof.
  split; [intros e; apply get_projection_raises|].
  intros ut s vt E Hu.
  exists (slice_cols ut 0 (d self)), (slice_cols ut (d self) (shape1 ut)).
  split; [now apply get_projection_returns with (s := s) (vt := vt)|].
  rewrite !shape_slice_cols, Hu.
  split; [f_equal; lia|].
  split; [f_equal; lia|].
  split.
  - intros i j Hi Hj. rewrite get_slice_cols by lia. reflexivity.
  - intros i j Hi Hj. rewrite get_slice_cols by lia. reflexivity.
Qed.

End Projector.

(** With d = 2 and h = 1 no array u gives Pa = u[:, :d] two rows and
    Pb = u[:, d:] one row: whatever sparsesvd does on the 3 x 3 symmetric
    Q, with dims = 1 < d + h, the shapes are not (d, dims) and (h, dims). *)
Lemma get_projection_shapes_counterexample :
  shape Q_diag = (d self_proj + h self_proj, d self_proj + h self_proj) /\
  dims self_proj < d self_proj + h self_proj /\
  transpose Q_diag = Q_diag /\
  forall sparsesvd : ndarray R -> nat -> M (ndarray R * list R * ndarray R),
    ~ projection_shapes_as_stated sparsesvd self_proj Q_diag.
Proof.
  split; [reflexivity|].
  split; [cbv; lia|].
  split; [reflexivity|].
  intros svd (Pa & Pb & E & Ha & Hb).
  unfold returns, get_projection in E.
  destruct (svd Q_diag (dims self_proj)) as [[e|[[ut s] vt]] l];
    simpl in E; [discriminate|].
  injection E as <- <-.
  rewrite shape_slice_cols in Ha, Hb.
  injection Ha as Ha _. injection Hb as Hb _.
  change (d self_proj) with 2 in Ha. change (h self_proj) with 1 in Hb.
  congruence.
Qed.

Lemma get_projection_shapes_witness :
  exists Pa Pb : ndarray R,
    returns (get_projection svd_diagonal self_proj Q_diag) (Pa, Pb) /\
    shape Pa = (1, d self_proj) /\
    shape Pb = (1, h self_proj) /\
    (forall i j, i < 1 -> j < d self_proj ->
       get Pa i j = get (tabulate 1 3 (fun i j => if Nat.eqb i j then 1%R
                                                  else 0%R)) i j) /\
    (forall i j, i < 1 -> j < h self_proj ->
       get Pb i j = get (tabulate 1 3 (fun i j => if Nat.eqb i j then 1%R
                                                  else 0%R))
                        i (d self_proj + j)).
Proof.
  exact (proj2 (get_projection_shapes svd_diagonal self_proj Q_diag)
           _ _ _ eq_refl eq_refl).
Defined.

(** ** The array operations when the shapes fit *)

Section ShapesFit.
Context {T : Type} `{Scalar T}.

Lemma bind_ret {A B} (a : A) (f : A -> M B) : bind (ret a) f = f a.
Proof. unfold bind, ret. now destruct (f a). Qed.

Lemma fst_bind {A B} (a : A) (l : list event) (f : A -> M B) :
  fst (bind (inr a, l) f) = fst (f a).
Proof. unfold bind. now destruct (f a). Qed.

Lemma snd_bind {A B} (a : A) (l : list event) (f : A -> M B) :
  snd (bind (inr a, l) f) = l ++ snd (f a).
Proof. unfold bind. now destruct (f a). Qed.

Lemma dot_eq (A B : ndarray T) :
  shape1 A = shape0 B -> dot A B = ret (matmul A B).
Proof. intros E. unfold dot. apply Nat.eqb_eq in E. now rewrite E. Qed.

Lemma subtract_eq (A B : ndarray T) :
  shape0 A = shape0 B -> shape1 A = shape1 B ->
  subtract A B = ret (difference A B).
Proof.
  intros E0 E1. unfold subtract, difference.
  rewrite <- E0, <- E1, !broadcast_refl. unfold ret. f_equal. f_equal.
  f_equal. apply tabulate_ext. intros i j Hi Hj.
  rewrite !bget_get by lia. reflexivity.
Qed.

Lemma concatenate1_eq (A B : ndarray T) :
  shape0 A = shape0 B -> concatenate1 A B = ret (hstack A B).
Proof. intros E. unfold concatenate1. apply Nat.eqb_eq in E. now rewrite E. Qed.

Lemma concatenate0_eq (A B : ndarray T) :
  shape1 A = shape1 B -> concatenate0 A B = ret (vstack A B).
Proof. intros E. unfold concatenate0. apply Nat.eqb_eq in E. now rewrite E. Qed.

Lemma shape0_vstack (A B : ndarray T) :
  shape0 (vstack A B) = shape0 A + shape0 B.
Proof. unfold shape0, vstack; cbn [rows]. apply length_app. Qed.

Lemma shape1_vstack (A B : ndarray T) : shape1 (vstack A B) = shape1 A.
Proof. reflexivity. Qed.

Lemma get_vstack (A B : ndarray T) (i j : nat) :
  get (vstack A B) i j =
  if Nat.ltb i (shape0 A) then get A i j else get B (i - shape0 A) j.
Proof.
  unfold get, vstack, shape0; cbn [rows].
  destruct (Nat.ltb_spec i (length (rows A))).
  - now rewrite app_nth1.
  - now rewrite app_nth2.
Qed.

Lemma shape0_matmul (A B : ndarray T) : shape0 (matmul A B) = shape0 A.
Proof. unfold matmul. now rewrite shape0_with_dtype, shape0_tabulate. Qed.

Lemma wf_matmul (A B : ndarray T) : wf (matmul A B).
Proof. apply wf_with_dtype, wf_tabulate. Qed.

Lemma wf_transpose (A : ndarray T) : wf (transpose A).
Proof. apply wf_with_dtype, wf_tabulate. Qed.

Lemma dtype_matmul_float_l (A B : ndarray T) :
  dtype_of A = float64 -> dtype_of (matmul A B) = float64.
Proof. intros E. unfold matmul. now rewrite dtype_with_dtype, E. Qed.

Lemma dtype_matmul_float_r (A B : ndarray T) :
  dtype_of B = float64 -> dtype_of (matmul A B) = float64.
Proof.
  intros E. unfold matmul. rewrite dtype_with_dtype, E.
  now destruct (dtype_of A).
Qed.

Lemma dtype_transpose (A : ndarray T) : dtype_of (transpose A) = dtype_of A.
Proof. apply dtype_with_dtype. Qed.

Lemma shape1_matmul (A B : ndarray T) : shape1 (matmul A B) = shape1 B.
Proof. reflexivity. Qed.

Lemma shape0_transpose (A : ndarray T) : shape0 (transpose A) = shape1 A.
Proof. unfold transpose. now rewrite shape0_with_dtype, shape0_tabulate. Qed.

Lemma shape1_transpose (A : ndarray T) : shape1 (transpose A) = shape0 A.
Proof. reflexivity. Qed.

Lemma get_transpose (A : ndarray T) (i j : nat) :
  i < shape1 A -> j < shape0 A -> get (transpose A) i j = get A j i.
Proof.
  intros Hi Hj. unfold transpose. now rewrite get_with_dtype, get_tabulate.
Qed.

Lemma shape0_hstack (A B : ndarray T) : shape0 (hstack A B) = shape0 A.
Proof. unfold hstack. now rewrite shape0_with_dtype, shape0_tabulate. Qed.

Lemma shape1_hstack (A B : ndarray T) :
  shape1 (hstack A B) = shape1 A + shape1 B.
Proof. reflexivity. Qed.

Lemma shape0_difference (A B : ndarray T) : shape0 (difference A B) = shape0 A.
Proof. unfold difference. now rewrite shape0_with_dtype, shape0_tabulate. Qed.

Lemma shape1_difference (A B : ndarray T) : shape1 (difference A B) = shape1 A.
Proof. reflexivity. Qed.

Lemma shape0_scale (x : T) (A : ndarray T) : shape0 (scale x A) = shape0 A.
Proof. apply shape0_tabulate. Qed.

Lemma shape1_scale (x : T) (A : ndarray T) : shape1 (scale x A) = shape1 A.
Proof. reflexivity. Qed.

Lemma shape0_zeros r c : shape0 (@zeros T _ r c) = r.
Proof. apply shape0_tabulate. Qed.

Lemma shape1_zeros r c : shape1 (@zeros T _ r c) = c.
Proof. reflexivity. Qed.

Lemma shape0_diag (s : list T) : shape0 (diag s) = length s.
Proof. apply shape0_tabulate. Qed.

Lemma shape1_diag (s : list T) : shape1 (diag s) = length s.
Proof. reflexivity. Qed.
End ShapesFit.

Create Rewrite HintDb shapes.
#[export] Hint Rewrite @shape0_vstack @shape1_vstack @shape0_matmul
  @shape1_matmul @shape0_transpose @shape1_transpose @shape0_hstack
  @shape1_hstack @shape0_difference @shape1_difference @shape0_scale
  @shape1_scale @shape0_zeros @shape1_zeros @shape0_diag @shape1_diag
  @shape0_tabulate @shape1_tabulate @shape0_with_dtype @shape1_with_dtype
  @shape0_Laplacian @shape1_Laplacian : shapes.

(** ** Symmetric arrays *)

Section Symmetry.
Open Scope R_scope.

Lemma get_matmul (A B : ndarray R) (i j : nat) :
  (i < shape0 A)%nat -> (j < shape1 B)%nat ->
  get (matmul A B) i j =
  ssum (map (fun k => get A i k * get B k j) (seq 0 (shape1 A))).
Proof.
  intros Hi Hj. unfold matmul. now rewrite get_with_dtype, get_tabulate.
Qed.

(** P.T * L * P is symmetric when L is. *)
Lemma sandwich_symmetric (P L : ndarray R) (n : nat) :
  shape0 P = n -> shape0 L = n -> shape1 L = n -> symmetric n L ->
  symmetric (shape1 P) (matmul (matmul (transpose P) L) P).
Proof.
  intros HP HL0 HL1 Hsym.
  assert (E : forall a b, (a < shape1 P)%nat -> (b < shape1 P)%nat ->
            get (matmul (matmul (transpose P) L) P) a b =
            ssum (map (fun k => ssum (map (fun l =>
                    get P l a * get L l k * get P k b) (seq 0 n))) (seq 0 n))).
  { intros a b Ha Hb.
    rewrite get_matmul
      by (autorewrite with shapes; assumption).
    autorewrite with shapes. rewrite HL1.
    apply ssum_map_ext. intros k Hk. apply in_seq in Hk.
    rewrite get_matmul by (autorewrite with shapes; lia).
    autorewrite with shapes. rewrite HP.
    rewrite <- ssum_map_mul_r. apply ssum_map_ext. intros l Hl.
    apply in_seq in Hl. rewrite get_transpose by lia. reflexivity. }
  intros a b Ha Hb. rewrite !E by assumption.
  rewrite ssum_exchange.
  apply ssum_map_ext. intros k Hk. apply in_seq in Hk.
  apply ssum_map_ext. intros l Hl. apply in_seq in Hl.
  rewrite (Hsym k l) by lia. ring.
Qed.

Lemma Laplacian_symmetric (W : ndarray R) (n : nat) :
  shape0 W = n -> symmetric n W -> symmetric n (Laplacian W).
Proof.
  intros Hn Hsym i j Hi Hj. unfold Laplacian. rewrite Hn.
  rewrite ?get_with_dtype, !get_tabulate by assumption. unfold Laplacian_entry.
  rewrite (Hsym i j) by assumption.
  destruct (Nat.eqb_spec i j) as [->|Hne].
  - now rewrite Nat.eqb_refl.
  - destruct (Nat.eqb_spec j i); [congruence | reflexivity].
Qed.

Lemma similarity_symmetric (A : ndarray R) :
  symmetric (shape0 A) (similarity A).
Proof.
  intros i j Hi Hj. rewrite !similarity_entry by assumption.
  apply ssum_map_ext. intros k _. ring.
Qed.

Lemma W1_symmetric (M0 : nat) :
  symmetric (2 * M0) (tabulate (2 * M0) (2 * M0) (@W1_entry R _ M0)).
Proof.
  intros i j Hi Hj. rewrite ?get_with_dtype, !get_tabulate by assumption.
  unfold W1_entry. now rewrite orb_comm.
Qed.

Lemma W2_symmetric (lam : R) (pos n : nat) (S0 : ndarray R)
    (nb : list (list nat)) :
  symmetric n S0 ->
  symmetric n (fill (W2_assigned lam pos S0 nb) n n (zeros n n)).
Proof.
  intros Hsym i j Hi Hj.
  rewrite !(get_fill _ (sized_zeros n n)) by assumption.
  unfold W2_assigned.
  rewrite (andb_comm (py_in i (nth j nb []))).
  rewrite (Hsym j i) by assumption.
  replace (Bool.eqb (Nat.ltb j pos) (Nat.ltb i pos))
    with (Bool.eqb (Nat.ltb i pos) (Nat.ltb j pos))
    by (now destruct (Nat.ltb i pos), (Nat.ltb j pos)).
  destruct (_ && _); [reflexivity|].
  unfold zeros. now rewrite ?get_with_dtype, !get_tabulate by assumption.
Qed.

Lemma scale_symmetric (x : R) (W : ndarray R) (n : nat) :
  shape0 W = n -> shape1 W = n -> symmetric n W -> symmetric n (scale x W).
Proof.
  intros H0 H1 Hsym i j Hi Hj. unfold scale. rewrite H0, H1.
  rewrite ?get_with_dtype, !get_tabulate by assumption. now rewrite (Hsym i j).
Qed.

Lemma difference_symmetric (A B : ndarray R) (n : nat) :
  shape0 A = n -> shape1 A = n ->
  symmetric n A -> symmetric n B -> symmetric n (difference A B).
Proof.
  intros H0 H1 HA HB i j Hi Hj. unfold difference. rewrite H0, H1.
  rewrite ?get_with_dtype, !get_tabulate by assumption.
  now rewrite (HA i j), (HB i j).
Qed.

(** The block array [[Q11, O], [O.T, Q22]]. *)
Lemma blocks_symmetric (Q11 Q22 : ndarray R) (d0 h0 : nat) :
  shape0 Q11 = d0 -> shape1 Q11 = d0 -> shape0 Q22 = h0 -> shape1 Q22 = h0 ->
  symmetric d0 Q11 -> symmetric h0 Q22 ->
  symmetric (d0 + h0)
    (vstack (hstack Q11 (zeros d0 h0))
            (hstack (transpose (zeros d0 h0)) Q22)).
Proof.
  intros A0 A1 B0 B1 HA HB i j Hi Hj.
  rewrite !get_vstack. autorewrite with shapes. rewrite A0.
  unfold hstack. autorewrite with shapes. rewrite A0, A1, B1.
  destruct (Nat.ltb_spec i d0), (Nat.ltb_spec j d0);
    rewrite ?get_with_dtype, !get_tabulate by lia.
  - destruct (Nat.ltb_spec j d0), (Nat.ltb_spec i d0); try lia.
    now apply HA.
  - destruct (Nat.ltb_spec j d0), (Nat.ltb_spec i d0); try lia.
    rewrite get_transpose by (autorewrite with shapes; lia).
    reflexivity.
  - destruct (Nat.ltb_spec j d0), (Nat.ltb_spec i d0); try lia.
    rewrite get_transpose by (autorewrite with shapes; lia).
    reflexivity.
  - destruct (Nat.ltb_spec j d0), (Nat.ltb_spec i d0); try lia.
    apply HB; lia.
Qed.

Lemma symmetric_transpose (W : ndarray R) (n : nat) :
  wf W -> shape0 W = n -> shape1 W = n -> symmetric n W -> transpose W = W.
Proof.
  intros Hwf H0 H1 Hsym.
  apply ndarray_ext; [apply wf_tabulate | exact Hwf | | reflexivity |].
  - unfold shape. autorewrite with shapes. congruence.
  - intros i j Hi Hj. autorewrite with shapes in Hi, Hj.
    rewrite get_transpose by lia. apply Hsym; lia.
Qed.
End Symmetry.

(** ** The joint embedding: get_embedding *)

Section Embedding.
Open Scope R_scope.
Variable argsort : list R -> list nat.

Lemma shape0_Dinv (W : ndarray R) : shape0 (Dinv W) = shape0 W.
Proof.
  unfold Dinv. now rewrite shape0_diag, length_map, length_Dinv_sums.
Qed.

Lemma shape1_Dinv (W : ndarray R) : shape1 (Dinv W) = shape0 W.
Proof.
  unfold Dinv. now rewrite shape1_diag, length_map, length_Dinv_sums.
Qed.

Lemma shape0_similarity (A : ndarray R) : shape0 (similarity A) = shape0 A.
Proof. apply shape_similarity. Qed.

Lemma shape1_similarity (A : ndarray R) : shape1 (similarity A) = shape0 A.
Proof. apply shape_similarity. Qed.

Lemma shape0_W2_of (self : SupEmb R) :
  shape0 (W2_of argsort self) =
  (shape0 (XlA_pos self) + shape0 (XlA_neg self))%nat.
Proof. unfold W2_of. apply (sized_fill _ (sized_zeros _ _)). Qed.

Lemma shape1_W2_of (self : SupEmb R) :
  shape1 (W2_of argsort self) =
  (shape0 (XlA_pos self) + shape0 (XlA_neg self))%nat.
Proof. unfold W2_of. apply (sized_fill _ (sized_zeros _ _)). Qed.

Lemma shape0_quadratic_form (D X tot L : ndarray R) :
  shape0 (quadratic_form D X tot L) = shape1 tot.
Proof. unfold quadratic_form. now autorewrite with shapes. Qed.

Lemma shape1_quadratic_form (D X tot L : ndarray R) :
  shape1 (quadratic_form D X tot L) = shape1 tot.
Proof. reflexivity. Qed.

Lemma fst_bind_ret {A B} (a : A) (f : A -> M B) :
  fst (bind (ret a) f) = fst (f a).
Proof. apply fst_bind. Qed.
End Embedding.

#[export] Hint Rewrite length_map @length_Dinv_sums shape0_Laplacian
  shape1_Laplacian shape0_Dinv shape1_Dinv shape0_similarity shape1_similarity shape0_W2_of shape1_W2_of
  shape0_quadratic_form shape1_quadratic_form : shapes.

Section EmbeddingRun.
Open Scope R_scope.
Variable argsort : list R -> list nat.

Lemma get_Laplacian_eq (W : ndarray R) :
  shape0 W = shape1 W -> get_Laplacian W = ret (Laplacian W).
Proof. exact (get_Laplacian_table W). Qed.

Lemma instances_accepted (self : SupEmb R) :
  instances_present self ->
  accepted (XlA_of self) /\ accepted (XuA self) /\ accepted (XuB self).
Proof.
  intros (P1 & P2 & P3 & P4 & P5 & P6).
  repeat split; try assumption; try apply finite_R;
    unfold XlA_of; autorewrite with shapes; assumption.
Qed.

Lemma get_U1_eq (self : SupEmb R) :
  embedding_shapes self -> get_U1 self = ret (U1_of self).
Proof.
  intros (HM & Hd & Hh & (I1 & I2 & I3 & I4 & I5 & I6) & I7 & I8).
  unfold get_U1, U1_of.
  rewrite concatenate1_eq by (autorewrite with shapes; lia).
  rewrite bind_ret.
  rewrite concatenate1_eq by (autorewrite with shapes; lia).
  rewrite bind_ret.
  rewrite concatenate0_eq by (autorewrite with shapes; lia).
  rewrite bind_ret. reflexivity.
Qed.

Lemma snd_bind_ret {A B} (a : A) (f : A -> M B) :
  snd (bind (ret a) f) = snd (f a).
Proof. unfold ret. now rewrite snd_bind. Qed.

(** One pass over the body of get_embedding: [pure] discharges a step that
    returns without a warning, [logged] a call of get_Dinv. *)
Ltac shapes_fit := autorewrite with shapes; lia.

Ltac run_quadratic pure :=
  rewrite dot_eq by (unfold XlA_of; shapes_fit); pure;
  rewrite dot_eq by (unfold XlA_of; shapes_fit); pure;
  rewrite dot_eq by (unfold XlA_of; shapes_fit); pure;
  rewrite dot_eq by (unfold XlA_of; shapes_fit); pure.

Ltac run_embedding self self' EW2 EX pure logged :=
  unfold get_embedding;
  rewrite get_W1_table; pure;
  rewrite get_Laplacian_eq by shapes_fit; pure;
  rewrite get_U1_eq by assumption; pure;
  rewrite dot_eq by (unfold U1_of; shapes_fit); pure;
  rewrite dot_eq by (unfold U1_of; shapes_fit); pure;
  rewrite EW2; pure; cbv beta iota;
  repeat match goal with
         | E : _ self' = _ self |- _ => rewrite E
         end;
  rewrite EX;
  rewrite get_Laplacian_eq by shapes_fit; pure;
  unfold attr; pure;
  rewrite get_Dinv_eq; logged;
  rewrite concatenate0_eq by shapes_fit; pure;
  run_quadratic pure;
  rewrite get_W3_eq by assumption; pure;
  rewrite get_Laplacian_eq by shapes_fit; pure;
  rewrite get_Dinv_eq; logged;
  run_quadratic pure;
  rewrite get_W3_eq by assumption; pure;
  rewrite get_Laplacian_eq by shapes_fit; pure;
  rewrite get_Dinv_eq; logged;
  rewrite concatenate0_eq by shapes_fit; pure;
  run_quadratic pure;
  rewrite subtract_eq by shapes_fit; pure;
  rewrite concatenate1_eq by shapes_fit; pure;
  rewrite concatenate1_eq by shapes_fit; pure;
  rewrite concatenate0_eq by shapes_fit; pure;
  rewrite subtract_eq by (unfold U1_of; shapes_fit); pure.

(** When the shapes fit, get_embedding returns the array [Q_of], and the
    warnings it leaves are those of its three calls of get_Dinv. *)
Lemma get_embedding_eq (self : SupEmb R) :
  embedding_shapes self ->
  exists self',
    fst (get_embedding argsort self) = inr (Q_of argsort self, self') /\
    snd (get_embedding argsort self) =
      Dinv_log (XlA_of self) ++ Dinv_log (XuA self) ++ Dinv_log (XuB self).
Proof.
  intros Hs. assert (Hs' := Hs).
  destruct Hs' as (HM & Hd & Hh & (I1 & I2 & I3 & I4 & I5 & I6) & I7 & I8).
  destruct (instances_accepted I8) as (HXl & HXa & HXb).
  destruct (@get_W2_eq argsort self I4 HXl)
    as (self' & EW2 & EX & F1 & F2 & F3 & F4 & F5 & F6 & F7 & F8 & F9 &
        F10 & F11 & F12 & F13 & F14).
  assert (EW2' : get_W2 argsort self = ret (W2_of argsort self, self'))
    by exact EW2.
  assert (EX' : XlA self' = Some (XlA_of self)) by exact EX.
  clear EW2 EX. exists self'. split.
  - run_embedding self self' EW2' EX'
      ltac:(rewrite fst_bind_ret) ltac:(rewrite fst_bind).
    reflexivity.
  - run_embedding self self' EW2' EX'
      ltac:(rewrite snd_bind_ret) ltac:(rewrite snd_bind).
    cbn [snd ret]. now rewrite app_nil_r.
Qed.
End EmbeddingRun.

Section EmbeddingSymmetry.
Open Scope R_scope.
Variable argsort : list R -> list nat.

Lemma quadratic_form_symmetric (D X tot L : ndarray R) (n : nat) :
  shape0 D = n -> shape0 L = n -> shape1 L = n -> symmetric n L ->
  symmetric (shape1 tot) (quadratic_form D X tot L).
Proof.
  intros HD HL0 HL1 Hsym. unfold quadratic_form.
  apply (@sandwich_symmetric (matmul (matmul D X) tot) L n);
    try assumption.
  now autorewrite with shapes.
Qed.

Lemma Q_of_symmetric (self : SupEmb R) :
  embedding_shapes self ->
  symmetric (d self + h self) (Q_of argsort self).
Proof.
  intros (HM & Hd & Hh & (I1 & I2 & I3 & I4 & I5 & I6) & I7 & I8).
  unfold Q_of.
  assert (HF2 : symmetric (d self)
            (quadratic_form (Dinv (XlA_of self)) (XlA_of self)
               (vstack (Ua self) (A_ self)) (Laplacian (W2_of argsort self)))).
  { replace (d self) with (shape1 (vstack (Ua self) (A_ self)))
      by (autorewrite with shapes; lia).
    apply quadratic_form_symmetric
      with (n := (shape0 (XlA_pos self) + shape0 (XlA_neg self))%nat);
      try (unfold XlA_of; autorewrite with shapes; lia).
    apply Laplacian_symmetric; [apply shape0_W2_of|].
    unfold W2_of. apply W2_symmetric.
    replace (shape0 (XlA_pos self) + shape0 (XlA_neg self))%nat
      with (shape0 (XlA_of self))
      by (unfold XlA_of; now autorewrite with shapes).
    apply similarity_symmetric. }
  assert (HF3 : symmetric (d self)
            (quadratic_form (Dinv (XuA self)) (XuA self)
               (vstack (Ua self) (A_ self))
               (Laplacian (similarity (XuA self))))).
  { replace (d self) with (shape1 (vstack (Ua self) (A_ self)))
      by (autorewrite with shapes; lia).
    apply quadratic_form_symmetric with (n := shape0 (XuA self));
      try (autorewrite with shapes; lia).
    apply Laplacian_symmetric; [apply shape0_similarity|].
    apply similarity_symmetric. }
  assert (HF3b : symmetric (h self)
            (quadratic_form (Dinv (XuB self)) (XuB self)
               (vstack (Ub self) (B_ self))
               (Laplacian (similarity (XuB self))))).
  { replace (h self) with (shape1 (vstack (Ub self) (B_ self)))
      by (autorewrite with shapes; lia).
    apply quadratic_form_symmetric with (n := shape0 (XuB self));
      try (autorewrite with shapes; lia).
    apply Laplacian_symmetric; [apply shape0_similarity|].
    apply similarity_symmetric. }
  apply difference_symmetric.
  - autorewrite with shapes. lia.
  - autorewrite with shapes. lia.
  - apply blocks_symmetric; try (autorewrite with shapes; lia).
    + apply difference_symmetric; try (autorewrite with shapes; lia).
      * apply scale_symmetric; try (autorewrite with shapes; lia).
        exact HF2.
      * apply scale_symmetric; try (autorewrite with shapes; lia).
        exact HF3.
    + apply scale_symmetric; try (autorewrite with shapes; lia).
      exact HF3b.
  - replace (d self + h self)%nat with (shape1 (U1_of self))
      by (unfold U1_of; autorewrite with shapes; lia).
    apply sandwich_symmetric with (n := (2 * M_ self)%nat);
      try (unfold U1_of; autorewrite with shapes; lia).
    apply Laplacian_symmetric; [now autorewrite with shapes|].
    apply W1_symmetric.
Qed.

End EmbeddingSymmetry.

Section NoDivision.
Open Scope R_scope.


End NoDivision.

Lemma embedding_shapes_example : embedding_shapes self_example.
Proof. repeat split; try reflexivity; cbv; lia. Qed.



(** ** The symmetry check in floating point *)


(** The same run, looked at: the constructor accepts the arrays, the run
    warns of a division by zero, and Q[0,0] is NaN. *)
Example init_zero_labelled :
  init (one_by_one 1) (one_by_one 1) (one_by_one 2) (one_by_one 3)
    zero_labelled zero_labelled XuA_f XuB_f = ret self_zero_labelled.
Proof. vm_compute. reflexivity. Qed.

Example get_embedding_zero_labelled_nan :
  exists Q self',
    fst (get_embedding argsort_ins self_zero_labelled) = inr (Q, self') /\
    In DivideByZero (warnings (get_embedding argsort_ins self_zero_labelled)) /\
    PrimFloat.is_nan (get Q 0 0) = true.
Proof.
  eexists. eexists. split; [vm_compute; reflexivity|].
  split; [vm_compute; now left | vm_compute; reflexivity].
Qed.

(** A run in binary64 on labelled rows that are not zero: no division by
    zero, and Q passes the symmetry check (Q[2,3] and Q[3,2] differ in the
    last bits). *)
Example get_embedding_regular_within_tolerance :
  exists Q self',
    fst (get_embedding argsort_ins self_regular) = inr (Q, self') /\
    ~ In DivideByZero (warnings (get_embedding argsort_ins self_regular)) /\
    shape Q = (4, 4) /\
    within_tolerance (1 / 1000000)%float 4 Q = true.
Proof.
  eexists. eexists. split; [vm_compute; reflexivity|].
  split.
  - vm_compute. intros [C|[C|[C|[]]]]; discriminate C.
  - split; vm_compute; reflexivity.
Qed.


(** The run on the large entries: the constructor accepts them, nothing
    is divided by zero, and Q fails the symmetry check. *)
Example get_embedding_scaled_out_of_tolerance :
  init (Ua self_scaled) (Ub self_scaled) (A_ self_scaled) (B_ self_scaled)
    (XlA_pos self_scaled) (XlA_neg self_scaled) (XuA self_scaled)
    (XuB self_scaled) = ret self_scaled /\
  exists Q self',
    fst (get_embedding argsort_ins self_scaled) = inr (Q, self') /\
    ~ In DivideByZero (warnings (get_embedding argsort_ins self_scaled)) /\
    shape Q = (4, 4) /\
    within_tolerance (1 / 1000000)%float 4 Q = false.
Proof.
  split; [vm_compute; reflexivity|].
  eexists. eexists. split; [vm_compute; reflexivity|].
  split.
  - vm_compute. intros [C|[C|[C|[]]]]; discriminate C.
  - split; vm_compute; reflexivity.
Qed.

(** ** Runs in binary64 *)

(** The mean of the totals (2^-1074, 0) rounds to 0: the zero total is
    replaced by 0 and inverted, although one total is not zero. *)
Example get_Dinv_underflow :
  In (LogWarning 1) (warnings (get_Dinv W_tiny)) /\
  In DivideByZero (warnings (get_Dinv W_tiny)).
Proof. vm_compute. split; [now left | right; now left]. Qed.

Example get_W1_two :
  @get_W1 float _ 2 =
  ret (mk_ndarray 4
         [[0; 0; 1; 0]; [0; 0; 0; 1]; [1; 0; 0; 0]; [0; 1; 0; 0]]%float).
Proof. vm_compute. reflexivity. Qed.

Example get_Laplacian_two :
  get_Laplacian (mk_ndarray 2 [[1; 2]; [3; 4]]%float) =
  ret (mk_ndarray 2 [[-2; 2]; [3; -3]]%float).
Proof. vm_compute. reflexivity. Qed.

(** A zero row next to a nonzero one: the zero total becomes the mean. *)
Example get_Dinv_zero_row :
  get_Dinv (mk_ndarray 2 [[1; 1]; [0; 0]]%float) =
  (inr (mk_ndarray 2 [[0.5; 0]; [0; 1]]%float), [LogWarning 1]).
Proof. vm_compute. reflexivity. Qed.

(** No zero row: the perturbation is logged all the same. *)
Example get_Dinv_no_zero_row :
  get_Dinv (mk_ndarray 2 [[1; 1]; [2; 2]]%float) =
  (inr (mk_ndarray 2 [[0.5; 0]; [0; 0.25]]%float), [LogWarning 1]).
Proof. vm_compute. reflexivity. Qed.

(** Only zero rows: nothing is perturbed, and 1/mean = 1/0 is infinite. *)
Example get_Dinv_all_zero :
  get_Dinv (mk_ndarray 2 [[0; 0]; [0; 0]]%float) =
  (inr (mk_ndarray 2 [[infinity; 0]; [0; infinity]]%float), [DivideByZero]).
Proof. vm_compute. reflexivity. Qed.

(** The signs of Rule 2: -lambda_2 * S on the diagonal (same label), +S
    between the positive and the negative row. *)
Example get_W2_signs :
  exists self',
    get_W2 argsort_ins self_two_labels =
    ret (mk_ndarray 2 [[-1; 1]; [1; -1]]%float, self').
Proof. eexists. vm_compute. reflexivity. Qed.

(** * Further properties of the methods *)

(** ** get_U1 *)

Section BlockDiagonal.
Context {T : Type} `{Scalar T}.

Lemma get_zeros r c i j : i < r -> j < c -> get (@zeros T _ r c) i j = s0.
Proof. intros Hi Hj. unfold zeros. now rewrite ?get_with_dtype, get_tabulate. Qed.

Lemma get_hstack (A B : ndarray T) (i j : nat) :
  i < shape0 A -> j < shape1 A + shape1 B ->
  get (hstack A B) i j =
  if Nat.ltb j (shape1 A) then get A i j else get B i (j - shape1 A).
Proof. intros Hi Hj. unfold hstack. now rewrite ?get_with_dtype, get_tabulate. Qed.

Lemma get_U1_ret (self : SupEmb T) :
  M_ self = shape0 (Ua self) -> shape0 (Ua self) = shape0 (Ub self) ->
  d self = shape1 (Ua self) -> h self = shape1 (Ub self) ->
  get_U1 self =
  ret (vstack (hstack (Ua self) (zeros (M_ self) (h self)))
              (hstack (zeros (M_ self) (d self)) (Ub self))).
Proof.
  intros HM HU Hd Hh. unfold get_U1.
  rewrite concatenate1_eq by (autorewrite with shapes; lia).
  rewrite bind_ret.
  rewrite concatenate1_eq by (autorewrite with shapes; lia).
  rewrite bind_ret.
  rewrite concatenate0_eq by (autorewrite with shapes; lia).
  now rewrite bind_ret.
Qed.

(** X1. On an object as the constructor leaves it, get_U1 returns the
    2M x (d+h) array [[Ua, O], [O, Ub]]: Ua in the top left block, Ub in the
    bottom right block, zeros in the two other blocks. *)
Theorem get_U1_block_diagonal (self : SupEmb T) :
  M_ self = shape0 (Ua self) -> shape0 (Ua self) = shape0 (Ub self) ->
  d self = shape1 (Ua self) -> h self = shape1 (Ub self) ->
  exists U1 : ndarray T,
    get_U1 self = ret U1 /\
    shape U1 = (2 * M_ self, d self + h self) /\
    forall i, i < M_ self ->
      (forall j, j < d self ->
         get U1 i j = get (Ua self) i j /\ get U1 (M_ self + i) j = s0) /\
      (forall j, j < h self ->
         get U1 i (d self + j) = s0 /\
         get U1 (M_ self + i) (d self + j) = get (Ub self) i j).
Proof.
  intros HM HU Hd Hh. eexists. split; [now apply get_U1_ret|].
  split.
  { unfold shape. autorewrite with shapes. f_equal; lia. }
  intros i Hi. split; intros j Hj; rewrite !get_vstack;
    autorewrite with shapes; rewrite <- HM.
  - destruct (Nat.ltb_spec i (M_ self)); [|lia].
    destruct (Nat.ltb_spec (M_ self + i) (M_ self)); [lia|].
    rewrite !get_hstack by (autorewrite with shapes; lia).
    autorewrite with shapes. rewrite <- Hd.
    destruct (Nat.ltb_spec j (d self)); [|lia].
    split; [reflexivity | apply get_zeros; lia].
  - destruct (Nat.ltb_spec i (M_ self)); [|lia].
    destruct (Nat.ltb_spec (M_ self + i) (M_ self)); [lia|].
    rewrite !get_hstack by (autorewrite with shapes; lia).
    autorewrite with shapes. rewrite <- Hd.
    destruct (Nat.ltb_spec (d self + j) (d self)); [lia|].
    replace (d self + j - d self) with j by lia.
    replace (M_ self + i - M_ self) with i by lia.
    split; [apply get_zeros; lia | reflexivity].
Qed.
End BlockDiagonal.

Lemma get_U1_block_diagonal_witness :
  exists U1 : ndarray R,
    get_U1 self_proj = ret U1 /\
    shape U1 = (2 * M_ self_proj, d self_proj + h self_proj) /\
    forall i, i < M_ self_proj ->
      (forall j, j < d self_proj ->
         get U1 i j = get (Ua self_proj) i j /\
         get U1 (M_ self_proj + i) j = s0) /\
      (forall j, j < h self_proj ->
         get U1 i (d self_proj + j) = s0 /\
         get U1 (M_ self_proj + i) (d self_proj + j) = get (Ub self_proj) i j).
Proof.
  exact (@get_U1_block_diagonal R _ self_proj eq_refl eq_refl eq_refl eq_refl).
Defined.

(** ** get_Laplacian on an array that is not square *)

Section LaplacianShapes.
Context {T : Type} `{Scalar T}.

Lemma get_diag (s : list T) (i j : nat) :
  i < length s -> j < length s ->
  get (diag s) i j = if Nat.eqb i j then nth i s s0 else s0.
Proof. intros Hi Hj. unfold diag. now rewrite ?get_with_dtype, get_tabulate. Qed.

(** X2. get_Laplacian raises (a ValueError, from the subtraction) exactly
    when W is r x c with c different from r, from 1 and r different from 1.
    On a column (c = 1) it does not raise: broadcasting makes the result
    r x r, with L[i,j] = W[i,0] - D[i,j]; on a single row (r = 1) the result
    is 1 x c, with L[0,j] = W[0,j] - rowsum. *)
Theorem get_Laplacian_broadcasts (W : ndarray T) :
  let r := shape0 W in
  let c := shape1 W in
  ((exists e, raises (get_Laplacian W) e) <-> c <> r /\ c <> 1 /\ r <> 1) /\
  (forall e, raises (get_Laplacian W) e -> e = ValueError) /\
  (c = 1 -> exists L, returns (get_Laplacian W) L /\ shape L = (r, r) /\
     forall i j, i < r -> j < r ->
       get L i j = ssub (get W i 0)
                     (if Nat.eqb i j then nth i (sum_axis1 W) s0 else s0)) /\
  (r = 1 -> exists L, returns (get_Laplacian W) L /\ shape L = (1, c) /\
     forall j, j < c ->
       get L 0 j = ssub (get W 0 j) (nth 0 (sum_axis1 W) s0)).
Proof.
  intros r c. unfold get_Laplacian, subtract.
  rewrite ?shape0_with_dtype, ?shape1_with_dtype, shape0_diag, shape1_diag, length_sum_axis1. fold r c.
  rewrite broadcast_refl. unfold broadcast.
  destruct (Nat.eqb_spec c r) as [Ecr|Ncr].
  - cbn [bind ret]. unfold raises, returns; cbn [fst].
    split; [split; [intros [e He]; discriminate | intros [C _]; contradiction]|].
    split; [intros e He; discriminate|].
    split.
    + intros Hc. eexists. split; [reflexivity|]. split.
      * unfold shape. autorewrite with shapes. congruence.
      * intros i j Hi Hj. rewrite ?get_with_dtype, get_tabulate by lia.
        unfold bget. rewrite ?shape0_with_dtype, ?shape1_with_dtype, shape0_diag, shape1_diag, length_sum_axis1.
        fold r c. rewrite Hc.
        assert (r = 1) by lia.
        replace i with 0 by lia. replace j with 0 by lia.
        destruct (Nat.eqb r 1); simpl; rewrite ?get_with_dtype, get_diag;
          rewrite ?length_sum_axis1; fold r; try lia; reflexivity.
    + intros Hr. eexists. split; [reflexivity|]. split.
      * unfold shape. autorewrite with shapes. congruence.
      * intros j Hj. rewrite ?get_with_dtype, get_tabulate by lia.
        unfold bget. rewrite ?shape0_with_dtype, ?shape1_with_dtype, shape0_diag, shape1_diag, length_sum_axis1.
        fold r c. rewrite Hr in *. subst c.
        replace j with 0 by lia. simpl.
        rewrite ?get_with_dtype, get_diag by (rewrite length_sum_axis1; fold r; lia).
        rewrite Ecr. reflexivity.
  - destruct (Nat.eqb_spec c 1) as [Ec1|Nc1].
    + cbn [bind ret]. unfold raises, returns; cbn [fst].
      split; [split; [intros [e He]; discriminate | intros (_ & C & _); contradiction]|].
      split; [intros e He; discriminate|].
      split.
      * intros _. eexists. split; [reflexivity|]. split.
        { unfold shape. autorewrite with shapes. congruence. }
        intros i j Hi Hj. rewrite ?get_with_dtype, get_tabulate by lia.
        unfold bget. rewrite ?shape0_with_dtype, ?shape1_with_dtype, shape0_diag, shape1_diag, length_sum_axis1.
        fold r c. rewrite Ec1.
        destruct (Nat.eqb_spec r 1); [lia|]. simpl.
        rewrite ?get_with_dtype, get_diag by (rewrite length_sum_axis1; fold r; lia).
        reflexivity.
      * intros Hr. lia.
    + destruct (Nat.eqb_spec r 1) as [Er1|Nr1].
      * cbn [bind ret]. unfold raises, returns; cbn [fst].
        split; [split; [intros [e He]; discriminate | intros (_ & _ & C); contradiction]|].
        split; [intros e He; discriminate|].
        split; [intros Hc; contradiction|].
        intros _. eexists. split; [reflexivity|]. split.
        { unfold shape. autorewrite with shapes. congruence. }
        intros j Hj. rewrite ?get_with_dtype, get_tabulate by lia.
        unfold bget. rewrite ?shape0_with_dtype, ?shape1_with_dtype, shape0_diag, shape1_diag, length_sum_axis1.
        fold r c. rewrite Er1.
        destruct (Nat.eqb_spec c 1); [contradiction|]. simpl.
        rewrite ?get_with_dtype, get_diag by (rewrite length_sum_axis1; fold r; lia).
        reflexivity.
      * cbn [bind raise]. unfold raises, returns; cbn [fst].
        split; [split; [intros _; tauto | intros _; now exists ValueError]|].
        split; [intros e He; congruence|].
        split; intros; contradiction.
Qed.
End LaplacianShapes.

(** ** get_kNNs: the neighbours are the most similar rows *)

Section MostSimilar.
Open Scope R_scope.
Variable argsort : list R -> list nat.
Hypothesis argsort_ok : argsort_spec argsort.

Lemma slice_from_suffix {X} (z : Z) (l : list X) :
  exists m, slice_from z l = skipn m l.
Proof. unfold slice_from. eexists. reflexivity. Qed.

Lemma NoDup_skipn {X} (m : nat) (l : list X) : NoDup l -> NoDup (skipn m l).
Proof.
  intros Hn. rewrite <- (firstn_skipn m l) in Hn.
  now apply NoDup_app_r in Hn.
Qed.


(** X3. For every k, on an array that normalize accepts, each neighbour
    set that get_kNNs returns holds row ids below n, none twice, and no row
    outside the set is more similar to row i than a row inside it:
    S[i,j] <= S[i,q] for q inside and j outside. *)
Theorem get_kNNs_most_similar (A : ndarray R) (k : Z) :
  accepted A ->
  exists (S0 : ndarray R) (nb : list (list nat)),
    get_kNNs argsort A k = ret (S0, nb) /\
    forall i, (i < shape0 A)%nat ->
      NoDup (nth i nb []) /\
      (forall q, In q (nth i nb []) -> (q < shape0 A)%nat) /\
      (forall q j, In q (nth i nb []) -> (j < shape0 A)%nat ->
         ~ In j (nth i nb []) -> get S0 i j <= get S0 i q).
Proof.
  intros HA. exists (similarity A), (neighbours_of argsort A k).
  split; [now apply get_kNNs_eq|].
  intros i Hi. rewrite nth_neighbours_of by assumption.
  set (row := map (get (similarity A) i) (seq 0 (shape0 A))).
  assert (Hrow : length row = shape0 A)
    by (unfold row; now rewrite length_map, length_seq).
  assert (Hnth : forall q, (q < shape0 A)%nat ->
             nth q row 0 = get (similarity A) i q)
    by (intros q Hq; unfold row; now rewrite nth_map_seq).
  destruct (argsort_ok row) as [HP Hasc]. rewrite Hrow in HP.
  destruct (slice_from_suffix (- k) (argsort row)) as [m ->].
  assert (HN : NoDup (argsort row))
    by (apply (Permutation_NoDup (Permutation_sym HP)), seq_NoDup).
  assert (Hlt : forall q, In q (skipn m (argsort row)) -> (q < shape0 A)%nat).
  { intros q Hq. apply In_skipn in Hq.
    apply (Permutation_in q HP) in Hq. apply in_seq in Hq. lia. }
  split; [now apply NoDup_skipn|].
  split; [exact Hlt|].
  intros q j Hq Hj Hout.
  assert (Hjn : In j (argsort row))
    by (apply (Permutation_in j (Permutation_sym HP)), in_seq; lia).
  rewrite <- (firstn_skipn m (argsort row)) in Hjn, Hasc.
  apply in_app_or in Hjn. destruct Hjn as [Hf|Hs]; [|contradiction].
  rewrite <- (Hnth j Hj), <- (Hnth q (Hlt q Hq)).
  apply (StronglySorted_app_le (firstn m (argsort row))
           (skipn m (argsort row)) Hasc); assumption.
Qed.
End MostSimilar.

Lemma get_kNNs_most_similar_witness :
  exists (S0 : ndarray R) (nb : list (list nat)),
    get_kNNs argsort_ins W_example 1 = ret (S0, nb) /\
    forall i, i < shape0 W_example ->
      NoDup (nth i nb []) /\
      (forall q, In q (nth i nb []) -> q < shape0 W_example) /\
      (forall q j, In q (nth i nb []) -> j < shape0 W_example ->
         ~ In j (nth i nb []) -> (get S0 i j <= get S0 i q)%R).
Proof.
  refine (@get_kNNs_most_similar argsort_ins argsort_ins_spec W_example 1 _).
  apply accepted_R; cbv; lia.
Defined.

(** ** get_kNNs: k = 0 and negative k *)

Section NonPositiveK.
Context {T : Type} `{Scalar T}.
Variable argsort : list T -> list nat.
Hypothesis argsort_perm :
  forall a, Permutation (argsort a) (seq 0 (length a)).

(** X4. For k <= 0 the slice [-k:] starts at position |k| instead of
    counting from the end: the neighbour set is the argsort of the row
    without its first |k| entries, n - |k| rows; for k = 0 that is all n
    rows.  (On an array that normalize accepts; on any other, get_kNNs
    raises.) *)
Theorem get_kNNs_nonpositive_k (A : ndarray T) (k : Z) :
  accepted A ->
  (k <= 0)%Z ->
  exists (S0 : ndarray T) (nb : list (list nat)),
    get_kNNs argsort A k = ret (S0, nb) /\
    forall i, i < shape0 A ->
      nth i nb [] =
        skipn (Z.to_nat (- k))
          (argsort (map (get S0 i) (seq 0 (shape0 A)))) /\
      length (nth i nb []) = shape0 A - Z.to_nat (- k) /\
      (k = 0%Z -> Permutation (nth i nb []) (seq 0 (shape0 A))).
Proof.
  intros HA Hk. exists (similarity A), (neighbours_of argsort A k).
  split; [now apply get_kNNs_eq|].
  intros i Hi. rewrite nth_neighbours_of by assumption.
  set (row := map (get (similarity A) i) (seq 0 (shape0 A))).
  assert (Hrow : length row = shape0 A)
    by (unfold row; now rewrite length_map, length_seq).
  assert (Hlen : length (argsort row) = shape0 A).
  { rewrite (Permutation_length (argsort_perm row)), length_seq.
    exact Hrow. }
  assert (E : slice_from (- k) (argsort row) =
              skipn (Z.to_nat (- k)) (argsort row)).
  { unfold slice_from. destruct (Z.ltb_spec (- k) 0); [lia|].
    destruct (Z_le_gt_dec (- k) (Z.of_nat (length (argsort row)))).
    - now rewrite Z.min_l by assumption.
    - rewrite Z.min_r by lia. rewrite Nat2Z.id.
      rewrite !skipn_all2; [reflexivity | lia | lia]. }
  rewrite E. split; [reflexivity|].
  split; [rewrite length_skipn; lia|].
  intros ->. simpl. assert (P := argsort_perm row). now rewrite Hrow in P.
Qed.
End NonPositiveK.

Lemma get_kNNs_nonpositive_k_witness :
  exists (S0 : ndarray float) (nb : list (list nat)),
    get_kNNs argsort_ins X_three (-1) = ret (S0, nb) /\
    forall i, i < shape0 X_three ->
      nth i nb [] =
        skipn (Z.to_nat (- (-1)))
          (argsort_ins (map (get S0 i) (seq 0 (shape0 X_three)))) /\
      length (nth i nb []) = shape0 X_three - Z.to_nat (- (-1)) /\
      ((-1)%Z = 0%Z -> Permutation (nth i nb []) (seq 0 (shape0 X_three))).
Proof.
  refine (@get_kNNs_nonpositive_k float _ argsort_ins
            (fun a => argsort_ins_perm a) X_three (-1) accepted_X_three _).
  lia.
Defined.

(** ** get_kNNs: the similarity array *)

Section SimilarityRange.
Open Scope R_scope.
Variable argsort : list R -> list nat.

(** X5. In exact arithmetic, on an array that normalize accepts, the
    array S that get_kNNs returns is n x n and symmetric, its entries lie
    in [-1, 1], S[i,i] = 1 for a row of length at least 10 eps, which
    normalize scales, S[i,i] is the squared length of a shorter row, which
    it leaves as it is, and a zero row of A has S[i,j] = 0 for every j. *)
Theorem get_kNNs_similarity_range (A : ndarray R) (k : Z) :
  accepted A ->
  exists (S0 : ndarray R) (nb : list (list nat)),
    get_kNNs argsort A k = ret (S0, nb) /\
    shape S0 = (shape0 A, shape0 A) /\
    forall i j, (i < shape0 A)%nat -> (j < shape0 A)%nat ->
      get S0 i j = get S0 j i /\
      -1 <= get S0 i j <= 1 /\
      (ten_eps <= norm A i -> get S0 i i = 1) /\
      (norm A i < ten_eps -> get S0 i i = sumsq A i) /\
      ((forall c, (c < shape1 A)%nat -> get A i c = 0) -> get S0 i j = 0).
Proof.
  intros HA. exists (similarity A), (neighbours_of argsort A k).
  split; [now apply get_kNNs_eq|].
  split.
  { unfold shape. now rewrite shape0_similarity, shape1_similarity. }
  intros i j Hi Hj.
  split; [now apply similarity_symmetric|].
  split; [now apply similarity_range|].
  split; [intros Hn; now apply similarity_diag|].
  split; [intros Hn; now apply similarity_diag_unscaled|].
  intros Hz. now apply similarity_zero_row.
Qed.
End SimilarityRange.

Lemma get_kNNs_similarity_range_witness :
  accepted (XlA_of self_labelled) /\
  exists (S0 : ndarray R) (nb : list (list nat)),
    get_kNNs argsort_ins (XlA_of self_labelled) 1 = ret (S0, nb) /\
    shape S0 = (3, 3) /\
    forall i j, i < 3 -> j < 3 ->
      get S0 i j = get S0 j i /\
      (-1 <= get S0 i j <= 1)%R /\
      ((ten_eps <= norm (XlA_of self_labelled) i)%R ->
         get S0 i i = 1%R) /\
      ((norm (XlA_of self_labelled) i < ten_eps)%R ->
         get S0 i i = sumsq (XlA_of self_labelled) i) /\
      ((forall c, c < 2 -> get (XlA_of self_labelled) i c = 0%R) ->
         get S0 i j = 0%R).
Proof.
  split; [exact labelled_accepted|].
  exact (@get_kNNs_similarity_range argsort_ins (XlA_of self_labelled) 1
           labelled_accepted).
Defined.

(** ** get_W2: the attributes it sets, and its symmetry *)

Section LabelledGraph.
Context {T : Type} `{Scalar T}.
Variable argsort : list T -> list nat.

(** X6. get_W2 raises exactly when the positive and the negative rows
    differ in their number of columns (numpy.concatenate) or normalize
    refuses the stacked rows (no row, no column, or an entry that is not
    finite), and what it raises is a ValueError.  Otherwise it returns, and
    the object it leaves has XlA = the positive rows above the negative
    rows, pos_n and neg_n = their numbers of rows, Y = pos_n entries 1 then
    neg_n entries -1 * 1, and every other attribute as before; a second call
    gives the same array and leaves the object as it is. *)
Theorem get_W2_attributes (self : SupEmb T) :
  ((exists e, raises (get_W2 argsort self) e) <->
     ~ (shape1 (XlA_pos self) = shape1 (XlA_neg self) /\
        accepted (vstack (XlA_pos self) (XlA_neg self)))) /\
  (forall e, raises (get_W2 argsort self) e -> e = ValueError) /\
  (shape1 (XlA_pos self) = shape1 (XlA_neg self) ->
   accepted (vstack (XlA_pos self) (XlA_neg self)) ->
     exists (W2 : ndarray T) (self' : SupEmb T),
       get_W2 argsort self = ret (W2, self') /\
       XlA self' = Some (vstack (XlA_pos self) (XlA_neg self)) /\
       pos_n self' = Some (shape0 (XlA_pos self)) /\
       neg_n self' = Some (shape0 (XlA_neg self)) /\
       Y self' = Some (repeat s1 (shape0 (XlA_pos self)) ++
                       repeat (smul (sopp s1) s1) (shape0 (XlA_neg self))) /\
       (Ua self', Ub self', A_ self', B_ self') =
         (Ua self, Ub self, A_ self, B_ self) /\
       (XlA_pos self', XlA_neg self', XuA self', XuB self') =
         (XlA_pos self, XlA_neg self, XuA self, XuB self) /\
       (M_ self', d self', h self', dims self') =
         (M_ self, d self, h self, dims self) /\
       (w1 self', w2 self', w3 self', lambda_1 self', lambda_2 self') =
         (w1 self, w2 self, w3 self, lambda_1 self, lambda_2 self) /\
       (k2 self', k3 self', k3_bar self') = (k2 self, k3 self, k3_bar self) /\
       get_W2 argsort self' = ret (W2, self')).
Proof.
  assert (Hret : shape1 (XlA_pos self) = shape1 (XlA_neg self) ->
                 accepted (vstack (XlA_pos self) (XlA_neg self)) ->
                 exists r, get_W2 argsort self = ret r).
  { intros Heq HA. unfold get_W2, concatenate0.
    apply Nat.eqb_eq in Heq. rewrite Heq. cbn [bind ret].
    fold (vstack (XlA_pos self) (XlA_neg self)).
    rewrite get_kNNs_eq by exact HA. cbn [bind ret]. eexists. reflexivity. }
  assert (Hraise : ~ (shape1 (XlA_pos self) = shape1 (XlA_neg self) /\
                      accepted (vstack (XlA_pos self) (XlA_neg self))) ->
                   get_W2 argsort self = raise ValueError).
  { intros Hn. unfold get_W2, concatenate0.
    destruct (Nat.eqb_spec (shape1 (XlA_pos self)) (shape1 (XlA_neg self)))
      as [Heq|Hne]; [|reflexivity].
    cbn [bind ret]. fold (vstack (XlA_pos self) (XlA_neg self)).
    rewrite get_kNNs_refused by tauto. reflexivity. }
  split; [|split].
  - split.
    + intros [e He] [Heq HA]. destruct (Hret Heq HA) as [r E].
      unfold raises in He. rewrite E in He. discriminate.
    + intros Hn. exists ValueError. unfold raises. now rewrite Hraise.
  - intros e He.
    destruct (Nat.eq_dec (shape1 (XlA_pos self)) (shape1 (XlA_neg self)))
      as [Heq|Hne];
      [destruct (accepted_dec (vstack (XlA_pos self) (XlA_neg self)))
         as [HA|HA]|].
    + destruct (Hret Heq HA) as [r E].
      unfold raises in He. rewrite E in He. discriminate.
    + unfold raises in He. rewrite Hraise in He by tauto.
      cbn in He. congruence.
    + unfold raises in He. rewrite Hraise in He by tauto.
      cbn in He. congruence.
  - intros Heq HA. unfold get_W2 at 1, concatenate0.
    apply Nat.eqb_eq in Heq. rewrite Heq. cbn [bind ret].
    fold (vstack (XlA_pos self) (XlA_neg self)).
    rewrite get_kNNs_eq by exact HA. cbn [bind ret].
    eexists. eexists. split; [reflexivity|].
    cbn [XlA pos_n neg_n Y Ua Ub A_ B_ XlA_pos XlA_neg XuA XuB M_ d h dims
         w1 w2 w3 lambda_1 lambda_2 k2 k3 k3_bar].
    split; [reflexivity|].
    split; [reflexivity|].
    split; [reflexivity|].
    split; [unfold ones; now rewrite map_repeat|].
    repeat (split; [reflexivity|]).
    unfold get_W2, concatenate0.
    cbn [XlA_pos XlA_neg lambda_2 k2 Ua Ub A_ B_ XuA XuB M_ d h dims
         w1 w2 w3 lambda_1 k3 k3_bar].
    rewrite Heq. cbn [bind ret].
    fold (vstack (XlA_pos self) (XlA_neg self)).
    rewrite get_kNNs_eq by exact HA. cbn [bind ret]. reflexivity.
Qed.
End LabelledGraph.

Lemma get_W2_attributes_witness :
  shape1 (XlA_pos self_labelled) = shape1 (XlA_neg self_labelled) /\
  accepted (vstack (XlA_pos self_labelled) (XlA_neg self_labelled)) /\
  exists (W2 : ndarray R) (self' : SupEmb R),
    get_W2 argsort_ins self_labelled = ret (W2, self') /\
    XlA self' =
      Some (vstack (XlA_pos self_labelled) (XlA_neg self_labelled)) /\
    pos_n self' = Some 2 /\
    neg_n self' = Some 1 /\
    get_W2 argsort_ins self' = ret (W2, self').
Proof.
  split; [reflexivity|]. split; [exact labelled_accepted|].
  destruct (proj2 (proj2 (@get_W2_attributes R _ argsort_ins self_labelled))
              eq_refl labelled_accepted)
    as (W2 & self' & E & EX & Ep & En & _ & _ & _ & _ & _ & _ & E2).
  exists W2, self'. repeat split; assumption.
Defined.

Section LabelledGraphSymmetry.
Open Scope R_scope.
Variable argsort : list R -> list nat.

(** X7. On labelled input that normalize accepts, the array W2 that
    get_W2 returns is n x n and equals its transpose, whatever the argsort
    does with equal entries. *)
Theorem get_W2_symmetric (self : SupEmb R) :
  shape1 (XlA_pos self) = shape1 (XlA_neg self) ->
  accepted (XlA_of self) ->
  let n := (shape0 (XlA_pos self) + shape0 (XlA_neg self))%nat in
  exists (W2 : ndarray R) (self' : SupEmb R),
    get_W2 argsort self = ret (W2, self') /\
    shape W2 = (n, n) /\
    (forall i j, (i < n)%nat -> (j < n)%nat -> get W2 i j = get W2 j i) /\
    transpose W2 = W2.
Proof.
  intros Hc HA n.
  destruct (@get_W2_eq argsort self Hc HA) as (self' & E & _).
  pose (XlA0 := XlA_of self).
  assert (Hn : shape0 XlA0 = n)
    by (unfold XlA0, XlA_of; now autorewrite with shapes).
  pose (g := W2_assigned (lambda_2 self) (shape0 (XlA_pos self))
               (similarity XlA0) (neighbours_of argsort XlA0 (k2 self))).
  exists (fill g n n (zeros n n)), self'.
  split; [exact E|].
  destruct (sized_fill g (sized_zeros n n)) as (Fwf & F0 & F1).
  assert (Hsym : symmetric n (fill g n n (zeros n n))).
  { apply W2_symmetric. rewrite <- Hn. apply similarity_symmetric. }
  split; [unfold shape; congruence|].
  split; [exact Hsym|].
  now apply symmetric_transpose with (n := n).
Qed.
End LabelledGraphSymmetry.

Lemma get_W2_symmetric_witness :
  exists (W2 : ndarray R) (self' : SupEmb R),
    get_W2 argsort_ins self_example = ret (W2, self') /\
    shape W2 = (3, 3) /\
    (forall i j, i < 3 -> j < 3 -> get W2 i j = get W2 j i) /\
    transpose W2 = W2.
Proof.
  refine (@get_W2_symmetric argsort_ins self_example eq_refl _).
  apply accepted_R; cbv; lia.
Defined.

(** ** perturbate and the warnings of get_Dinv *)

Section Warnings.
Open Scope R_scope.

Lemma length_perturbed (dt : dtype) (s : list R) :
  length (perturbed dt s) = length s.
Proof. unfold perturbed. now rewrite length_map, length_seq. Qed.

(** The integer part of a real is zero exactly when the real is between
    -1 and 1. *)
Lemma Rtrunc_zero_iff (x : R) : Rtrunc x = 0 <-> Rabs x < 1.
Proof.
  unfold Rtrunc. destruct (Rle_dec 0 x) as [Hx|Hx].
  - rewrite Rabs_right by lra. split.
    + intros E. apply eq_IZR_R0 in E.
      destruct (base_Int_part x) as [_ B]. rewrite E in B. simpl in B. lra.
    + intros Hlt. rewrite <- (Int_part_spec x 0); [reflexivity|].
      simpl. lra.
  - rewrite Rabs_left by lra. split.
    + intros E. assert (E' : IZR (Int_part (- x)) = 0) by lra.
      apply eq_IZR_R0 in E'.
      destruct (base_Int_part (- x)) as [_ B]. rewrite E' in B. simpl in B.
      lra.
    + intros Hlt. rewrite <- (Int_part_spec (- x) 0); [simpl; lra|].
      simpl. lra.
Qed.

Lemma cast_zero (dt : dtype) : cast dt 0 = 0.
Proof.
  destruct dt; [reflexivity|]. cbn. apply Rtrunc_zero_iff.
  rewrite Rabs_R0. lra.
Qed.

(** X8. perturbate(s), on a 1-D array s of dtype dt, returns an array of
    the length of s in which every nonzero entry of s is kept and every
    zero entry is the value that [s[i] = mean(s)] stores: mean(s) on a
    float64 array, the integer part of mean(s) on an int64 array, which is
    0 when |mean(s)| < 1.  No entry is zero unless the stored value is; the
    number it logs is 1 whatever the number of entries it replaced. *)
Theorem perturbate_replaces_zeros (dt : dtype) (s : list R) :
  exists s' : list R,
    perturbate dt s = (inr s', [LogWarning 1]) /\
    length s' = length s /\
    (forall i, (i < length s)%nat ->
       (nth i s 0 <> 0 -> nth i s' 0 = nth i s 0) /\
       (nth i s 0 = 0 -> nth i s' 0 = cast dt (mean s))) /\
    (cast dt (mean s) <> 0 -> forall x, In x s' -> x <> 0) /\
    (dt = float64 -> cast dt (mean s) = mean s) /\
    (dt = int64 ->
       cast dt (mean s) = Rtrunc (mean s) /\
       (cast dt (mean s) = 0 <-> Rabs (mean s) < 1)).
Proof.
  exists (perturbed dt s). split; [apply perturbate_eq|].
  split; [apply length_perturbed|].
  split.
  { intros i Hi. change 0 with (@s0 R _).
    rewrite nth_perturbed by assumption.
    change (@seqb R _) with Reqb. change (@s0 R _) with 0.
    split; intros Hz.
    - apply Reqb_false in Hz. now rewrite Hz.
    - rewrite Hz, Reqb_refl. reflexivity. }
  split.
  { intros Hm x Hx. apply In_nth with (d := 0) in Hx.
    destruct Hx as (i & Hi & <-). rewrite length_perturbed in Hi.
    change 0 with (@s0 R _) at 1.
    rewrite nth_perturbed by assumption.
    change (@seqb R _) with Reqb. change (@s0 R _) with 0.
    destruct (Reqb (nth i s 0) 0) eqn:E; [exact Hm|].
    now apply Reqb_false. }
  split; [intros ->; reflexivity|].
  intros ->. split; [reflexivity|]. apply Rtrunc_zero_iff.
Qed.

Lemma existsb_zero_iff (l : list R) :
  existsb (fun x => Reqb x 0) l = true <->
  exists i, (i < length l)%nat /\ nth i l 0 = 0.
Proof.
  rewrite existsb_exists. split.
  - intros (x & Hx & E). apply Reqb_true in E.
    apply In_nth with (d := 0) in Hx. destruct Hx as (i & Hi & Hn).
    exists i. split; [assumption | congruence].
  - intros (i & Hi & E). exists (nth i l 0).
    split; [now apply nth_In | now apply Reqb_true].
Qed.

Lemma count_nonzero_iff (s : list R) :
  Nat.ltb 0 (count_nonzero s) = true <->
  exists i, (i < length s)%nat /\ nth i s 0 <> 0.
Proof.
  split.
  - intros Hc. destruct (count_nonzero_pos s Hc) as (i & Hi & E).
    exists i. split; [assumption | now apply Reqb_false].
  - intros (i & Hi & Hnz).
    destruct (Nat.ltb 0 (count_nonzero s)) eqn:C; [reflexivity|].
    exfalso. apply Hnz. apply Reqb_true.
    exact (count_nonzero_zero s C Hi).
Qed.

Lemma nth_perturbed_R (dt : dtype) (s : list R) (i : nat) :
  (i < length s)%nat ->
  nth i (perturbed dt s) 0 =
  if Reqb (nth i s 0) 0 then cast dt (mean s) else nth i s 0.
Proof. intros Hi. exact (nth_perturbed dt s Hi). Qed.

Lemma Dinv_sums_zero_iff (W : ndarray R) :
  existsb (fun x => Reqb x 0) (Dinv_sums W) = true <->
  exists i, (i < shape0 W)%nat /\ nth i (sum_axis1 W) 0 = 0 /\
            cast (dtype_of W) (mean (sum_axis1 W)) = 0.
Proof.
  rewrite existsb_zero_iff, length_Dinv_sums. unfold Dinv_sums.
  set (s := sum_axis1 W).
  assert (Hs : length s = shape0 W) by apply length_sum_axis1.
  destruct (Nat.ltb 0 (count_nonzero s)) eqn:C.
  - split.
    + intros (i & Hi & E). exists i. split; [assumption|].
      rewrite nth_perturbed_R in E by lia.
      destruct (Reqb (nth i s 0) 0) eqn:Z.
      * apply Reqb_true in Z. now split.
      * apply Reqb_false in Z. contradiction.
    + intros (i & Hi & Z & Hm). exists i. split; [assumption|].
      rewrite nth_perturbed_R by lia. now rewrite Z, Reqb_refl.
  - assert (Hall : forall i, (i < length s)%nat -> nth i s 0 = 0).
    { intros i Hi. apply Reqb_true. exact (count_nonzero_zero s C Hi). }
    split.
    + intros (i & Hi & E). exists i.
      split; [assumption|]. split; [assumption|].
      rewrite mean_all_zero by assumption. apply cast_zero.
    + intros (i & Hi & Z & _). now exists i.
Qed.

(** X9. The perturbation logged and the division by zero in get_Dinv,
    whatever the dtype of W and in either arithmetic: "Perturbations = 1"
    is logged exactly when some row total is not zero (whether or not one
    is zero), and [1.0 / s] divides by zero exactly when some row total is
    zero and either all are or the mean of the totals, as the array of
    totals stores it, is zero.  In exact arithmetic the second condition
    is: some row total is zero and the stored mean is zero, where the
    stored mean of a float64 array is zero only when the mean is, and that
    of an int64 array exactly when |mean| < 1. *)
Theorem get_Dinv_warnings :
  (forall (T : Type) (HS : Scalar T) (W : ndarray T),
     let s := sum_axis1 W in
     let n := shape0 W in
     (In (LogWarning 1) (warnings (get_Dinv W)) <->
        exists i, (i < n)%nat /\ seqb (nth i s s0) s0 = false) /\
     (In DivideByZero (warnings (get_Dinv W)) <->
        exists i, (i < n)%nat /\ seqb (nth i s s0) s0 = true /\
          (count_nonzero s = 0%nat \/
           seqb (cast (dtype_of W) (mean s)) s0 = true))) /\
  (forall W : ndarray R,
     let s := sum_axis1 W in
     let n := shape0 W in
     (In (LogWarning 1) (warnings (get_Dinv W)) <->
        exists i, (i < n)%nat /\ nth i s 0 <> 0) /\
     (In DivideByZero (warnings (get_Dinv W)) <->
        exists i, (i < n)%nat /\ nth i s 0 = 0 /\
                  cast (dtype_of W) (mean s) = 0) /\
     (dtype_of W = float64 ->
        (cast (dtype_of W) (mean s) = 0 <-> mean s = 0)) /\
     (dtype_of W = int64 ->
        (cast (dtype_of W) (mean s) = 0 <-> Rabs (mean s) < 1))).
Proof.
  split.
  - intros T HS W s n. rewrite get_Dinv_eq. unfold warnings; cbn [snd].
    unfold Dinv_log. fold s.
    assert (Hs : length s = n) by apply length_sum_axis1.
    assert (HZ := Dinv_sums_zero W). fold s n in HZ.
    split.
    + destruct (Nat.ltb 0 (count_nonzero s)) eqn:C; split.
      * intros _. destruct (count_nonzero_pos s C) as (i & Hi & E).
        exists i. split; [lia | exact E].
      * intros _. apply in_or_app. left. now left.
      * intros Hin. apply in_app_or in Hin. destruct Hin as [[]|Hin].
        destruct (existsb _ _); [destruct Hin as [D|[]]; discriminate D
                                | contradiction].
      * intros (i & Hi & E).
        rewrite (count_nonzero_zero s C) in E by lia. discriminate E.
    + destruct (existsb (fun x => seqb x s0) (Dinv_sums W)); split.
      * intros _. now apply HZ.
      * intros _. apply in_or_app. right. now left.
      * intros Hin. apply in_app_or in Hin. destruct Hin as [Hin|[]].
        destruct (Nat.ltb 0 _); [destruct Hin as [D|[]]; discriminate D
                                | contradiction].
      * intros Hx. apply HZ in Hx. discriminate Hx.
  - intros W s n. rewrite get_Dinv_eq. unfold warnings; cbn [snd].
    unfold Dinv_log. fold s.
    change (@seqb R _) with Reqb. change (@s0 R _) with 0.
    assert (Hs : length s = n) by apply length_sum_axis1.
    assert (HL := count_nonzero_iff s). rewrite Hs in HL.
    assert (HD := Dinv_sums_zero_iff W). fold s n in HD.
    split; [|split; [|split]].
    + destruct (Nat.ltb 0 (count_nonzero s)); split.
      * intros _. now apply HL.
      * intros _. apply in_or_app. left. now left.
      * intros Hin. apply in_app_or in Hin. destruct Hin as [[]|Hin].
        destruct (existsb _ _); [destruct Hin as [C|[]]; discriminate C
                                | contradiction].
      * intros Hx. apply HL in Hx. discriminate Hx.
    + destruct (existsb (fun x => Reqb x 0) (Dinv_sums W)); split.
      * intros _. now apply HD.
      * intros _. apply in_or_app. right. now left.
      * intros Hin. apply in_app_or in Hin. destruct Hin as [Hin|[]].
        destruct (Nat.ltb 0 _); [destruct Hin as [C|[]]; discriminate C
                                | contradiction].
      * intros Hx. apply HD in Hx. discriminate Hx.
    + intros ->. reflexivity.
    + intros ->. apply Rtrunc_zero_iff.
Qed.
End Warnings.

(** ** Dinv * X: rows that sum to one *)

Section RowNormalisation.
Open Scope R_scope.

Lemma ssum_delta_mul (c : R) (f : nat -> R) (p n : nat) :
  (p < n)%nat ->
  ssum (map (fun k => (if Nat.eqb p k then c else 0) * f k) (seq 0 n)) =
  c * f p.
Proof.
  intros Hp.
  rewrite ssum_map_ext with
    (g := fun k => if Nat.eqb p k then c * f p else 0).
  - now apply ssum_delta.
  - intros k _. destruct (Nat.eqb_spec p k) as [->|]; [reflexivity | ring].
Qed.

Lemma get_Dinv_entry (X : ndarray R) (i k : nat) :
  (i < shape0 X)%nat -> (k < shape0 X)%nat ->
  get (Dinv X) i k = if Nat.eqb i k then 1 / nth i (Dinv_sums X) 0 else 0.
Proof.
  intros Hi Hk. unfold Dinv.
  rewrite get_diag by (rewrite length_map, length_Dinv_sums; assumption).
  destruct (Nat.eqb i k); [|reflexivity].
  rewrite (nth_indep _ s0 (sdiv s1 0))
    by (rewrite length_map, length_Dinv_sums; assumption).
  now rewrite map_nth.
Qed.

Lemma get_Dinv_X (X : ndarray R) (i j : nat) :
  (i < shape0 X)%nat -> (j < shape1 X)%nat ->
  get (matmul (Dinv X) X) i j = get X i j / nth i (Dinv_sums X) 0.
Proof.
  intros Hi Hj.
  rewrite get_matmul by (autorewrite with shapes; assumption).
  autorewrite with shapes.
  rewrite ssum_map_ext with
    (g := fun k => (if Nat.eqb i k then 1 / nth i (Dinv_sums X) 0 else 0)
                   * get X k j).
  - rewrite ssum_delta_mul by assumption. unfold Rdiv. ring.
  - intros k Hk. apply in_seq in Hk. now rewrite get_Dinv_entry by lia.
Qed.

End RowNormalisation.

(** ** project_instances *)

Section Projection.
Open Scope R_scope.

Lemma dot_raise {T} `{Scalar T} (A B : ndarray T) :
  shape1 A <> shape0 B -> dot A B = raise ValueError.
Proof. intros E. unfold dot. apply Nat.eqb_neq in E. now rewrite E. Qed.

Lemma fst_bind_raise {A B} (e : exn) (f : A -> M B) :
  fst (bind (raise e) f) = inl e.
Proof. reflexivity. Qed.

Lemma get_XT_Dinv (X : ndarray R) (k i : nat) :
  (k < shape1 X)%nat -> (i < shape0 X)%nat ->
  get (matmul (transpose X) (Dinv X)) k i =
  get X i k / nth i (Dinv_sums X) 0.
Proof.
  intros Hk Hi.
  rewrite get_matmul by (autorewrite with shapes; assumption).
  autorewrite with shapes.
  rewrite ssum_map_ext with
    (g := fun l => (if Nat.eqb i l then 1 / nth i (Dinv_sums X) 0 else 0)
                   * get X l k).
  - rewrite ssum_delta_mul by assumption. unfold Rdiv. ring.
  - intros l Hl. apply in_seq in Hl.
    rewrite get_transpose by lia. rewrite get_Dinv_entry by lia.
    rewrite Nat.eqb_sym.
    destruct (Nat.eqb_spec i l) as [->|]; ring.
Qed.

Lemma get_stacked_product (U A P : ndarray R) (k q : nat) :
  shape1 U = shape1 P -> shape1 A = shape1 P ->
  (k < shape0 U + shape0 A)%nat -> (q < shape0 P)%nat ->
  get (hstack (transpose (matmul U (transpose P)))
              (transpose (matmul A (transpose P)))) q k =
  get (matmul (vstack U A) (transpose P)) k q.
Proof.
  intros HU HA Hk Hq.
  rewrite get_hstack by (autorewrite with shapes; lia).
  autorewrite with shapes.
  rewrite (get_matmul (vstack U A))
    by (autorewrite with shapes; lia).
  autorewrite with shapes.
  destruct (Nat.ltb_spec k (shape0 U)).
  - rewrite get_transpose by (autorewrite with shapes; lia).
    rewrite get_matmul by (autorewrite with shapes; lia).
    apply ssum_map_ext. intros t _. rewrite get_vstack.
    destruct (Nat.ltb_spec k (shape0 U)); [reflexivity | lia].
  - rewrite get_transpose by (autorewrite with shapes; lia).
    rewrite get_matmul by (autorewrite with shapes; lia).
    rewrite HA, <- HU.
    apply ssum_map_ext. intros t _. rewrite get_vstack.
    destruct (Nat.ltb_spec k (shape0 U)); [lia | reflexivity].
Qed.

(** X11. When U, A and P have the same number of columns and X has
    U.rows + A.rows columns, project_instances(X, U, A, P) returns the
    X.rows x P.rows array (Dinv(X) * X) * ([U; A] * P.T): each row of X
    divided by its row total as get_Dinv inverts it, then mapped through
    the stacked [U; A] and P.  It leaves the warnings of get_Dinv(X). *)
Theorem project_instances_composition (X U A P : ndarray R) :
  shape1 U = shape1 P -> shape1 A = shape1 P ->
  shape1 X = (shape0 U + shape0 A)%nat ->
  exists Z : ndarray R,
    returns (project_instances X U A P) Z /\
    shape Z = (shape0 X, shape0 P) /\
    Z = matmul (matmul (Dinv X) X) (matmul (vstack U A) (transpose P)) /\
    warnings (project_instances X U A P) = warnings (get_Dinv X).
Proof.
  intros HU HA HX.
  pose (Zc := hstack (transpose (matmul U (transpose P)))
                     (transpose (matmul A (transpose P)))).
  pose (Yc := matmul (transpose X) (Dinv X)).
  exists (transpose (matmul Zc Yc)).
  assert (Hret : fst (project_instances X U A P) =
                 inr (transpose (matmul Zc Yc)) /\
                 snd (project_instances X U A P) = Dinv_log X).
  { unfold project_instances. rewrite get_Dinv_eq. fold (Dinv X). split.
    - rewrite fst_bind.
      rewrite dot_eq by (now autorewrite with shapes). rewrite fst_bind_ret.
      rewrite dot_eq by (now autorewrite with shapes). rewrite fst_bind_ret.
      rewrite dot_eq by (now autorewrite with shapes). rewrite fst_bind_ret.
      rewrite concatenate1_eq by (now autorewrite with shapes).
      rewrite fst_bind_ret.
      rewrite dot_eq by (autorewrite with shapes; lia). rewrite fst_bind_ret.
      reflexivity.
    - rewrite snd_bind.
      rewrite dot_eq by (now autorewrite with shapes). rewrite snd_bind_ret.
      rewrite dot_eq by (now autorewrite with shapes). rewrite snd_bind_ret.
      rewrite dot_eq by (now autorewrite with shapes). rewrite snd_bind_ret.
      rewrite concatenate1_eq by (now autorewrite with shapes).
      rewrite snd_bind_ret.
      rewrite dot_eq by (autorewrite with shapes; lia). rewrite snd_bind_ret.
      cbn [snd ret]. apply app_nil_r. }
  destruct Hret as [Hf Hs].
  split; [exact Hf|].
  split; [unfold shape, Zc, Yc; now autorewrite with shapes|].
  split.
  - apply ndarray_ext; [apply wf_transpose | apply wf_matmul | | |].
    + unfold shape, Zc, Yc. now autorewrite with shapes.
    + rewrite dtype_transpose.
      rewrite (dtype_matmul_float_r Zc)
        by (apply dtype_matmul_float_r; reflexivity).
      symmetry. apply dtype_matmul_float_l, dtype_matmul_float_l.
      reflexivity.
    + intros i q Hi Hq. unfold Zc, Yc in Hi, Hq.
      autorewrite with shapes in Hi, Hq.
      rewrite get_transpose
        by (unfold Zc, Yc; autorewrite with shapes; assumption).
      rewrite get_matmul
        by (unfold Zc, Yc; autorewrite with shapes; assumption).
      rewrite get_matmul by (autorewrite with shapes; assumption).
      unfold Zc. autorewrite with shapes. rewrite HX.
      apply ssum_map_ext. intros k Hk. apply in_seq in Hk.
      rewrite get_stacked_product by (assumption || lia).
      unfold Yc. rewrite get_XT_Dinv by lia.
      rewrite get_Dinv_X by lia. ring.
  - unfold warnings. rewrite Hs, get_Dinv_eq. reflexivity.
Qed.

(** X12. project_instances raises (a ValueError, from numpy.dot) exactly
    when U or A does not have the number of columns of P, or X does not
    have U.rows + A.rows columns. *)
Theorem project_instances_raises_iff (X U A P : ndarray R) :
  ((exists e, raises (project_instances X U A P) e) <->
     ~ (shape1 U = shape1 P /\ shape1 A = shape1 P /\
        shape1 X = (shape0 U + shape0 A)%nat)) /\
  (forall e, raises (project_instances X U A P) e -> e = ValueError).
Proof.
  unfold raises.
  assert (Hpre : fst (project_instances X U A P) =
    fst (left <- dot U (transpose P) ;;
         right <- dot A (transpose P) ;;
         Z <- concatenate1 (transpose left) (transpose right) ;;
         Z <- dot Z (matmul (transpose X) (Dinv X)) ;;
         ret (transpose Z))).
  { unfold project_instances. rewrite get_Dinv_eq, fst_bind.
    rewrite dot_eq by (now autorewrite with shapes).
    now rewrite fst_bind_ret. }
  rewrite Hpre. clear Hpre.
  destruct (Nat.eq_dec (shape1 U) (shape1 P)) as [HU|HU].
  2:{ rewrite dot_raise by (now autorewrite with shapes).
      rewrite fst_bind_raise. split.
      - split; [intros _ (C & _); contradiction | now exists ValueError].
      - intros e He. congruence. }
  rewrite dot_eq by (now autorewrite with shapes). rewrite fst_bind_ret.
  destruct (Nat.eq_dec (shape1 A) (shape1 P)) as [HA|HA].
  2:{ rewrite dot_raise by (now autorewrite with shapes).
      rewrite fst_bind_raise. split.
      - split; [intros _ (_ & C & _); contradiction | now exists ValueError].
      - intros e He. congruence. }
  rewrite dot_eq by (now autorewrite with shapes). rewrite fst_bind_ret.
  rewrite concatenate1_eq by (now autorewrite with shapes).
  rewrite fst_bind_ret.
  destruct (Nat.eq_dec (shape1 X) (shape0 U + shape0 A)) as [HX|HX].
  - rewrite dot_eq by (autorewrite with shapes; lia). rewrite fst_bind_ret.
    cbn [fst ret]. split.
    + split; [intros [e He]; discriminate | intros C; exfalso; apply C; tauto].
    + intros e He. discriminate.
  - rewrite dot_raise by (autorewrite with shapes; lia).
    rewrite fst_bind_raise. split.
    + split; [intros _ (_ & _ & C); contradiction | now exists ValueError].
    + intros e He. congruence.
Qed.
End Projection.

Lemma project_instances_composition_witness :
  exists Z : ndarray R,
    returns (project_instances (XlA_of self_example) (Ua self_example)
               (A_ self_example) (mk_ndarray 1 [[1%R]; [2%R]])) Z /\
    shape Z = (3, 2).
Proof.
  destruct (@project_instances_composition (XlA_of self_example)
              (Ua self_example) (A_ self_example)
              (mk_ndarray 1 [[1%R]; [2%R]]) eq_refl eq_refl eq_refl)
    as (Z & HZ & HS & _).
  exists Z. split; [exact HZ | exact HS].
Defined.

(** ** get_projection: the split loses nothing *)

Section Split.
Context {T : Type} `{Scalar T}.
Variable sparsesvd : ndarray T -> nat -> M (ndarray T * list T * ndarray T).

Lemma result_type_diag (dt : dtype) : result_type dt dt = dt.
Proof. now destruct dt. Qed.

Lemma hstack_slices (u : ndarray T) (d0 : nat) :
  wf u ->
  hstack (slice_cols u 0 d0) (slice_cols u d0 (shape1 u)) = u.
Proof.
  intros Hwf.
  etransitivity; [|symmetry; apply (tabulate_get Hwf)].
  unfold hstack.
  change (dtype_of (slice_cols u 0 d0)) with (dtype_of u).
  change (dtype_of (slice_cols u d0 (shape1 u))) with (dtype_of u).
  rewrite result_type_diag. f_equal. unfold slice_cols. autorewrite with shapes.
  rewrite Nat.min_id, Nat.min_0_l, Nat.sub_0_r.
  replace (Nat.min d0 (shape1 u) + (shape1 u - Nat.min d0 (shape1 u)))
    with (shape1 u) by lia.
  apply tabulate_ext. intros i j Hi Hj.
  destruct (Nat.ltb_spec j (Nat.min d0 (shape1 u))).
  - now rewrite ?get_with_dtype, get_tabulate by lia.
  - rewrite ?get_with_dtype, get_tabulate by lia. f_equal. lia.
Qed.

(** X13. Whatever d is, when sparsesvd returns (u, s, v) the two arrays
    get_projection returns are the first min(d, c) columns and the
    remaining columns of the c-column array u, and put side by side again
    (numpy.concatenate((Pa, Pb), axis=1)) they give back u. *)
Theorem get_projection_split_joins (self : SupEmb T) (Q : ndarray T)
    (u : ndarray T) (s : list T) (v : ndarray T) :
  returns (sparsesvd Q (dims self)) (u, s, v) ->
  wf u ->
  exists Pa Pb : ndarray T,
    returns (get_projection sparsesvd self Q) (Pa, Pb) /\
    shape Pa = (shape0 u, Nat.min (d self) (shape1 u)) /\
    shape Pb = (shape0 u, shape1 u - Nat.min (d self) (shape1 u)) /\
    concatenate1 Pa Pb = ret u.
Proof.
  intros Hret Hwf.
  exists (slice_cols u 0 (d self)), (slice_cols u (d self) (shape1 u)).
  split.
  { unfold returns, get_projection in *.
    destruct (sparsesvd Q (dims self)) as [[e|usv] l]; cbn [fst] in Hret;
      [discriminate|].
    injection Hret as ->. reflexivity. }
  split.
  { rewrite shape_slice_cols. f_equal. lia. }
  split.
  { rewrite shape_slice_cols. f_equal. lia. }
  rewrite concatenate1_eq
    by (unfold slice_cols; now autorewrite with shapes).
  now rewrite hstack_slices.
Qed.
End Split.

Lemma get_projection_split_joins_witness :
  let u := tabulate 1 3 (fun i j => if Nat.eqb i j then 1%R else 0%R) in
  exists Pa Pb : ndarray R,
    returns (get_projection svd_diagonal self_proj Q_diag) (Pa, Pb) /\
    shape Pa = (shape0 u, Nat.min (d self_proj) (shape1 u)) /\
    shape Pb = (shape0 u, shape1 u - Nat.min (d self_proj) (shape1 u)) /\
    concatenate1 Pa Pb = ret u.
Proof.
  refine (@get_projection_split_joins R _ svd_diagonal self_proj Q_diag
            _ _ _ eq_refl _).
  repeat constructor.
Defined.


(** ** get_embedding: the shape the constructor does not check *)

Ltac fit := autorewrite with shapes; lia.

Section UncheckedShape.
Open Scope R_scope.
Variable argsort : list R -> list nat.

Lemma get_W2_refused (self : SupEmb R) :
  shape1 (XlA_pos self) = shape1 (XlA_neg self) ->
  ~ accepted (XlA_of self) ->
  get_W2 argsort self = raise ValueError.
Proof.
  intros Hc HA. unfold get_W2, concatenate0.
  apply Nat.eqb_eq in Hc. rewrite Hc. cbn [bind ret].
  fold (vstack (XlA_pos self) (XlA_neg self)).
  rewrite get_kNNs_refused by exact HA. reflexivity.
Qed.

(** X14. The constructor does not compare the number of columns of the
    labelled rows with Ua.rows + A.rows.  On an object it accepts whose
    labelled rows have another number of columns, get_embedding raises a
    ValueError (from numpy.dot(D2 * XlA, totA)) and returns no Q. *)
Theorem get_embedding_unchecked_shape (self : SupEmb R) :
  M_ self = shape0 (Ua self) ->
  d self = shape1 (Ua self) ->
  h self = shape1 (Ub self) ->
  shape_invariants (Ua self) (Ub self) (A_ self) (B_ self)
    (XlA_pos self) (XlA_neg self) (XuA self) (XuB self) ->
  shape1 (XlA_pos self) <> (shape0 (Ua self) + shape0 (A_ self))%nat ->
  raises (get_embedding argsort self) ValueError.
Proof.
  intros HM Hd Hh (I1 & I2 & I3 & I4 & I5 & I6) Hne.
  unfold raises, get_embedding.
  rewrite get_W1_table, fst_bind_ret.
  rewrite get_Laplacian_eq by fit. rewrite fst_bind_ret.
  rewrite get_U1_ret by assumption. rewrite fst_bind_ret.
  rewrite dot_eq by fit. rewrite fst_bind_ret.
  rewrite dot_eq by fit. rewrite fst_bind_ret.
  destruct (accepted_dec (XlA_of self)) as [HA|HA];
    [|rewrite (@get_W2_refused self I4 HA); apply fst_bind_raise].
  destruct (@get_W2_eq argsort self I4 HA)
    as (self' & EW2 & EX & F1 & F2 & F3 & F4 & F5 & F6 & F7 & F8 & F9 &
        F10 & F11 & F12 & F13 & F14).
  assert (EW2' : get_W2 argsort self = ret (W2_of argsort self, self'))
    by exact EW2.
  assert (EX' : XlA self' = Some (XlA_of self)) by exact EX.
  clear EW2 EX.
  rewrite EW2', fst_bind_ret. cbv beta iota.
  rewrite F1, F3, EX'.
  rewrite get_Laplacian_eq by fit. rewrite fst_bind_ret.
  unfold attr. rewrite fst_bind_ret.
  rewrite get_Dinv_eq, fst_bind.
  rewrite concatenate0_eq by fit. rewrite fst_bind_ret.
  rewrite dot_eq by (unfold XlA_of; fit). rewrite fst_bind_ret.
  rewrite dot_raise by (unfold XlA_of; fit).
  apply fst_bind_raise.
Qed.
End UncheckedShape.

Lemma get_embedding_unchecked_shape_witness :
  (exists self', init (Ua self_wide_labels) (Ub self_wide_labels)
      (A_ self_wide_labels) (B_ self_wide_labels)
      (XlA_pos self_wide_labels) (XlA_neg self_wide_labels)
      (XuA self_wide_labels) (XuB self_wide_labels) = ret self') /\
  raises (get_embedding argsort_ins self_wide_labels) ValueError.
Proof.
  split; [eexists; reflexivity|].
  apply (@get_embedding_unchecked_shape argsort_ins self_wide_labels);
    try reflexivity.
  - repeat split; reflexivity.
  - cbv. lia.
Defined.


(** ** Rule 1: the Laplacian of W1 and the blocks of Q that it fills *)

Section RuleOneTerm.
Open Scope R_scope.

Lemma W1_entry_partner (M0 i j : nat) :
  (i < 2 * M0)%nat -> (j < 2 * M0)%nat ->
  @W1_entry R _ M0 i j = if Nat.eqb (partner M0 i) j then 1 else 0.
Proof.
  intros Hi Hj. unfold W1_entry, partner.
  destruct (Nat.ltb_spec i M0);
    destruct (Nat.eqb_spec j (M0 + i)), (Nat.eqb_spec i (M0 + j));
    simpl;
    match goal with
    | |- context [Nat.eqb ?a ?b] => destruct (Nat.eqb_spec a b)
    end; try reflexivity; lia.
Qed.

Lemma partner_lt (M0 i : nat) : (i < 2 * M0)%nat -> (partner M0 i < 2 * M0)%nat.
Proof. unfold partner. destruct (Nat.ltb_spec i M0); lia. Qed.

Lemma partner_swap (M0 l k : nat) :
  (l < 2 * M0)%nat -> (k < 2 * M0)%nat ->
  Nat.eqb (partner M0 l) k = Nat.eqb (partner M0 k) l.
Proof.
  intros Hl Hk. unfold partner.
  destruct (Nat.ltb_spec l M0), (Nat.ltb_spec k M0);
    repeat match goal with
           | |- context [Nat.eqb ?a ?b] => destruct (Nat.eqb_spec a b)
           end; try reflexivity; lia.
Qed.

Lemma W1_row_total (M0 i : nat) :
  (i < 2 * M0)%nat ->
  nth i (sum_axis1 (tabulate (2 * M0) (2 * M0) (@W1_entry R _ M0))) 0 = 1.
Proof.
  intros Hi. change 0 with (@s0 R _) at 1.
  rewrite nth_sum_axis1 by (now autorewrite with shapes).
  autorewrite with shapes.
  rewrite ssum_map_ext with
    (g := fun j => if Nat.eqb (partner M0 i) j then 1 else 0).
  - apply ssum_delta. now apply partner_lt.
  - intros j Hj. apply in_seq in Hj. rewrite ?get_with_dtype, get_tabulate by lia.
    apply W1_entry_partner; lia.
Qed.

Lemma Laplacian_W1_entry (M0 l k : nat) :
  (l < 2 * M0)%nat -> (k < 2 * M0)%nat ->
  get (Laplacian (tabulate (2 * M0) (2 * M0) (@W1_entry R _ M0))) l k =
  (if Nat.eqb (partner M0 l) k then 1 else 0) -
  (if Nat.eqb l k then 1 else 0).
Proof.
  intros Hl Hk. unfold Laplacian. autorewrite with shapes.
  rewrite ?get_with_dtype, get_tabulate by assumption. unfold Laplacian_entry.
  rewrite ?get_with_dtype, get_tabulate by assumption.
  rewrite W1_entry_partner by assumption.
  rewrite W1_row_total by assumption. reflexivity.
Qed.

(** X15. The Laplacian of the array of Rule 1 is [[-I, I], [I, -I]]:
    get_Laplacian(get_W1(M)) has -1 on the diagonal, 1 at (i, M+i) and
    (M+i, i), and 0 elsewhere. *)
Theorem get_Laplacian_of_W1 (M0 : nat) :
  exists W1 L1 : ndarray R,
    get_W1 M0 = ret W1 /\
    get_Laplacian W1 = ret L1 /\
    shape L1 = ((2 * M0)%nat, (2 * M0)%nat) /\
    forall i j, (i < M0)%nat -> (j < M0)%nat ->
      let delta := if Nat.eqb i j then 1 else 0 in
      get L1 i j = - delta /\
      get L1 i (M0 + j) = delta /\
      get L1 (M0 + i) j = delta /\
      get L1 (M0 + i) (M0 + j) = - delta.
Proof.
  exists (tabulate (2 * M0) (2 * M0) (W1_entry M0)),
    (Laplacian (tabulate (2 * M0) (2 * M0) (W1_entry M0))).
  split; [apply get_W1_table|].
  split; [apply get_Laplacian_table; now autorewrite with shapes|].
  split; [unfold shape; now autorewrite with shapes|].
  intros i j Hi Hj delta. unfold delta.
  rewrite !Laplacian_W1_entry by lia. unfold partner.
  destruct (Nat.ltb_spec i M0); [|lia].
  destruct (Nat.ltb_spec (M0 + i) M0); [lia|].
  repeat match goal with
         | |- context [Nat.eqb ?a ?b] => destruct (Nat.eqb_spec a b)
         end; try lia; repeat split; lra.
Qed.
End RuleOneTerm.

Section CrossBlocks.
Open Scope R_scope.
Variable argsort : list R -> list nat.

Lemma ssum_delta_mul_r (f : nat -> R) (p n : nat) :
  (p < n)%nat ->
  ssum (map (fun l => f l * (if Nat.eqb p l then 1 else 0)) (seq 0 n)) = f p.
Proof.
  intros Hp.
  rewrite ssum_map_ext with
    (g := fun l => (if Nat.eqb p l then 1 else 0) * f l)
    by (intros; ring).
  rewrite ssum_delta_mul by assumption. ring.
Qed.

(** V.T * L(W1) * V, entry by entry, for V with 2M rows. *)
Lemma rule_one_form (V : ndarray R) (M0 a b : nat) :
  shape0 V = (2 * M0)%nat -> (a < shape1 V)%nat -> (b < shape1 V)%nat ->
  get (matmul (matmul (transpose V)
                 (Laplacian (tabulate (2 * M0) (2 * M0) (W1_entry M0)))) V)
      a b =
  ssum (map (fun k => (get V (partner M0 k) a - get V k a) * get V k b)
            (seq 0 (2 * M0))).
Proof.
  intros HV Ha Hb.
  rewrite get_matmul by (autorewrite with shapes; assumption).
  autorewrite with shapes.
  apply ssum_map_ext. intros k Hk. apply in_seq in Hk. f_equal.
  rewrite get_matmul by (autorewrite with shapes; lia).
  autorewrite with shapes. rewrite HV.
  rewrite ssum_map_ext with
    (g := fun l => get V l a * (if Nat.eqb (partner M0 k) l then 1 else 0)
                   - get V l a * (if Nat.eqb k l then 1 else 0)).
  - rewrite ssum_map_sub.
    rewrite (ssum_delta_mul_r (fun l => get V l a))
      by (apply partner_lt; lia).
    rewrite (ssum_delta_mul_r (fun l => get V l a)) by lia.
    reflexivity.
  - intros l Hl. apply in_seq in Hl.
    rewrite get_transpose by lia.
    rewrite Laplacian_W1_entry by lia.
    rewrite (@partner_swap M0 l k) by lia.
    rewrite (Nat.eqb_sym l k). ring.
Qed.

Lemma U1_entry (self : SupEmb R) (k a : nat) :
  embedding_shapes self ->
  (k < 2 * M_ self)%nat -> (a < d self + h self)%nat ->
  get (U1_of self) k a =
  if Nat.ltb k (M_ self)
  then (if Nat.ltb a (d self) then get (Ua self) k a else 0)
  else (if Nat.ltb a (d self) then 0
        else get (Ub self) (k - M_ self) (a - d self)).
Proof.
  intros (HM & Hd & Hh & (I1 & _) & _) Hk Ha.
  unfold U1_of. rewrite get_vstack. autorewrite with shapes.
  rewrite <- HM.
  destruct (Nat.ltb_spec k (M_ self)).
  - rewrite get_hstack by (autorewrite with shapes; lia).
    autorewrite with shapes. rewrite <- Hd.
    destruct (Nat.ltb_spec a (d self)); [reflexivity|].
    now rewrite get_zeros by lia.
  - rewrite get_hstack by (autorewrite with shapes; lia).
    autorewrite with shapes.
    destruct (Nat.ltb_spec a (d self)); [|reflexivity].
    now rewrite get_zeros by lia.
Qed.

(** X16. In the Q that get_embedding returns, the two off-diagonal blocks
    hold only the term of Rule 1: for a < d and b < h,
    Q[a, d+b] = Q[d+b, a] = - sum over the M pivot rows of Ua[m,a] * Ub[m,b],
    that is -(Ua.T * Ub)[a,b]; the labelled and the unlabelled rows do not
    enter these blocks. *)
Theorem get_embedding_cross_blocks (self : SupEmb R) :
  embedding_shapes self ->
  exists (Q : ndarray R) (self' : SupEmb R),
    returns (get_embedding argsort self) (Q, self') /\
    forall a b, (a < d self)%nat -> (b < h self)%nat ->
      get Q a (d self + b) =
        - ssum (map (fun m => get (Ua self) m a * get (Ub self) m b)
                    (seq 0 (M_ self))) /\
      get Q (d self + b) a = get Q a (d self + b).
Proof.
  intros Hs. destruct (get_embedding_eq argsort Hs) as (self' & E & _).
  exists (Q_of argsort self), self'. split; [exact E|].
  intros a b Ha Hb.
  assert (Hsym := Q_of_symmetric argsort Hs).
  split; [|apply Hsym; lia].
  assert (Hs' := Hs).
  destruct Hs' as (HM & Hd & Hh & (I1 & I2 & I3 & I4 & I5 & I6) & I7 & I8).
  assert (HU0 : shape0 (U1_of self) = (2 * M_ self)%nat)
    by (unfold U1_of; autorewrite with shapes; lia).
  assert (HU1 : shape1 (U1_of self) = (d self + h self)%nat)
    by (unfold U1_of; autorewrite with shapes; lia).
  unfold Q_of, difference.
  rewrite ?get_with_dtype, get_tabulate by (autorewrite with shapes; lia).
  cbn [ssub RScalar].
  rewrite rule_one_form by (rewrite ?HU0, ?HU1; lia).
  (* the left term is the zero block *)
  rewrite get_vstack. autorewrite with shapes. rewrite <- Hd.
  destruct (Nat.ltb_spec a (d self)); [|lia].
  rewrite get_hstack by (autorewrite with shapes; lia).
  autorewrite with shapes. rewrite <- ?Hd.
  destruct (Nat.ltb_spec (d self + b) (d self)); [lia|].
  rewrite get_zeros by lia.
  (* the right term, over the two halves of the 2M rows *)
  replace (2 * M_ self)%nat with (M_ self + M_ self)%nat by lia.
  rewrite seq_app, map_app, ssum_app. simpl (0 + M_ self)%nat.
  rewrite ssum_map_zero.
  2:{ intros k Hk. apply in_seq in Hk.
      rewrite !(U1_entry Hs) by (try apply partner_lt; lia).
      destruct (Nat.ltb_spec k (M_ self)); [|lia].
      destruct (Nat.ltb_spec (d self + b) (d self)); [lia|]. ring. }
  rewrite (seq_shift_add (M_ self) (M_ self)), map_map.
  rewrite ssum_map_ext with
    (g := fun m => get (Ua self) m a * get (Ub self) m b).
  - change (@s0 R _) with 0. ring.
  - intros m Hm. apply in_seq in Hm.
    rewrite !(U1_entry Hs) by (try apply partner_lt; lia).
    unfold partner.
    destruct (Nat.ltb_spec (M_ self + m) (M_ self)); [lia|].
    replace (M_ self + m - M_ self)%nat with m by lia.
    destruct (Nat.ltb_spec m (M_ self)); [|lia].
    destruct (Nat.ltb_spec a (d self)); [|lia].
    destruct (Nat.ltb_spec (d self + b) (d self)); [lia|].
    replace (d self + b - d self)%nat with b by lia. ring.
Qed.
End CrossBlocks.

Lemma get_embedding_cross_blocks_witness :
  exists (Q : ndarray R) (self' : SupEmb R),
    returns (get_embedding argsort_ins self_example) (Q, self') /\
    forall a b, a < d self_example -> b < h self_example ->
      get Q a (d self_example + b) =
        (- ssum (map (fun m => get (Ua self_example) m a *
                               get (Ub self_example) m b)
                     (seq 0 (M_ self_example))))%R /\
      get Q (d self_example + b) a = get Q a (d self_example + b).
Proof.
  exact (@get_embedding_cross_blocks argsort_ins self_example
           embedding_shapes_example).
Defined.

Section DiagonalBlocks.
Open Scope R_scope.
Variable argsort : list R -> list nat.

Lemma ssum_map_opp {X} (f : X -> R) (l : list X) :
  ssum (map (fun k => - f k) l) = - ssum (map f l).
Proof.
  rewrite (@ssum_map_ext X (fun k => - f k) (fun k => -1 * f k))
    by (intros; ring).
  rewrite ssum_map_mul_l. ring.
Qed.

Lemma rule_one_top_left (self : SupEmb R) (a b : nat) :
  embedding_shapes self -> (a < d self)%nat -> (b < d self)%nat ->
  ssum (map (fun k => (get (U1_of self) (partner (M_ self) k) a
                       - get (U1_of self) k a) * get (U1_of self) k b)
            (seq 0 (2 * M_ self))) =
  - ssum (map (fun m => get (Ua self) m a * get (Ua self) m b)
              (seq 0 (M_ self))).
Proof.
  intros Hs Ha Hb.
  replace (2 * M_ self)%nat with (M_ self + M_ self)%nat by lia.
  rewrite seq_app, map_app, ssum_app. simpl (0 + M_ self)%nat.
  rewrite (ssum_map_zero _ (seq (M_ self) (M_ self))).
  2:{ intros k Hk. apply in_seq in Hk.
      rewrite !(U1_entry Hs) by (try apply partner_lt; lia).
      destruct (Nat.ltb_spec k (M_ self)); [lia|].
      destruct (Nat.ltb_spec b (d self)); [|lia]. ring. }
  rewrite Rplus_0_r, <- ssum_map_opp. apply ssum_map_ext. intros m Hm. apply in_seq in Hm.
  rewrite !(U1_entry Hs) by (try apply partner_lt; lia).
  unfold partner.
  destruct (Nat.ltb_spec m (M_ self)); [|lia].
  destruct (Nat.ltb_spec (M_ self + m) (M_ self)); [lia|].
  destruct (Nat.ltb_spec a (d self)); [|lia].
  destruct (Nat.ltb_spec b (d self)); [|lia]. ring.
Qed.

Lemma rule_one_bottom_right (self : SupEmb R) (a b : nat) :
  embedding_shapes self -> (a < h self)%nat -> (b < h self)%nat ->
  ssum (map (fun k => (get (U1_of self) (partner (M_ self) k) (d self + a)
                       - get (U1_of self) k (d self + a))
                      * get (U1_of self) k (d self + b))
            (seq 0 (2 * M_ self))) =
  - ssum (map (fun m => get (Ub self) m a * get (Ub self) m b)
              (seq 0 (M_ self))).
Proof.
  intros Hs Ha Hb.
  replace (2 * M_ self)%nat with (M_ self + M_ self)%nat by lia.
  rewrite seq_app, map_app, ssum_app. simpl (0 + M_ self)%nat.
  rewrite (ssum_map_zero _ (seq 0 (M_ self))).
  2:{ intros k Hk. apply in_seq in Hk.
      rewrite !(U1_entry Hs) by (try apply partner_lt; lia).
      destruct (Nat.ltb_spec k (M_ self)); [|lia].
      destruct (Nat.ltb_spec (d self + b) (d self)); [lia|]. ring. }
  rewrite (seq_shift_add (M_ self) (M_ self)), map_map.
  rewrite Rplus_0_l, <- ssum_map_opp. apply ssum_map_ext. intros m Hm. apply in_seq in Hm.
  rewrite !(U1_entry Hs) by (try apply partner_lt; lia).
  unfold partner.
  destruct (Nat.ltb_spec (M_ self + m) (M_ self)); [lia|].
  replace (M_ self + m - M_ self)%nat with m by lia.
  destruct (Nat.ltb_spec m (M_ self)); [|lia].
  destruct (Nat.ltb_spec (d self + a) (d self)); [lia|].
  destruct (Nat.ltb_spec (d self + b) (d self)); [lia|].
  replace (d self + a - d self)%nat with a by lia.
  replace (d self + b - d self)%nat with b by lia. ring.
Qed.

(** X17. The diagonal blocks of the Q that get_embedding returns: with
    F2, F3 and F3_bar the three forms part.T * L * part of Rules 2 and 3,
    Q[a,b] = w2 * F2[a,b] - w3 * F3[a,b] + (Ua.T * Ua)[a,b] for a, b < d, and
    Q[d+a, d+b] = -w3 * lambda_2 * F3_bar[a,b] + (Ub.T * Ub)[a,b] for
    a, b < h: Rule 1 adds Ua.T * Ua and Ub.T * Ub, whatever w1 and lambda_1
    are. *)
Theorem get_embedding_diagonal_blocks (self : SupEmb R) :
  embedding_shapes self ->
  let totA := vstack (Ua self) (A_ self) in
  let totB := vstack (Ub self) (B_ self) in
  let F2 := quadratic_form (Dinv (XlA_of self)) (XlA_of self) totA
              (Laplacian (W2_of argsort self)) in
  let F3 := quadratic_form (Dinv (XuA self)) (XuA self) totA
              (Laplacian (similarity (XuA self))) in
  let F3_bar := quadratic_form (Dinv (XuB self)) (XuB self) totB
              (Laplacian (similarity (XuB self))) in
  exists (Q : ndarray R) (self' : SupEmb R),
    returns (get_embedding argsort self) (Q, self') /\
    (forall a b, (a < d self)%nat -> (b < d self)%nat ->
       get Q a b =
         w2 self * get F2 a b - w3 self * get F3 a b
         + ssum (map (fun m => get (Ua self) m a * get (Ua self) m b)
                     (seq 0 (M_ self)))) /\
    (forall a b, (a < h self)%nat -> (b < h self)%nat ->
       get Q (d self + a) (d self + b) =
         - w3 self * lambda_2 self * get F3_bar a b
         + ssum (map (fun m => get (Ub self) m a * get (Ub self) m b)
                     (seq 0 (M_ self)))).
Proof.
  intros Hs totA totB F2 F3 F3_bar.
  destruct (get_embedding_eq argsort Hs) as (self' & E & _).
  exists (Q_of argsort self), self'. split; [exact E|].
  assert (Hs' := Hs).
  destruct Hs' as (HM & Hd & Hh & (I1 & I2 & I3 & I4 & I5 & I6) & I7 & I8).
  assert (HU0 : shape0 (U1_of self) = (2 * M_ self)%nat)
    by (unfold U1_of; autorewrite with shapes; lia).
  assert (HU1 : shape1 (U1_of self) = (d self + h self)%nat)
    by (unfold U1_of; autorewrite with shapes; lia).
  split.
  - intros a b Ha Hb. unfold Q_of, difference at 1.
    rewrite ?get_with_dtype, get_tabulate by (autorewrite with shapes; lia).
    cbn [ssub RScalar].
    rewrite rule_one_form by (rewrite ?HU0, ?HU1; lia).
    rewrite rule_one_top_left by assumption.
    rewrite get_vstack. autorewrite with shapes. rewrite <- ?Hd.
    destruct (Nat.ltb_spec a (d self)); [|lia].
    rewrite get_hstack by (autorewrite with shapes; lia).
    autorewrite with shapes. rewrite <- ?Hd.
    destruct (Nat.ltb_spec b (d self)); [|lia].
    unfold difference. autorewrite with shapes. rewrite <- ?Hd.
    rewrite ?get_with_dtype, get_tabulate by lia.
    unfold scale. autorewrite with shapes. rewrite <- ?Hd.
    rewrite ?get_with_dtype, !get_tabulate by lia.
    fold totA totB F2 F3. cbn [ssub smul RScalar]. ring.
  - intros a b Ha Hb. unfold Q_of, difference at 1.
    rewrite ?get_with_dtype, get_tabulate by (autorewrite with shapes; lia).
    cbn [ssub RScalar].
    rewrite rule_one_form by (rewrite ?HU0, ?HU1; lia).
    rewrite rule_one_bottom_right by assumption.
    rewrite get_vstack. autorewrite with shapes. rewrite <- ?Hd.
    destruct (Nat.ltb_spec (d self + a) (d self)); [lia|].
    rewrite get_hstack by (autorewrite with shapes; lia).
    autorewrite with shapes.
    destruct (Nat.ltb_spec (d self + b) (d self)); [lia|].
    replace (d self + a - d self)%nat with a by lia.
    replace (d self + b - d self)%nat with b by lia.
    unfold scale. autorewrite with shapes. rewrite <- ?Hh.
    rewrite ?get_with_dtype, get_tabulate by lia.
    fold totB F3_bar. cbn [sopp smul RScalar]. ring.
Qed.
End DiagonalBlocks.

Lemma get_embedding_diagonal_blocks_witness :
  exists (Q : ndarray R) (self' : SupEmb R),
    returns (get_embedding argsort_ins self_example) (Q, self') /\
    (forall a b, a < d self_example -> b < d self_example ->
       get Q a b =
         (w2 self_example *
            get (quadratic_form (Dinv (XlA_of self_example))
                   (XlA_of self_example)
                   (vstack (Ua self_example) (A_ self_example))
                   (Laplacian (W2_of argsort_ins self_example))) a b
          - w3 self_example *
            get (quadratic_form (Dinv (XuA self_example)) (XuA self_example)
                   (vstack (Ua self_example) (A_ self_example))
                   (Laplacian (similarity (XuA self_example)))) a b
          + ssum (map (fun m => get (Ua self_example) m a *
                                get (Ua self_example) m b)
                      (seq 0 (M_ self_example))))%R).
Proof.
  destruct (@get_embedding_diagonal_blocks argsort_ins self_example
              embedding_shapes_example) as (Q & self' & HR & H11 & _).
  exists Q, self'. split; [exact HR | exact H11].
Defined.

(** ** When get_Dinv and get_embedding divide by zero *)

Section DivisionByZero.
Open Scope R_scope.
Variable argsort : list R -> list nat.

Lemma In_Dinv_log (W : ndarray R) :
  In DivideByZero (Dinv_log W) <-> zero_total_zero_mean W.
Proof.
  unfold zero_total_zero_mean. rewrite <- Dinv_sums_zero_iff.
  unfold Dinv_log.
  change (@seqb R _) with Reqb. change (@s0 R _) with 0.
  destruct (Nat.ltb 0 (count_nonzero (sum_axis1 W)));
    destruct (existsb (fun x => Reqb x 0) (Dinv_sums W)); simpl;
    split; intros Hx; try discriminate; try tauto;
    repeat (destruct Hx as [Hx|Hx]; try discriminate Hx); tauto.
Qed.

Lemma ssum_list_zero (s : list R) :
  (forall x, In x s -> 0 <= x) -> ssum s = 0 -> forall x, In x s -> x = 0.
Proof.
  intros Hn Hs x Hx. rewrite <- (map_id s) in Hs.
  exact (@ssum_nonneg_zero R (fun x => x) s Hn Hs x Hx).
Qed.

Lemma INR_length_nonzero {X} (l : list X) (i : nat) :
  (i < length l)%nat -> INR (length l) <> 0.
Proof. intros Hi. apply not_0_INR. lia. Qed.

Lemma In_Dinv_log_warning (W : ndarray R) :
  In (LogWarning 1) (Dinv_log W) <-> nonzero_total W.
Proof.
  unfold nonzero_total.
  assert (HL := count_nonzero_iff (sum_axis1 W)).
  rewrite length_sum_axis1 in HL. rewrite <- HL.
  unfold Dinv_log.
  change (@seqb R _) with Reqb. change (@s0 R _) with 0.
  destruct (Nat.ltb 0 (count_nonzero (sum_axis1 W)));
    destruct (existsb (fun x => Reqb x 0) (Dinv_sums W)); simpl;
    split; intros Hx; try discriminate; try tauto;
    repeat (destruct Hx as [Hx|Hx]; try discriminate Hx); tauto.
Qed.

Lemma mean_lt_1 (s : list R) :
  (0 < length s)%nat -> 0 <= ssum s ->
  (Rabs (mean s) < 1 <-> ssum s < INR (length s)).
Proof.
  intros Hl Hs. unfold mean. cbn [sdiv sofnat RScalar].
  assert (Hn : 0 < INR (length s)) by (apply lt_0_INR; lia).
  assert (Hq : 0 <= ssum s / INR (length s)).
  { apply Rmult_le_pos; [exact Hs|].
    left. now apply Rinv_0_lt_compat. }
  rewrite Rabs_right by lra.
  split; intros Hlt.
  - apply (Rmult_lt_compat_r (INR (length s))) in Hlt; [|exact Hn].
    unfold Rdiv in Hlt. rewrite Rmult_assoc, Rinv_l in Hlt by lra. lra.
  - apply (Rmult_lt_reg_r (INR (length s))); [exact Hn|].
    unfold Rdiv. rewrite Rmult_assoc, Rinv_l by lra. lra.
Qed.

(** X18. In exact arithmetic, on an array without negative entries, such
    as counts.  When its dtype is float64, get_Dinv divides by zero exactly
    when the array has a row and every one of its row totals is zero: one
    nonzero row total is enough for the mean to repair every zero row.
    When its dtype is int64, the mean is stored as its integer part, and
    get_Dinv divides by zero exactly when some row total is zero and the
    row totals add up to less than the number of rows.  (In binary64 a
    mean that rounds to zero is one more case: [get_Dinv_underflow].) *)
Theorem get_Dinv_nonnegative (W : ndarray R) :
  (forall i j, (i < shape0 W)%nat -> (j < shape1 W)%nat -> 0 <= get W i j) ->
  (dtype_of W = float64 ->
     (In DivideByZero (warnings (get_Dinv W)) <->
        (0 < shape0 W)%nat /\
        forall i, (i < shape0 W)%nat -> nth i (sum_axis1 W) 0 = 0)) /\
  (dtype_of W = int64 ->
     (In DivideByZero (warnings (get_Dinv W)) <->
        (exists i, (i < shape0 W)%nat /\ nth i (sum_axis1 W) 0 = 0) /\
        ssum (sum_axis1 W) < INR (shape0 W))).
Proof.
  intros Hnn. rewrite get_Dinv_eq. unfold warnings; cbn [snd].
  rewrite In_Dinv_log. unfold zero_total_zero_mean.
  set (s := sum_axis1 W).
  assert (Hs : length s = shape0 W) by apply length_sum_axis1.
  assert (Hpos : forall x, In x s -> 0 <= x).
  { intros x Hx. apply In_nth with (d := 0) in Hx.
    destruct Hx as (i & Hi & <-). rewrite Hs in Hi.
    change 0 with (@s0 R _) at 2. unfold s.
    rewrite nth_sum_axis1 by assumption.
    apply ssum_map_nonneg. intros j Hj. apply in_seq in Hj.
    apply Hnn; lia. }
  assert (Hsum : 0 <= ssum s).
  { rewrite <- (map_id s). apply ssum_map_nonneg. exact Hpos. }
  split; intros Hdt; rewrite Hdt; cbn [cast].
  - split.
    + intros (i & Hi & Hz & Hm). split; [lia|].
      intros k Hk. apply (ssum_list_zero s Hpos).
      * unfold mean in Hm. cbn [sdiv sofnat RScalar] in Hm.
        unfold Rdiv in Hm.
        apply Rmult_integral in Hm. destruct Hm as [Hm|Hm]; [exact Hm|].
        exfalso. apply (Rinv_neq_0_compat (INR (length s))); [|exact Hm].
        apply (@INR_length_nonzero R s i). lia.
      * apply nth_In. lia.
    + intros (Hn & Hall). exists 0%nat.
      split; [lia|]. split; [now apply Hall|].
      apply mean_all_zero. intros k Hk. apply Hall. lia.
  - change (@strunc R _) with Rtrunc. rewrite <- Hs. split.
    + intros (i & Hi & Hz & Hm). split; [now exists i|].
      apply mean_lt_1; [lia | exact Hsum |].
      now apply Rtrunc_zero_iff.
    + intros ((i & Hi & Hz) & Hlt). exists i.
      split; [exact Hi|]. split; [exact Hz|].
      apply Rtrunc_zero_iff. apply mean_lt_1; [lia | exact Hsum | exact Hlt].
Qed.

(** X19. In exact arithmetic, when the shapes fit and the three instance
    arrays have a row and a column, get_embedding divides by zero exactly
    when one of the three arrays it passes to get_Dinv (the stacked
    labelled rows, XuA, XuB) has a zero row total and a zero stored mean of
    row totals, and it logs the perturbation exactly when one of the three
    has a nonzero row total. *)
Theorem get_embedding_division_by_zero (self : SupEmb R) :
  embedding_shapes self ->
  (In DivideByZero (warnings (get_embedding argsort self)) <->
     zero_total_zero_mean (XlA_of self) \/
     zero_total_zero_mean (XuA self) \/
     zero_total_zero_mean (XuB self)) /\
  (In (LogWarning 1) (warnings (get_embedding argsort self)) <->
     nonzero_total (XlA_of self) \/
     nonzero_total (XuA self) \/
     nonzero_total (XuB self)).
Proof.
  intros Hs. destruct (get_embedding_eq argsort Hs) as (self' & _ & E).
  unfold warnings. rewrite E. cbn [snd].
  split.
  - rewrite !in_app_iff, !In_Dinv_log. reflexivity.
  - rewrite !in_app_iff, !In_Dinv_log_warning. reflexivity.
Qed.
End DivisionByZero.

Lemma get_Dinv_nonnegative_witness :
  (In DivideByZero (warnings (get_Dinv W_counts_exact)) <->
     (exists i, i < shape0 W_counts_exact /\ nth i (sum_axis1 W_counts_exact) 0%R = 0%R) /\
     (ssum (sum_axis1 W_counts_exact) < INR (shape0 W_counts_exact))%R).
Proof.
  refine (proj2 (@get_Dinv_nonnegative W_counts_exact _) eq_refl).
  intros i j Hi Hj.
  unfold W_counts_exact, get, shape0, shape1 in *. simpl in *.
  destruct i as [|[|[|i]]]; destruct j as [|[|[|j]]]; simpl; try lra; lia.
Defined.

Lemma get_embedding_division_by_zero_witness :
  (In DivideByZero (warnings (get_embedding argsort_ins self_example)) <->
     zero_total_zero_mean (XlA_of self_example) \/
     zero_total_zero_mean (XuA self_example) \/
     zero_total_zero_mean (XuB self_example)) /\
  (In (LogWarning 1) (warnings (get_embedding argsort_ins self_example)) <->
     nonzero_total (XlA_of self_example) \/
     nonzero_total (XuA self_example) \/
     nonzero_total (XuB self_example)).
Proof.
  exact (@get_embedding_division_by_zero argsort_ins self_example
           embedding_shapes_example).
Defined.


(** ** Parameters that get_embedding does not read *)

Section UnusedParameters.
Open Scope R_scope.
Variable argsort : list R -> list nat.

(** X20. get_embedding reads neither w1 nor lambda_1, and k3 and k3_bar
    do not change what it computes (nor does dims): whatever values these
    five attributes are given, the Q returned is the same. *)
Theorem get_embedding_ignores_parameters (self : SupEmb R)
    (w1' lambda_1' : R) (k3' k3_bar' : Z) (dims' : nat) :
  embedding_shapes self ->
  exists (Q : ndarray R) (self1 self2 : SupEmb R),
    returns (get_embedding argsort self) (Q, self1) /\
    returns (get_embedding argsort
               (with_parameters self w1' lambda_1' k3' k3_bar' dims'))
            (Q, self2).
Proof.
  intros Hs.
  assert (Hs2 : embedding_shapes
                  (with_parameters self w1' lambda_1' k3' k3_bar' dims'))
    by exact Hs.
  destruct (get_embedding_eq argsort Hs) as (self1 & E1 & _).
  destruct (get_embedding_eq argsort Hs2) as (self2 & E2 & _).
  exists (Q_of argsort self), self1, self2.
  split; [exact E1 | exact E2].
Qed.
End UnusedParameters.

Lemma get_embedding_ignores_parameters_witness :
  exists (Q : ndarray R) (self1 self2 : SupEmb R),
    returns (get_embedding argsort_ins self_example) (Q, self1) /\
    returns (get_embedding argsort_ins
               (with_parameters self_example 7%R 0%R 1%Z 0%Z 2))
            (Q, self2).
Proof.
  exact (@get_embedding_ignores_parameters argsort_ins self_example
           7%R 0%R 1%Z 0%Z 2 embedding_shapes_example).
Defined.
